(** * md-render: a Markdown-subset parser (block scanner + inline tokenizer)

    Shallow embedding of [src/md-render.js] (the rule-table revision of the
    component) and the properties of its parser, with the parser of the
    earlier revision ([src/unnamed/part_000]) to compare it with.

    - JavaScript strings are sequences of UTF-16 code units: [jsstring] is
      [list N], one [N] per code unit.
    - The regular expressions of the source are kept as syntax trees and run
      by a backtracking matcher ([rmatch]) with greedy quantifiers, capture
      groups and back-references.
    - A JavaScript exception is an [Err] outcome; [while] loops are run with
      fuel, and running out of it is the outcome [Err OutOfFuel]. The
      functions of the parser supply the fuel themselves (the number of
      lines, or of code units); that it is enough is proved.

    The file has these parts: the program, the vocabulary of the statements,
    the earlier revision, the lemmas, the claims C1 to C10, and the further
    properties X1 to X16 with their lemmas. *)

From Stdlib Require Import String Ascii NArith ZArith Arith Bool Lia List.
Import ListNotations.

(** ** Strings *)

Definition jsstring := list N.

(** Code unit of an ASCII character, and the string of a literal. *)
Definition ch (a : ascii) : N := N_of_ascii a.
Definition str (s : string) : jsstring := map ch (list_ascii_of_string s).

Definition LF : N := 10%N.

(** ECMAScript [LineTerminator]: LF, CR, LS, PS. *)
Definition isLineTerminator (c : N) : bool :=
  (N.eqb c 10 || N.eqb c 13 || N.eqb c 8232 || N.eqb c 8233)%N.

(** ECMAScript [WhiteSpace] (TAB, VT, FF, SP, NBSP, ZWNBSP and category Zs)
    together with [LineTerminator]: what [String.prototype.trim] strips and
    what the class [\s] matches. *)
Definition isSpace (c : N) : bool :=
  (N.eqb c 9 || N.eqb c 11 || N.eqb c 12 || N.eqb c 32 || N.eqb c 160
   || N.eqb c 5760 || (N.leb 8192 c && N.leb c 8202)
   || N.eqb c 8239 || N.eqb c 8287 || N.eqb c 12288 || N.eqb c 65279
   || isLineTerminator c)%N.

(** [\d] *)
Definition isDigit (c : N) : bool := (N.leb 48 c && N.leb c 57)%N.

(** [.] (no [s] flag): any code unit but a line terminator. *)
Definition isDot (c : N) : bool := negb (isLineTerminator c).

Fixpoint dropWhile (p : N -> bool) (s : jsstring) : jsstring :=
  match s with
  | c :: s' => if p c then dropWhile p s' else s
  | [] => []
  end.

(** [s.trim()] *)
Definition trim (s : jsstring) : jsstring :=
  rev (dropWhile isSpace (rev (dropWhile isSpace s))).

(** [s.startsWith(w)] *)
Fixpoint startsWith (w s : jsstring) : bool :=
  match w, s with
  | [], _ => true
  | x :: w', y :: s' => N.eqb x y && startsWith w' s'
  | _ :: _, [] => false
  end.

(** [!s] for a string [s]: only the empty string is falsy. *)
Definition isEmpty (s : jsstring) : bool :=
  match s with [] => true | _ :: _ => false end.

(** [text.split('\n')]: never the empty array. *)
Fixpoint split (sep : N) (s : jsstring) : list jsstring :=
  match s with
  | [] => [[]]
  | c :: s' =>
      if N.eqb c sep then [] :: split sep s'
      else match split sep s' with
           | l :: ls => (c :: l) :: ls
           | [] => [[c]]
           end
  end.

(** [parts.join('\n')] *)
Fixpoint join (sep : N) (parts : list jsstring) : jsstring :=
  match parts with
  | [] => []
  | [p] => p
  | p :: ps => p ++ sep :: join sep ps
  end.

(** [s.search(/[...]/)] for a one-character class: the index of the first
    code unit in the class, or -1. *)
Fixpoint search (p : N -> bool) (s : jsstring) : Z :=
  match s with
  | [] => (-1)%Z
  | c :: s' =>
      if p c then 0%Z
      else let r := search p s' in
           if (r =? -1)%Z then (-1)%Z else (r + 1)%Z
  end.

(** ** Regular expressions *)

Inductive regex : Type :=
| Chr (c : N)                                       (* a literal character *)
| Cls (p : N -> bool)                               (* a class, [.], [\d], [\s] *)
| Rep (p : N -> bool) (lo : nat) (hi : option nat)  (* greedy [x+], [x*], [x{lo,hi}] *)
| Seq (r1 r2 : regex)
| Alt (r1 r2 : regex)
| Grp (n : nat) (r : regex)                         (* capture group number n *)
| Bref (n : nat)                                    (* back-reference \n *)
| Eos.                                              (* [$], no [m] flag *)

Definition captures := nat -> option jsstring.

Definition noCaptures : captures := fun _ => None.

Definition setCapture (n : nat) (w : jsstring) (cs : captures) : captures :=
  fun m => if Nat.eqb m n then Some w else cs m.

Definition canRepeat (hi : option nat) : bool :=
  match hi with Some 0 => false | _ => true end.

(** Greedy repetition of a one-character atom: take one more while allowed,
    and give characters back one at a time when the continuation fails. *)
Fixpoint rep {A : Type} (p : N -> bool) (lo : nat) (hi : option nat)
    (s : jsstring) (k : jsstring -> option A) : option A :=
  let stop := match lo with 0 => k s | S _ => None end in
  match s with
  | c :: s' =>
      if p c && canRepeat hi then
        match rep p (pred lo) (option_map pred hi) s' k with
        | Some r => Some r
        | None => stop
        end
      else stop
  | [] => stop
  end.

(** Backtracking matcher in continuation-passing style. [s] is the input
    that is left, [cs] the captures so far; [k] runs the rest of the
    pattern. The first alternative that lets the whole pattern succeed wins. *)
Fixpoint rmatch (r : regex) (s : jsstring) (cs : captures)
    (k : jsstring -> captures -> option (jsstring * captures))
    : option (jsstring * captures) :=
  match r with
  | Chr c =>
      match s with
      | c' :: s' => if N.eqb c' c then k s' cs else None
      | [] => None
      end
  | Cls p =>
      match s with
      | c' :: s' => if p c' then k s' cs else None
      | [] => None
      end
  | Rep p lo hi => rep p lo hi s (fun s' => k s' cs)
  | Seq r1 r2 => rmatch r1 s cs (fun s1 cs1 => rmatch r2 s1 cs1 k)
  | Alt r1 r2 =>
      match rmatch r1 s cs k with
      | Some x => Some x
      | None => rmatch r2 s cs k
      end
  | Grp n r1 =>
      rmatch r1 s cs
        (fun s' cs' => k s' (setCapture n (firstn (length s - length s') s) cs'))
  | Bref n =>
      match cs n with
      | None => k s cs
      | Some w => if startsWith w s then k (skipn (length w) s) cs else None
      end
  | Eos =>
      match s with
      | [] => k s cs
      | _ :: _ => None
      end
  end.

(** The match object: [m[0]] and the numbered groups. *)
Record matchResult : Type := MatchResult {
  whole : jsstring;
  group : captures
}.

(** [s.match(r)] / [r.exec(s)] for a pattern without flags that begins with
    [^]: the only start position that can succeed is index 0. *)
Definition exec (r : regex) (s : jsstring) : option matchResult :=
  match rmatch r s noCaptures (fun s' cs => Some (s', cs)) with
  | Some (s', cs) => Some (MatchResult (firstn (length s - length s') s) cs)
  | None => None
  end.

(** [r.test(s)] *)
Definition test (r : regex) (s : jsstring) : bool :=
  match exec r s with Some _ => true | None => false end.

Declare Scope regex_scope.
Delimit Scope regex_scope with regex.
Bind Scope regex_scope with regex.
Notation "a ;; b" := (Seq a b) (at level 61, right associativity) : regex_scope.
Notation "a || b" := (Alt a b) : regex_scope.

Definition Plus (p : N -> bool) : regex := Rep p 1 None.
Definition Star (p : N -> bool) : regex := Rep p 0 None.
Definition AtLeast (n : nat) (p : N -> bool) : regex := Rep p n None.
Definition Between (lo hi : nat) (p : N -> bool) : regex := Rep p lo (Some hi).
Definition isChar (a : ascii) : N -> bool := fun c => N.eqb c (ch a).
Definition notChar (a : ascii) : N -> bool := fun c => negb (N.eqb c (ch a)).
Definition Lit (a : ascii) : regex := Chr (ch a).



(** The pattern table of the source. *)
Module PATTERNS.
(** "/^\d+\.\s+(.+)$/" *)
Definition ordered : regex :=
  (Plus isDigit ;; Lit "." ;; Plus isSpace ;; Grp 1 (Plus isDot) ;; Eos)%regex.
(** "/^[-*+]\s+(.+)$/" *)
Definition unordered : regex :=
  (Cls (fun c => isChar "-" c || isChar "*" c || isChar "+" c)%bool ;;
   Plus isSpace ;; Grp 1 (Plus isDot) ;; Eos)%regex.
(** "/^(#{1,6})\s+(.+)$/" *)
Definition heading : regex :=
  (Grp 1 (Between 1 6 (isChar "#")) ;; Plus isSpace ;; Grp 2 (Plus isDot) ;; Eos)%regex.
(** "/^(-{3,}|\*{3,}|_{3,})$/" *)
Definition hr : regex :=
  (Grp 1 (AtLeast 3 (isChar "-") || AtLeast 3 (isChar "*") || AtLeast 3 (isChar "_")) ;; Eos)%regex.
(** "/^```/" *)
Definition codeBlockStart : regex :=
  (Lit "`" ;; Lit "`" ;; Lit "`")%regex.
End PATTERNS.

(** ** Outcomes and loops *)

Inductive error : Type :=
| TypeError        (* a property is read from [undefined] *)
| UndefinedValue   (* a capture group that did not take part is used as a string *)
| OutOfFuel.       (* the loop was cut off: not a behaviour of the program *)

Inductive result (A : Type) : Type :=
| Ok (a : A)
| Err (e : error).
Arguments Ok {A} a.
Arguments Err {A} e.

Definition bind {A B : Type} (m : result A) (f : A -> result B) : result B :=
  match m with
  | Ok a => f a
  | Err e => Err e
  end.

Notation "x <- m ;; k" := (bind m (fun x => k))
  (at level 61, m at next level, right associativity).
Notation "' p <- m ;; k" := (bind m (fun x => let 'p := x in k))
  (at level 61, p pattern, m at next level, right associativity).

(** What one run of a loop body decides. *)
Inductive flow (S : Type) : Type :=
| Continue (s : S)
| Break (s : S).
Arguments Continue {S} s.
Arguments Break {S} s.

(** [while (cond) { body }] over the loop's variables [s]. *)
Fixpoint while {S : Type} (fuel : nat) (cond : S -> bool)
    (body : S -> result (flow S)) (s : S) : result S :=
  if cond s then
    match fuel with
    | 0 => Err OutOfFuel
    | Datatypes.S fuel' =>
        f <- body s ;;
        match f with
        | Continue s' => while fuel' cond body s'
        | Break s' => Ok s'
        end
    end
  else Ok s.

(** [lines[i]] where a method is called on the element. *)
Definition get (lines : list jsstring) (i : nat) : result jsstring :=
  match nth_error lines i with
  | Some l => Ok l
  | None => Err TypeError
  end.

(** [m[n]] used as a string. *)
Definition cap (m : matchResult) (n : nat) : result jsstring :=
  match group m n with
  | Some w => Ok w
  | None => Err UndefinedValue
  end.

(** ** Nodes *)

Inductive inline : Type :=
| Text (content : jsstring)
| Bold (content : jsstring)
| Italic (content : jsstring)
| Strike (content : jsstring)
| Code (content : jsstring)
| Link (text href : jsstring)
| Image (alt src : jsstring).

(** [{type: 'list', ordered, items}] and [{type: 'listitem', children,
    nestedList}]; [nestedList] is [None] when the property is [null] or
    absent. *)
Inductive listNode : Type :=
| ListNode (ordered : bool) (items : list listItem)
with listItem : Type :=
| ListItem (children : list inline) (nestedList : option listNode).

Inductive block : Type :=
| Heading (level : nat) (children : list inline)
| Paragraph (children : list inline)
| Hr
| CodeBlock (language content : jsstring)
| Blockquote (children : list inline)
| BList (l : listNode).

Definition ordered (l : listNode) : bool :=
  match l with ListNode o _ => o end.
Definition items (l : listNode) : list listItem :=
  match l with ListNode _ its => its end.
Definition children (it : listItem) : list inline :=
  match it with ListItem c _ => c end.
Definition nestedList (it : listItem) : option listNode :=
  match it with ListItem _ n => n end.

(** ** Inline tokenizer *)

Definition isText (t : inline) : bool :=
  match t with Text _ => true | _ => false end.

(** The rule table of [parseInline]: pattern and handler, in priority order. *)
Definition rules : list (regex * (matchResult -> result inline)) :=
  [ (* rule 1, image: ^ ! \[ ( [^\]] zero or more times ) \] \( ( [^)]+ ) \) *)
    ((Lit "!" ;; Lit "[" ;; Grp 1 (Star (notChar "]")) ;; Lit "]" ;;
      Lit "(" ;; Grp 2 (Plus (notChar ")")) ;; Lit ")")%regex,
     fun m => alt <- cap m 1 ;; src <- cap m 2 ;; Ok (Image alt src));
    (* "/^\[([^\]]+)\]\(([^)]+)\)/" *)
    ((Lit "[" ;; Grp 1 (Plus (notChar "]")) ;; Lit "]" ;;
      Lit "(" ;; Grp 2 (Plus (notChar ")")) ;; Lit ")")%regex,
     fun m => text <- cap m 1 ;; href <- cap m 2 ;; Ok (Link text href));
    (* "/^`([^`]+)`/" *)
    ((Lit "`" ;; Grp 1 (Plus (notChar "`")) ;; Lit "`")%regex,
     fun m => c <- cap m 1 ;; Ok (Code c));
    (* "/^(\*\*|__)([^*_]+)\1/" *)
    ((Grp 1 ((Lit "*" ;; Lit "*") || (Lit "_" ;; Lit "_")) ;;
      Grp 2 (Plus (fun c => notChar "*" c && notChar "_" c)%bool) ;; Bref 1)%regex,
     fun m => c <- cap m 2 ;; Ok (Bold c));
    (* "/^(\*|_)([^*_]+)\1/" *)
    ((Grp 1 (Lit "*" || Lit "_") ;;
      Grp 2 (Plus (fun c => notChar "*" c && notChar "_" c)%bool) ;; Bref 1)%regex,
     fun m => c <- cap m 2 ;; Ok (Italic c));
    (* "/^~~([^~]+)~~/" *)
    ((Lit "~" ;; Lit "~" ;; Grp 1 (Plus (notChar "~")) ;; Lit "~" ;; Lit "~")%regex,
     fun m => c <- cap m 1 ;; Ok (Strike c)) ].

(** "/[`*_~!\[]/" *)
Definition isSpecial (c : N) : bool :=
  (isChar "`" c || isChar "*" c || isChar "_" c || isChar "~" c
   || isChar "!" c || isChar "[" c)%bool.

(** The [for ... of rules] loop: the token and the new [remaining] of the
    first rule whose pattern matches, if any ([matched]). *)
Fixpoint firstRule (rs : list (regex * (matchResult -> result inline)))
    (remaining : jsstring) : option (result inline * jsstring) :=
  match rs with
  | [] => None
  | (pattern, handler) :: rs' =>
      match exec pattern remaining with
      | Some m => Some (handler m, skipn (length (whole m)) remaining)
      | None => firstRule rs' remaining
      end
  end.

(** One run of the body of the [while (remaining.length > 0)] loop. *)
Definition inlineStep (st : list inline * jsstring)
    : result (flow (list inline * jsstring)) :=
  let '(tokens, remaining) := st in
  match firstRule rules remaining with
  | Some (token, rest) =>
      t <- token ;;
      Ok (Continue (tokens ++ [t], rest))
  | None =>
      let nextSpecial := search isSpecial remaining in
      let len :=
        if (nextSpecial =? -1)%Z then length remaining
        else if (nextSpecial =? 0)%Z then 1
        else Z.to_nat nextSpecial in
      Ok (Continue (tokens ++ [Text (firstn len remaining)], skipn len remaining))
  end.

(** [acc[acc.length - 1]] *)
Definition lastOf (acc : list inline) : option inline :=
  nth_error acc (length acc - 1).

(** The reducer that merges a text token into a preceding text node. *)
Definition mergeToken (acc : list inline) (token : inline) : list inline :=
  match token, lastOf acc with
  | Text c, Some (Text c0) => removelast acc ++ [Text (c0 ++ c)]
  | _, _ => acc ++ [token]
  end.

(** [remaining.length > 0] *)
Definition hasRemaining (st : list inline * jsstring) : bool :=
  negb (isEmpty (snd st)).

Definition parseInline (text : jsstring) : result (list inline) :=
  if isEmpty text then Ok [Text []]
  else
    '(tokens, _) <- while (length text) hasRemaining inlineStep ([], text) ;;
    Ok (fold_left mergeToken tokens []).

(** ** Block scanner *)

(** The loop condition [i < lines.length], for loops over [(collected, i)]. *)
Definition inRange {S : Type} (lines : list jsstring) (st : S * nat) : bool :=
  snd st <? length lines.

(** [i < lines.length && !PATTERNS.codeBlockStart.test(lines[i].trim())] *)
Definition codeCond (lines : list jsstring) (st : list jsstring * nat) : bool :=
  let '(_, i) := st in
  match nth_error lines i with
  | Some l => negb (test PATTERNS.codeBlockStart (trim l))
  | None => false
  end.

Definition codeBody (lines : list jsstring) (st : list jsstring * nat)
    : result (flow (list jsstring * nat)) :=
  let '(codeLines, i) := st in
  l <- get lines i ;;
  Ok (Continue (codeLines ++ [l], i + 1)).

Definition parseCodeBlock (lines : list jsstring) (startIndex : nat)
    : result (option block * nat) :=
  first <- get lines startIndex ;;
  let language := trim (skipn 3 (trim first)) in
  '(codeLines, i) <-
    while (length lines) (codeCond lines) (codeBody lines) ([], startIndex + 1) ;;
  Ok (Some (CodeBlock language (join LF codeLines)), i + 1).

Definition quoteBody (lines : list jsstring) (st : list jsstring * nat)
    : result (flow (list jsstring * nat)) :=
  let '(quoteLines, i) := st in
  l <- get lines i ;;
  let line := trim l in
  if startsWith (str ">") line then
    Ok (Continue (quoteLines ++ [trim (skipn 1 line)], i + 1))
  else if isEmpty line && (i + 1 <? length lines) then
    next <- get lines (i + 1) ;;
    if startsWith (str ">") (trim next) then
      Ok (Continue (quoteLines ++ [[]], i + 1))
    else Ok (Break (quoteLines, i))
  else Ok (Break (quoteLines, i)).

Definition parseBlockquote (lines : list jsstring) (startIndex : nat)
    : result (option block * nat) :=
  '(quoteLines, i) <-
    while (length lines) (inRange lines) (quoteBody lines) ([], startIndex) ;;
  children <- parseInline (join LF quoteLines) ;;
  Ok (Some (Blockquote children), i).

(** [peekNextNonEmpty(lines, index, ...patterns)] *)
Definition peekNextNonEmpty (lines : list jsstring) (index : nat)
    (patterns : list regex) : result bool :=
  if length lines <=? index + 1 then Ok false
  else
    l <- get lines (index + 1) ;;
    let nextLine := trim l in
    Ok (existsb (fun p => test p nextLine) patterns).

(** The inner loop of [parseList]: the run of nested items after an item. *)
Definition nestedBody (lines : list jsstring) (nestedPattern mainPattern : regex)
    (st : list listItem * nat) : result (flow (list listItem * nat)) :=
  let '(nestedItems, i) := st in
  l <- get lines i ;;
  let nextLine := trim l in
  match exec nestedPattern nextLine with
  | Some nestedMatch =>
      label <- cap nestedMatch 1 ;;
      children <- parseInline label ;;
      Ok (Continue (nestedItems ++ [ListItem children None], i + 1))
  | None =>
      if isEmpty nextLine then
        peek <- peekNextNonEmpty lines i [nestedPattern; mainPattern] ;;
        if peek then Ok (Continue (nestedItems, i + 1))
        else Ok (Break (nestedItems, i))
      else Ok (Break (nestedItems, i))
  end.

(** The outer loop of [parseList]. *)
Definition listBody (lines : list jsstring) (isOrdered : bool)
    (st : list listItem * nat) : result (flow (list listItem * nat)) :=
  let mainPattern := if isOrdered then PATTERNS.ordered else PATTERNS.unordered in
  let '(items, i) := st in
  l <- get lines i ;;
  let line := trim l in
  match exec mainPattern line with
  | Some m =>
      label <- cap m 1 ;;
      children <- parseInline label ;;
      let i := i + 1 in
      let nestedPattern :=
        if isOrdered then PATTERNS.unordered else PATTERNS.ordered in
      '(nestedItems, i) <-
        while (length lines) (inRange lines)
          (nestedBody lines nestedPattern mainPattern) ([], i) ;;
      let nestedList :=
        if 0 <? length nestedItems
        then Some (ListNode (negb isOrdered) nestedItems)
        else None in
      Ok (Continue (items ++ [ListItem children nestedList], i))
  | None =>
      if isEmpty line then
        peek <- peekNextNonEmpty lines i [mainPattern] ;;
        if peek then Ok (Continue (items, i + 1))
        else Ok (Break (items, i))
      else Ok (Break (items, i))
  end.

Definition parseList (lines : list jsstring) (startIndex : nat)
    : result (option block * nat) :=
  first <- get lines startIndex ;;
  let firstLine := trim first in
  let isOrdered := test PATTERNS.ordered firstLine in
  '(items, i) <-
    while (length lines) (inRange lines) (listBody lines isOrdered)
      ([], startIndex) ;;
  Ok (Some (BList (ListNode isOrdered items)), i).

Definition parseLine (lines : list jsstring) (index : nat)
    : result (option block * nat) :=
  l <- get lines index ;;
  let line := trim l in
  if isEmpty line then Ok (None, index + 1)
  else if test PATTERNS.codeBlockStart line then parseCodeBlock lines index
  else
    match exec PATTERNS.heading line with
    | Some headingMatch =>
        hashes <- cap headingMatch 1 ;;
        label <- cap headingMatch 2 ;;
        children <- parseInline label ;;
        Ok (Some (Heading (length hashes) children), index + 1)
    | None =>
        if test PATTERNS.hr line then Ok (Some Hr, index + 1)
        else if startsWith (str ">") line then parseBlockquote lines index
        else if test PATTERNS.ordered line || test PATTERNS.unordered line
        then parseList lines index
        else
          children <- parseInline line ;;
          Ok (Some (Paragraph children), index + 1)
    end.

(** The body of the loop of [parseMarkdown]. *)
Definition documentBody (lines : list jsstring) (st : list block * nat)
    : result (flow (list block * nat)) :=
  let '(nodes, i) := st in
  '(node, nextIndex) <- parseLine lines i ;;
  let nodes := match node with Some n => nodes ++ [n] | None => nodes end in
  Ok (Continue (nodes, nextIndex)).

Definition parseMarkdown (text : jsstring) : result (list block) :=
  let lines := split LF text in
  '(nodes, _) <-
    while (length lines) (inRange lines) (documentBody lines) ([], 0) ;;
  Ok nodes.

(** A document given line by line. *)
Definition doc (ls : list string) : jsstring := join LF (map str ls).

(** * Specification vocabulary *)

(** [Matches r cs w rest cs']: with captures [cs], pattern [r] can match the
    word [w] in front of [rest], leaving captures [cs']. *)
Inductive Matches : regex -> captures -> jsstring -> jsstring -> captures -> Prop :=
| MChr c cs rest : Matches (Chr c) cs [c] rest cs
| MCls (p : N -> bool) c cs rest :
    p c = true -> Matches (Cls p) cs [c] rest cs
| MRep (p : N -> bool) lo hi w cs rest :
    forallb p w = true -> lo <= length w ->
    (forall h, hi = Some h -> length w <= h) ->
    Matches (Rep p lo hi) cs w rest cs
| MSeq r1 r2 cs w1 cs1 w2 rest cs2 :
    Matches r1 cs w1 (w2 ++ rest) cs1 -> Matches r2 cs1 w2 rest cs2 ->
    Matches (Seq r1 r2) cs (w1 ++ w2) rest cs2
| MAltL r1 r2 cs w rest cs' :
    Matches r1 cs w rest cs' -> Matches (Alt r1 r2) cs w rest cs'
| MAltR r1 r2 cs w rest cs' :
    Matches r2 cs w rest cs' -> Matches (Alt r1 r2) cs w rest cs'
| MGrp n r cs w rest cs' :
    Matches r cs w rest cs' -> Matches (Grp n r) cs w rest (setCapture n w cs')
| MBrefSet n cs w rest :
    cs n = Some w -> Matches (Bref n) cs w rest cs
| MBrefUnset n cs rest :
    cs n = None -> Matches (Bref n) cs [] rest cs
| MEos cs : Matches Eos cs [] [] cs.

(** The literal content or label of an inline node. *)
Definition visible (t : inline) : jsstring :=
  match t with
  | Text c | Bold c | Italic c | Strike c | Code c => c
  | Link text _ => text
  | Image alt _ => alt
  end.

(** The markup a rule strips around the literal content of its node: the
    opening and the closing delimiter (for a link or an image the closing
    one holds the target). *)
Definition delimiters (t : inline) : list (jsstring * jsstring) :=
  match t with
  | Text _ => [([], [])]
  | Bold _ => [(str "**", str "**"); (str "__", str "__")]
  | Italic _ => [(str "*", str "*"); (str "_", str "_")]
  | Strike _ => [(str "~~", str "~~")]
  | Code _ => [(str "`", str "`")]
  | Link _ href => [(str "[", str "](" ++ href ++ str ")")]
  | Image _ src => [(str "![", str "](" ++ src ++ str ")")]
  end.

(** [covers t w]: the piece [w] of the input is the literal content of node
    [t] between the delimiters of its rule. *)
Definition covers (t : inline) (w : jsstring) : Prop :=
  exists opening closing,
    In (opening, closing) (delimiters t) /\ w = opening ++ visible t ++ closing.

(** [tiles ts w]: the nodes [ts] cover [w] piece by piece, in order, with
    no gap and no overlap. *)
Definition tiles (ts : list inline) (w : jsstring) : Prop :=
  exists pieces, Forall2 covers ts pieces /\ concat pieces = w.

(** No two neighbours of a children sequence are both text nodes. *)
Fixpoint noAdjacentText (ts : list inline) : bool :=
  match ts with
  | [] => true
  | a :: rest =>
      match rest with
      | b :: _ => negb (isText a && isText b)
      | [] => true
      end && noAdjacentText rest
  end.

(** What every children sequence built by [parseInline] satisfies. *)
Definition goodChildren (nodes : list inline) : Prop :=
  noAdjacentText nodes = true /\ nodes <> [].

(** An item of a nested list: no list below it. *)
Definition nestedItemOk (it : listItem) : Prop :=
  goodChildren (children it) /\ nestedList it = None.

(** An item of a list whose flag is [o]. *)
Definition itemOk (o : bool) (it : listItem) : Prop :=
  goodChildren (children it) /\
  match nestedList it with
  | None => True
  | Some nl =>
      ordered nl = negb o /\ items nl <> [] /\ Forall nestedItemOk (items nl)
  end.

Definition blockOk (b : block) : Prop :=
  match b with
  | Heading level ch => goodChildren ch /\ 1 <= level <= 6
  | Paragraph ch => goodChildren ch
  | Blockquote ch => goodChildren ch
  | BList l => Forall (itemOk (ordered l)) (items l)
  | Hr | CodeBlock _ _ => True
  end.

(** What [peekNextNonEmpty] answers. *)
Definition peek (lines : list jsstring) (index : nat) (patterns : list regex) : bool :=
  match nth_error lines (index + 1) with
  | Some l => existsb (fun p => test p (trim l)) patterns
  | None => false
  end.

Definition mainPat (o : bool) : regex :=
  if o then PATTERNS.ordered else PATTERNS.unordered.
Definition nestedPat (o : bool) : regex :=
  if o then PATTERNS.unordered else PATTERNS.ordered.

(** The lines the inner loop of a list with flag [o] passes: nested marker
    lines, and blank lines right before a marker line. *)
Definition nestedCont (lines : list jsstring) (o : bool) (k : nat) : bool :=
  match nth_error lines k with
  | Some l =>
      test (nestedPat o) (trim l)
      || (isEmpty (trim l) && peek lines k [nestedPat o; mainPat o])
  | None => false
  end.

Definition mainLine (lines : list jsstring) (o : bool) (k : nat) : bool :=
  match nth_error lines k with
  | Some l => test (mainPat o) (trim l)
  | None => false
  end.

(** Where the outer loop goes on: main marker lines and what the inner
    loop passes. *)
Definition continues (lines : list jsstring) (o : bool) (k : nat) : bool :=
  mainLine lines o k || nestedCont lines o k.

(** A line that carries a list marker, of either kind. *)
Definition listLine (l : jsstring) : bool :=
  test PATTERNS.ordered (trim l) || test PATTERNS.unordered (trim l).

(** A line at which list parsing goes on: a marker line, or a blank line
    right before a marker line. *)
Definition listGoesOn (lines : list jsstring) (k : nat) : bool :=
  match nth_error lines k with
  | Some l =>
      listLine l
      || (isEmpty (trim l)
          && match nth_error lines (k + 1) with
             | Some l' => listLine l'
             | None => false
             end)
  | None => false
  end.

(** [lines.slice(a, b)] *)
Definition slice (a b : nat) (lines : list jsstring) : list jsstring :=
  firstn (b - a) (skipn a lines).

Definition isFence (l : jsstring) : bool :=
  test PATTERNS.codeBlockStart (trim l).

(** Every children sequence of a block: its own, and those of the items of
    a list, at any depth. *)
Fixpoint childrenOfList (l : listNode) : list (list inline) :=
  match l with
  | ListNode _ its =>
      (fix each (its : list listItem) : list (list inline) :=
         match its with
         | [] => []
         | ListItem ch nl :: its' =>
             (ch :: match nl with
                    | Some l' => childrenOfList l'
                    | None => []
                    end) ++ each its'
         end) its
  end.

Definition childrenOf (b : block) : list (list inline) :=
  match b with
  | Heading _ ch | Paragraph ch | Blockquote ch => [ch]
  | BList l => childrenOfList l
  | Hr | CodeBlock _ _ => []
  end.

(** A list block nests at most one level, and the nested list has the
    opposite flag. *)
Definition oneLevel (b : block) : bool :=
  match b with
  | BList (ListNode o its) =>
      forallb
        (fun it =>
           match nestedList it with
           | None => true
           | Some nl =>
               Bool.eqb (ordered nl) (negb o)
               && forallb
                    (fun it' =>
                       match nestedList it' with
                       | None => true
                       | Some _ => false
                       end) (items nl)
           end) its
  | _ => true
  end.


(** [canonical t]: the content of [t] is what the rule of [t] lets through:
    not empty (the alt of an image may be) and free of the characters the
    rule's classes exclude; for a text node, not empty and without any of
    the special characters. *)
Definition canonical (t : inline) : bool :=
  match t with
  | Text c => negb (isEmpty c) && forallb (fun x => negb (isSpecial x)) c
  | Bold c | Italic c =>
      negb (isEmpty c) && forallb (fun x => notChar "*" x && notChar "_" x) c
  | Strike c => negb (isEmpty c) && forallb (notChar "~") c
  | Code c => negb (isEmpty c) && forallb (notChar "`") c
  | Link text href =>
      negb (isEmpty text) && forallb (notChar "]") text
      && (negb (isEmpty href) && forallb (notChar ")") href)
  | Image alt src =>
      forallb (notChar "]") alt
      && (negb (isEmpty src) && forallb (notChar ")") src)
  end.

(** What a node returned by [parseInline] for a non-empty string satisfies:
    a text node is not empty, any other node is canonical. *)
Definition wellFormed (t : inline) : bool :=
  match t with
  | Text c => negb (isEmpty c)
  | _ => canonical t
  end.

(** The patterns of the rule table, by name. *)
Definition imagePattern : regex :=
  (Lit "!" ;; Lit "[" ;; Grp 1 (Star (notChar "]")) ;; Lit "]" ;;
   Lit "(" ;; Grp 2 (Plus (notChar ")")) ;; Lit ")")%regex.
Definition linkPattern : regex :=
  (Lit "[" ;; Grp 1 (Plus (notChar "]")) ;; Lit "]" ;;
   Lit "(" ;; Grp 2 (Plus (notChar ")")) ;; Lit ")")%regex.
Definition codePattern : regex :=
  (Lit "`" ;; Grp 1 (Plus (notChar "`")) ;; Lit "`")%regex.
Definition boldPattern : regex :=
  (Grp 1 ((Lit "*" ;; Lit "*") || (Lit "_" ;; Lit "_")) ;;
   Grp 2 (Plus (fun c => notChar "*" c && notChar "_" c)%bool) ;; Bref 1)%regex.
Definition italicPattern : regex :=
  (Grp 1 (Lit "*" || Lit "_") ;;
   Grp 2 (Plus (fun c => notChar "*" c && notChar "_" c)%bool) ;; Bref 1)%regex.
Definition strikePattern : regex :=
  (Lit "~" ;; Lit "~" ;; Grp 1 (Plus (notChar "~")) ;; Lit "~" ;; Lit "~")%regex.

(** The input after a greedy run of [p] cannot extend the run. *)
Definition stops (p : N -> bool) (rest : jsstring) : Prop :=
  match rest with
  | [] => True
  | c :: _ => p c = false
  end.

Definition anyRest (rest : jsstring) : Prop := True.

(** [Takes r cs w cs' ok]: in front of any [rest] that satisfies [ok], the
    first thing the matcher tries for [r] is to match [w], leaving captures
    [cs']; if the continuation accepts that, it is the result. *)
Definition Takes (r : regex) (cs : captures) (w : jsstring) (cs' : captures)
    (ok : jsstring -> Prop) : Prop :=
  forall rest k res,
    ok rest -> k rest cs' = Some res -> rmatch r (w ++ rest) cs k = Some res.

(** What may follow a text piece: nothing, or a special character. *)
Definition afterText (r : jsstring) : Prop :=
  match r with
  | [] => True
  | d :: _ => isSpecial d = true
  end.

(** A run of at least three copies of the character [a], and nothing else. *)
Definition isRun (a : ascii) (s : jsstring) : bool :=
  (3 <=? length s) && forallb (isChar a) s.

(** The lines of a thematic break. *)
Definition isRule (s : jsstring) : bool :=
  isRun "-" s || isRun "*" s || isRun "_" s.

(** The three parts of a heading line: one to six hashes, white space, and a
    label on one line that begins with a character that is not white space. *)
Definition headingParts (hashes ws label : jsstring) : bool :=
  forallb (isChar "#") hashes && (1 <=? length hashes) && (length hashes <=? 6)
  && forallb isSpace ws && negb (isEmpty ws)
  && forallb isDot label
  && match label with c :: _ => negb (isSpace c) | [] => false end.

(** A line of a quotation: trimmed, it starts with the quote marker. *)
Definition quoteLine (l : jsstring) : bool := startsWith (str ">") (trim l).

(** A line at which a quotation goes on: a quote line, or a blank line
    right before a quote line. *)
Definition quoteGoesOn (lines : list jsstring) (k : nat) : bool :=
  match nth_error lines k with
  | Some l =>
      quoteLine l
      || (isEmpty (trim l)
          && match nth_error lines (k + 1) with
             | Some l' => quoteLine l'
             | None => false
             end)
  | None => false
  end.

(** What a line inside a quotation contributes to its text: what follows
    the marker, trimmed; nothing for a blank line. *)
Definition quoteText (l : jsstring) : jsstring :=
  if quoteLine l then trim (skipn 1 (trim l)) else [].

(** The lines that are not blank: something is left of them after trimming. *)
Definition nonBlank (lines : list jsstring) : list jsstring :=
  filter (fun l => negb (isEmpty (trim l))) lines.

(** Two lines that differ in leading and trailing white space only. *)
Definition sameTrim (a b : jsstring) : Prop := trim a = trim b.

(** A string without a line feed: one line of a document. *)
Definition oneLine (l : jsstring) : bool := forallb (fun c => negb (N.eqb c LF)) l.

(** The marker of a list line: for an ordered list the digits [mark] and a
    dot, for an unordered one the bullet [mark]. *)
Definition markerOf (o : bool) (mark : jsstring) : jsstring :=
  if o then mark ++ str "." else mark.

(** The three parts of a list line: the marker, white space, and a label on
    one line that begins with a character that is not white space. *)
Definition itemParts (o : bool) (mark ws label : jsstring) : bool :=
  (if o then negb (isEmpty mark) && forallb isDigit mark
   else match mark with
        | [c] => isChar "-" c || isChar "*" c || isChar "+" c
        | _ => false
        end)
  && forallb isSpace ws && negb (isEmpty ws)
  && forallb isDot label
  && match label with c :: _ => negb (isSpace c) | [] => false end.

(** The shape of a block: a heading has a level from 1 to 6, a list has an
    item, and so has every nested list. *)
Definition wellShaped (b : block) : bool :=
  match b with
  | Heading level _ => (1 <=? level) && (level <=? 6)
  | BList l =>
      (0 <? length (items l))
      && forallb (fun it => match nestedList it with
                            | Some nl => 0 <? length (items nl)
                            | None => true
                            end) (items l)
  | _ => true
  end.

(** [itemLine o l label]: trimmed, the line [l] is the marker of a list with
    flag [o], white space, and [label]. *)
Definition itemLine (o : bool) (l label : jsstring) : Prop :=
  exists mark ws,
    trim l = markerOf o mark ++ ws ++ label /\ itemParts o mark ws label = true.

(** A list as it is written, on two levels: for each item its line and its
    label, and the lines and labels of the nested items below it. *)
Definition entry : Type := ((jsstring * jsstring) * list (jsstring * jsstring))%type.

Definition entryLines (e : entry) : list jsstring :=
  fst (fst e) :: map fst (snd e).

Definition entryOk (o : bool) (e : entry) : Prop :=
  itemLine o (fst (fst e)) (snd (fst e)) /\
  Forall (fun n => itemLine (negb o) (fst n) (snd n)) (snd e).

(** The item that is read from a nested line, and from an entry. *)
Definition nestedOf (n : jsstring * jsstring) (it : listItem) : Prop :=
  parseInline (snd n) = Ok (children it) /\ nestedList it = None.

Definition itemOf (o : bool) (e : entry) (it : listItem) : Prop :=
  parseInline (snd (fst e)) = Ok (children it) /\
  match snd e with
  | [] => nestedList it = None
  | _ :: _ =>
      exists nested,
        nestedList it = Some (ListNode (negb o) nested) /\
        Forall2 nestedOf (snd e) nested
  end.

(** [Runs cond body s r]: the loop started in [s] ends in [r], by its
    condition or by a break; no fuel is counted. *)
Inductive Runs {S : Type} (cond : S -> bool) (body : S -> result (flow S))
    : S -> S -> Prop :=
| RunsDone s : cond s = false -> Runs cond body s s
| RunsBreak s r : cond s = true -> body s = Ok (Break r) -> Runs cond body s r
| RunsStep s s' r :
    cond s = true -> body s = Ok (Continue s') -> Runs cond body s' r ->
    Runs cond body s r.

(** [Steps cond body s s']: some runs of the body lead from [s] to [s']. *)
Inductive Steps {S : Type} (cond : S -> bool) (body : S -> result (flow S))
    : S -> S -> Prop :=
| StepsRefl s : Steps cond body s s
| StepsStep s s' r :
    cond s = true -> body s = Ok (Continue s') -> Steps cond body s' r ->
    Steps cond body s r.

(** The state, the outcome of a body and the outcome of a block function
    when [n] lines are put in front of the lines, and the nodes collected so
    far are changed by [f]. *)
Definition shiftSt {A : Type} (f : A -> A) (n : nat) (s : A * nat) : A * nat :=
  (f (fst s), n + snd s).

Definition shiftFlow {A : Type} (f : A -> A) (n : nat)
    (r : result (flow (A * nat))) : result (flow (A * nat)) :=
  match r with
  | Ok (Continue s) => Ok (Continue (shiftSt f n s))
  | Ok (Break s) => Ok (Break (shiftSt f n s))
  | Err e => Err e
  end.

Definition shiftOut {A : Type} (n : nat) (r : result (A * nat)) : result (A * nat) :=
  match r with
  | Ok (a, j) => Ok (a, n + j)
  | Err e => Err e
  end.

(** * The earlier revision *)

(** The earlier revision of the component. Its tokenizer has the same
    patterns, tried one after the other by a cascade of [if (match) { ...;
    continue; }], and the plain-text fallback written out in three cases.
    Its block scanner has one function for each kind of list, without
    nesting, and enters them on a test of the marker alone. *)
Module Earlier.

(** [remaining[0]] used as a string. *)
Definition charAt0 (s : jsstring) : result jsstring :=
  match s with
  | c :: _ => Ok [c]
  | [] => Err UndefinedValue
  end.

(** One run of the body of the [while (remaining.length > 0)] loop. *)
Definition inlineStep (st : list inline * jsstring)
    : result (flow (list inline * jsstring)) :=
  let '(tokens, remaining) := st in
  match exec imagePattern remaining with
  | Some imgMatch =>
      alt <- cap imgMatch 1 ;;
      src <- cap imgMatch 2 ;;
      Ok (Continue (tokens ++ [Image alt src],
                    skipn (length (whole imgMatch)) remaining))
  | None =>
  match exec linkPattern remaining with
  | Some linkMatch =>
      text <- cap linkMatch 1 ;;
      href <- cap linkMatch 2 ;;
      Ok (Continue (tokens ++ [Link text href],
                    skipn (length (whole linkMatch)) remaining))
  | None =>
  match exec codePattern remaining with
  | Some codeMatch =>
      content <- cap codeMatch 1 ;;
      Ok (Continue (tokens ++ [Code content],
                    skipn (length (whole codeMatch)) remaining))
  | None =>
  match exec boldPattern remaining with
  | Some boldMatch =>
      content <- cap boldMatch 2 ;;
      Ok (Continue (tokens ++ [Bold content],
                    skipn (length (whole boldMatch)) remaining))
  | None =>
  match exec italicPattern remaining with
  | Some italicMatch =>
      content <- cap italicMatch 2 ;;
      Ok (Continue (tokens ++ [Italic content],
                    skipn (length (whole italicMatch)) remaining))
  | None =>
  match exec strikePattern remaining with
  | Some strikeMatch =>
      content <- cap strikeMatch 1 ;;
      Ok (Continue (tokens ++ [Strike content],
                    skipn (length (whole strikeMatch)) remaining))
  | None =>
      let nextSpecial := search isSpecial remaining in
      if (nextSpecial =? -1)%Z then
        Ok (Continue (tokens ++ [Text remaining], []))
      else if (nextSpecial =? 0)%Z then
        first <- charAt0 remaining ;;
        Ok (Continue (tokens ++ [Text first], skipn 1 remaining))
      else
        Ok (Continue (tokens ++ [Text (firstn (Z.to_nat nextSpecial) remaining)],
                      skipn (Z.to_nat nextSpecial) remaining))
  end end end end end end.

(** The merge loop appends to the last node of [merged] or pushes, as
    [mergeToken] does; an empty result is replaced by one empty text node. *)
Definition parseInline (text : jsstring) : result (list inline) :=
  if isEmpty text then Ok [Text []]
  else
    '(tokens, _) <- while (length text) hasRemaining inlineStep ([], text) ;;
    let merged := fold_left mergeToken tokens [] in
    Ok (if 0 <? length merged then merged else [Text []]).

(** "/^[-*+]\s+/" *)
Definition unorderedStart : regex :=
  (Cls (fun c => isChar "-" c || isChar "*" c || isChar "+" c)%bool ;;
   Plus isSpace)%regex.
(** "/^\d+\.\s+/" *)
Definition orderedStart : regex :=
  (Plus isDigit ;; Lit "." ;; Plus isSpace)%regex.

Definition codeBody (lines : list jsstring) (st : list jsstring * nat)
    : result (flow (list jsstring * nat)) :=
  let '(codeLines, i) := st in
  line <- get lines i ;;
  if startsWith (str "```") (trim line) then Ok (Break (codeLines, i))
  else Ok (Continue (codeLines ++ [line], i + 1)).

Definition parseCodeBlock (lines : list jsstring) (startIndex : nat)
    : result (option block * nat) :=
  first <- get lines startIndex ;;
  let firstLine := trim first in
  let language := trim (skipn 3 firstLine) in
  '(codeLines, i) <-
    while (length lines) (inRange lines) (codeBody lines) ([], startIndex + 1) ;;
  Ok (Some (CodeBlock language (join LF codeLines)), i + 1).

Definition quoteBody (lines : list jsstring) (st : list jsstring * nat)
    : result (flow (list jsstring * nat)) :=
  let '(quoteLines, i) := st in
  l <- get lines i ;;
  let line := trim l in
  if startsWith (str ">") line then
    Ok (Continue (quoteLines ++ [trim (skipn 1 line)], i + 1))
  else if isEmpty line then
    if i + 1 <? length lines then
      next <- get lines (i + 1) ;;
      if startsWith (str ">") (trim next) then
        Ok (Continue (quoteLines ++ [[]], i + 1))
      else Ok (Break (quoteLines, i))
    else Ok (Break (quoteLines, i))
  else Ok (Break (quoteLines, i)).

Definition parseBlockquote (lines : list jsstring) (startIndex : nat)
    : result (option block * nat) :=
  '(quoteLines, i) <-
    while (length lines) (inRange lines) (quoteBody lines) ([], startIndex) ;;
  children <- parseInline (join LF quoteLines) ;;
  Ok (Some (Blockquote children), i).

(** The loop of [parseUnorderedList] and of [parseOrderedList], which differ
    in their two patterns only: the pattern of an item, and the test of the
    line after a blank line. The items have no [nestedList]. *)
Definition listBody (lines : list jsstring) (itemPattern startPattern : regex)
    (st : list listItem * nat) : result (flow (list listItem * nat)) :=
  let '(items, i) := st in
  l <- get lines i ;;
  let line := trim l in
  match exec itemPattern line with
  | Some m =>
      label <- cap m 1 ;;
      children <- parseInline label ;;
      Ok (Continue (items ++ [ListItem children None], i + 1))
  | None =>
      if isEmpty line then
        if i + 1 <? length lines then
          next <- get lines (i + 1) ;;
          if test startPattern (trim next) then Ok (Continue (items, i + 1))
          else Ok (Break (items, i))
        else Ok (Break (items, i))
      else Ok (Break (items, i))
  end.

Definition parseUnorderedList (lines : list jsstring) (startIndex : nat)
    : result (option block * nat) :=
  '(items, i) <-
    while (length lines) (inRange lines)
      (listBody lines PATTERNS.unordered unorderedStart) ([], startIndex) ;;
  Ok (Some (BList (ListNode false items)), i).

Definition parseOrderedList (lines : list jsstring) (startIndex : nat)
    : result (option block * nat) :=
  '(items, i) <-
    while (length lines) (inRange lines)
      (listBody lines PATTERNS.ordered orderedStart) ([], startIndex) ;;
  Ok (Some (BList (ListNode true items)), i).

Definition parseLine (line : jsstring) (lines : list jsstring) (index : nat)
    : result (option block * nat) :=
  let trimmedLine := trim line in
  if isEmpty trimmedLine then Ok (None, index + 1)
  else if startsWith (str "```") trimmedLine then parseCodeBlock lines index
  else
    match exec PATTERNS.heading trimmedLine with
    | Some headingMatch =>
        hashes <- cap headingMatch 1 ;;
        text <- cap headingMatch 2 ;;
        children <- parseInline text ;;
        Ok (Some (Heading (length hashes) children), index + 1)
    | None =>
        if test PATTERNS.hr trimmedLine then Ok (Some Hr, index + 1)
        else if startsWith (str ">") trimmedLine then parseBlockquote lines index
        else if test unorderedStart trimmedLine then parseUnorderedList lines index
        else if test orderedStart trimmedLine then parseOrderedList lines index
        else
          children <- parseInline trimmedLine ;;
          Ok (Some (Paragraph children), index + 1)
    end.

(** The body of the loop of [parseMarkdown]. *)
Definition documentBody (lines : list jsstring) (st : list block * nat)
    : result (flow (list block * nat)) :=
  let '(nodes, i) := st in
  line <- get lines i ;;
  '(node, nextIndex) <- parseLine line lines i ;;
  let nodes := match node with Some n => nodes ++ [n] | None => nodes end in
  Ok (Continue (nodes, nextIndex)).

(** [parseMarkdown], which stores the nodes it returns here. No number of
    runs of its loop is enough for every text, so the fuel is a parameter. *)
Definition parseMarkdown (fuel : nat) (text : jsstring) : result (list block) :=
  if isEmpty text then Ok []
  else
    let lines := split LF text in
    '(nodes, _) <- while fuel (inRange lines) (documentBody lines) ([], 0) ;;
    Ok nodes.

End Earlier.

(** The test on which the earlier revision enters a list of flag [o]. *)
Definition startPat (o : bool) : regex :=
  if o then Earlier.orderedStart else Earlier.unorderedStart.

Definition parseListOf (o : bool) : list jsstring -> nat -> result (option block * nat) :=
  if o then Earlier.parseOrderedList else Earlier.parseUnorderedList.

(** * Properties *)

(** ** Loops *)

(** Hoare rule for [while] with a variant: from a state that satisfies the
    invariant, with fuel no less than the variant, the loop returns, and in a
    state that satisfies the postcondition. *)
Lemma while_rule {S : Type} (I Q : S -> Prop) (m : S -> nat)
    (cond : S -> bool) (body : S -> result (flow S)) :
  (forall s, I s -> cond s = false -> Q s) ->
  (forall s, I s -> cond s = true ->
     0 < m s /\
     exists f, body s = Ok f /\
       match f with
       | Continue s' => I s' /\ m s' < m s
       | Break s' => Q s'
       end) ->
  forall fuel s, I s -> m s <= fuel ->
  exists s', while fuel cond body s = Ok s' /\ Q s'.
Proof.
  intros Hexit Hbody fuel.
  induction fuel as [|fuel IH]; intros s HI Hm; simpl.
  - destruct (cond s) eqn:Hc.
    + destruct (Hbody s HI Hc) as [Hpos _]. lia.
    + exists s. auto.
  - destruct (cond s) eqn:Hc.
    + destruct (Hbody s HI Hc) as [_ [f [Hf Hcase]]].
      rewrite Hf. simpl. destruct f as [s'|s'].
      * destruct Hcase as [HI' Hlt]. apply IH; [assumption | lia].
      * exists s'. auto.
    + exists s. auto.
Qed.

(** ** Strings *)

Lemma startsWith_app (w s : jsstring) :
  startsWith w s = true -> s = w ++ skipn (length w) s.
Proof.
  revert s. induction w as [|x w IH]; intros [|y s]; simpl; try discriminate; auto.
  intros H. apply andb_true_iff in H. destruct H as [Hxy Hw].
  apply N.eqb_eq in Hxy. subst y. f_equal. auto.
Qed.

Lemma firstn_app_exact (w rest : jsstring) :
  firstn (length (w ++ rest) - length rest) (w ++ rest) = w.
Proof.
  rewrite length_app, Nat.add_sub.
  rewrite firstn_app, Nat.sub_diag, firstn_all. simpl. apply app_nil_r.
Qed.

Lemma skipn_app_exact (w rest : jsstring) :
  skipn (length w) (w ++ rest) = rest.
Proof.
  rewrite skipn_app, Nat.sub_diag, skipn_all. reflexivity.
Qed.

(** ** The matcher is sound for the declarative reading of a pattern *)

Lemma rep_sound {A : Type} (p : N -> bool) (s : jsstring) :
  forall lo hi (k : jsstring -> option A) res,
  rep p lo hi s k = Some res ->
  exists w rest, s = w ++ rest /\ forallb p w = true /\ lo <= length w /\
    (forall h, hi = Some h -> length w <= h) /\ k rest = Some res.
Proof.
  induction s as [|c s IH]; intros lo hi k res H; simpl in H.
  - destruct lo; [|discriminate].
    exists [], []. simpl. repeat split; auto; intros; lia.
  - assert (Hstop : match lo with 0 => k (c :: s) | S _ => None end = Some res ->
      exists w rest, c :: s = w ++ rest /\ forallb p w = true /\ lo <= length w /\
        (forall h, hi = Some h -> length w <= h) /\ k rest = Some res).
    { destruct lo; [|discriminate]. intros Hk.
      exists [], (c :: s). simpl. repeat split; auto; intros; lia. }
    destruct (p c && canRepeat hi) eqn:Hpc; [|auto].
    destruct (rep p (pred lo) (option_map pred hi) s k) as [r|] eqn:Hrec; [|auto].
    injection H as ->.
    apply andb_true_iff in Hpc. destruct Hpc as [Hp Hcan].
    destruct (IH _ _ _ _ Hrec) as [w [rest [-> [Hall [Hlo [Hhi Hk]]]]]].
    exists (c :: w), rest. simpl. rewrite Hp, Hall.
    repeat split; auto; [lia|].
    intros h ->. destruct h as [|h]; [discriminate|].
    specialize (Hhi h eq_refl). lia.
Qed.

Lemma rmatch_sound (r : regex) :
  forall s cs k res,
  rmatch r s cs k = Some res ->
  exists w rest cs', s = w ++ rest /\ Matches r cs w rest cs' /\ k rest cs' = Some res.
Proof.
  induction r as [c|p|p lo hi|r1 IH1 r2 IH2|r1 IH1 r2 IH2|n r IH|n|];
    intros s cs k res H; simpl in H.
  - destruct s as [|c' s]; [discriminate|].
    destruct (N.eqb c' c) eqn:E; [|discriminate].
    apply N.eqb_eq in E. subst c'.
    exists [c], s, cs. repeat split; auto. constructor.
  - destruct s as [|c' s]; [discriminate|].
    destruct (p c') eqn:E; [|discriminate].
    exists [c'], s, cs. repeat split; auto. constructor. exact E.
  - apply rep_sound in H. destruct H as [w [rest [-> [Hall [Hlo [Hhi Hk]]]]]].
    exists w, rest, cs. repeat split; auto. constructor; auto.
  - apply IH1 in H. destruct H as [w1 [rest1 [cs1 [-> [M1 H]]]]].
    apply IH2 in H. destruct H as [w2 [rest [cs2 [-> [M2 H]]]]].
    exists (w1 ++ w2), rest, cs2. rewrite app_assoc. repeat split; auto.
    econstructor; eauto.
  - destruct (rmatch r1 s cs k) as [x|] eqn:E1.
    + injection H as ->. apply IH1 in E1.
      destruct E1 as [w [rest [cs' [-> [M Hk]]]]].
      exists w, rest, cs'. repeat split; auto. apply MAltL. exact M.
    + apply IH2 in H. destruct H as [w [rest [cs' [-> [M Hk]]]]].
      exists w, rest, cs'. repeat split; auto. apply MAltR. exact M.
  - apply IH in H. destruct H as [w [rest [cs' [-> [M Hk]]]]].
    rewrite firstn_app_exact in Hk.
    exists w, rest, (setCapture n w cs'). repeat split; auto. constructor. exact M.
  - destruct (cs n) as [w|] eqn:E.
    + destruct (startsWith w s) eqn:Hsw; [|discriminate].
      exists w, (skipn (length w) s), cs. repeat split; auto.
      * apply startsWith_app. exact Hsw.
      * constructor. exact E.
    + exists [], s, cs. repeat split; auto. apply MBrefUnset. exact E.
  - destruct s; [|discriminate].
    exists [], [], cs. repeat split; auto. constructor.
Qed.

Lemma exec_sound (r : regex) (s : jsstring) (m : matchResult) :
  exec r s = Some m ->
  exists rest, s = whole m ++ rest /\ Matches r noCaptures (whole m) rest (group m).
Proof.
  unfold exec. intros H.
  destruct (rmatch r s noCaptures (fun s' cs => Some (s', cs))) as [[s' cs]|] eqn:E;
    [|discriminate].
  injection H as <-. simpl.
  apply rmatch_sound in E. destruct E as [w [rest [cs' [-> [M Hk]]]]].
  injection Hk as <- <-. rewrite firstn_app_exact. exists rest. auto.
Qed.

(** ** Inline tokenizer *)

Ltac inv_matches :=
  repeat match goal with
  | H : Matches (Seq _ _) _ _ _ _ |- _ => inversion H; clear H; subst
  | H : Matches (Alt _ _) _ _ _ _ |- _ => inversion H; clear H; subst
  | H : Matches (Grp _ _) _ _ _ _ |- _ => inversion H; clear H; subst
  | H : Matches (Chr _) _ _ _ _ |- _ => inversion H; clear H; subst
  | H : Matches (Cls _) _ _ _ _ |- _ => inversion H; clear H; subst
  | H : Matches (Rep _ _ _) _ _ _ _ |- _ => inversion H; clear H; subst
  | H : Matches Eos _ _ _ _ |- _ => inversion H; clear H; subst
  | H : Matches (Bref _) _ _ _ _ |- _ =>
      inversion H; clear H; subst;
      match goal with
      | E : _ = Some _ |- _ => cbv in E; injection E as <-
      | E : _ = None |- _ => cbv in E; discriminate E
      end
  end.

Lemma rules_sound pattern handler (s : jsstring) (m : matchResult) :
  In (pattern, handler) rules -> exec pattern s = Some m ->
  exists t, handler m = Ok t /\ covers t (whole m) /\ 0 < length (whole m).
Proof.
  intros Hin Hexec. apply exec_sound in Hexec.
  destruct Hexec as [rest [_ HM]]. destruct m as [w g]. simpl in HM |- *.
  simpl in Hin.
  repeat (destruct Hin as [Hin|Hin];
          [injection Hin as <- <-; unfold Lit, Plus, Star in HM; inv_matches;
           (cbn [bind cap group setCapture Nat.eqb];
            eexists; split; [reflexivity|]; split;
            [unfold covers; cbn [delimiters visible];
             do 2 eexists;
             first [ split; [left; reflexivity | reflexivity]
                   | split; [right; left; reflexivity | reflexivity] ]
            | repeat rewrite length_app; simpl; lia]) |]).
  contradiction.
Qed.

Lemma firstRule_sound rs (s : jsstring) tok rest :
  incl rs rules -> firstRule rs s = Some (tok, rest) ->
  exists t w, tok = Ok t /\ s = w ++ rest /\ covers t w /\ 0 < length w.
Proof.
  induction rs as [|[pattern handler] rs IH]; intros Hincl H; simpl in H.
  - discriminate.
  - destruct (exec pattern s) as [m|] eqn:E.
    + injection H as <- <-.
      assert (Hin : In (pattern, handler) rules) by (apply Hincl; left; reflexivity).
      destruct (rules_sound _ _ _ _ Hin E) as [t [Ht [Hcov Hlen]]].
      destruct (exec_sound _ _ _ E) as [rest0 [Hs _]].
      exists t, (whole m). rewrite Hs at 2. rewrite skipn_app_exact. auto.
    + apply IH; [|exact H]. intros x Hx. apply Hincl. right. exact Hx.
Qed.

Lemma search_range (p : N -> bool) (s : jsstring) :
  (-1 <= search p s < Z.of_nat (length s))%Z \/ (s = [] /\ search p s = -1)%Z.
Proof.
  induction s as [|c s IH]; simpl.
  - right. auto.
  - left. destruct (p c); [lia|].
    destruct (search p s =? -1)%Z eqn:E; [lia|].
    apply Z.eqb_neq in E. destruct IH as [IH|[_ IH]]; lia.
Qed.

Lemma covers_Text (c : jsstring) : covers (Text c) c.
Proof.
  exists [], []. split; [left; reflexivity|]. simpl. symmetry. apply app_nil_r.
Qed.

Lemma covers_Text_inv (c w : jsstring) : covers (Text c) w -> w = c.
Proof.
  intros [o [cl [Hin ->]]]. simpl in Hin. destruct Hin as [Hin|[]].
  injection Hin as <- <-. simpl. apply app_nil_r.
Qed.

(** One run of the tokenizer's loop body: it never fails, it appends one
    token, and that token covers a non-empty prefix of [remaining]. *)
Lemma inlineStep_spec (tokens : list inline) (remaining : jsstring) :
  remaining <> [] ->
  exists t w rest,
    inlineStep (tokens, remaining) = Ok (Continue (tokens ++ [t], rest)) /\
    remaining = w ++ rest /\ covers t w /\ 0 < length w.
Proof.
  intros Hne. unfold inlineStep.
  destruct (firstRule rules remaining) as [[tok rest]|] eqn:E.
  - destruct (firstRule_sound _ _ _ _ (incl_refl _) E) as [t [w [-> [Hs [Hc Hl]]]]].
    exists t, w, rest. simpl. auto.
  - set (len := if (search isSpecial remaining =? -1)%Z then length remaining
                else if (search isSpecial remaining =? 0)%Z then 1
                else Z.to_nat (search isSpecial remaining)).
    assert (Hlen : 0 < len <= length remaining).
    { assert (0 < length remaining) by (destruct remaining; simpl; [congruence|lia]).
      subst len. destruct (search_range isSpecial remaining) as [Hr|[Hr _]];
        [|congruence].
      destruct (search isSpecial remaining =? -1)%Z eqn:E1; [lia|].
      destruct (search isSpecial remaining =? 0)%Z eqn:E2; [lia|].
      apply Z.eqb_neq in E1, E2. lia. }
    exists (Text (firstn len remaining)), (firstn len remaining), (skipn len remaining).
    repeat split.
    + symmetry. apply firstn_skipn.
    + apply covers_Text.
    + rewrite length_firstn. lia.
Qed.

Lemma tiles_nil : tiles [] [].
Proof. exists []. split; [constructor | reflexivity]. Qed.

Lemma tiles_app ts1 w1 ts2 w2 :
  tiles ts1 w1 -> tiles ts2 w2 -> tiles (ts1 ++ ts2) (w1 ++ w2).
Proof.
  intros [p1 [F1 <-]] [p2 [F2 <-]]. exists (p1 ++ p2).
  split; [apply Forall2_app; assumption | apply concat_app].
Qed.

Lemma tiles_one t w : covers t w -> tiles [t] w.
Proof.
  intros H. exists [w]. split; [repeat constructor; exact H|].
  simpl. apply app_nil_r.
Qed.

Lemma tiles_snoc_inv ts t w :
  tiles (ts ++ [t]) w -> exists w1 w2, w = w1 ++ w2 /\ tiles ts w1 /\ covers t w2.
Proof.
  intros [pieces [F <-]].
  apply Forall2_app_inv_l in F. destruct F as [p1 [p2 [F1 [F2 ->]]]].
  inversion F2 as [|? w2 ? ? Hc F3]; subst. inversion F3; subst.
  exists (concat p1), w2. rewrite concat_app. simpl. rewrite app_nil_r.
  repeat split; auto. exists p1. auto.
Qed.

Lemma tiles_nonempty ts w : tiles ts w -> w <> [] -> ts <> [].
Proof.
  intros [pieces [F <-]] Hne ->. inversion F; subst. apply Hne. reflexivity.
Qed.

Lemma snoc_cases {A : Type} (l : list A) :
  l = [] \/ exists l' x, l = l' ++ [x].
Proof.
  destruct l as [|a l]; [left; reflexivity | right].
  destruct (@exists_last _ (a :: l)) as [l' [x ->]]; [discriminate|]. eauto.
Qed.

Lemma lastOf_snoc acc x : lastOf (acc ++ [x]) = Some x.
Proof.
  unfold lastOf. rewrite length_app. simpl.
  replace (length acc + 1 - 1) with (length acc) by lia.
  rewrite nth_error_app2, Nat.sub_diag by lia. reflexivity.
Qed.

Lemma mergeToken_snoc acc x t :
  mergeToken (acc ++ [x]) t =
  match t, x with
  | Text c, Text c0 => acc ++ [Text (c0 ++ c)]
  | _, _ => acc ++ [x; t]
  end.
Proof.
  unfold mergeToken. rewrite lastOf_snoc, removelast_last.
  destruct t; rewrite <- app_assoc; reflexivity.
Qed.

Lemma mergeToken_nil t : mergeToken [] t = [t].
Proof. destruct t; reflexivity. Qed.

Lemma mergeToken_tiles acc w1 t w :
  tiles acc w1 -> covers t w -> tiles (mergeToken acc t) (w1 ++ w).
Proof.
  intros Hacc Hc.
  destruct (snoc_cases acc) as [->|[acc' [x ->]]].
  - rewrite mergeToken_nil.
    apply (tiles_app [] w1 [t] w); [assumption | apply tiles_one; assumption].
  - rewrite mergeToken_snoc.
    assert (Hgen : tiles ((acc' ++ [x]) ++ [t]) (w1 ++ w))
      by (apply tiles_app; [assumption | apply tiles_one; assumption]).
    rewrite <- app_assoc in Hgen. simpl in Hgen.
    destruct t; try exact Hgen. destruct x; try exact Hgen.
    apply covers_Text_inv in Hc. subst w.
    apply tiles_snoc_inv in Hacc. destruct Hacc as [u1 [u2 [-> [Hu1 Hu2]]]].
    apply covers_Text_inv in Hu2. subst u2.
    rewrite <- app_assoc. apply tiles_app; [assumption|].
    apply tiles_one. apply covers_Text.
Qed.

Lemma merge_tiles ts :
  forall acc w1 w2, tiles acc w1 -> tiles ts w2 ->
  tiles (fold_left mergeToken ts acc) (w1 ++ w2).
Proof.
  induction ts as [|t ts IH]; intros acc w1 w2 Hacc Hts; simpl.
  - destruct Hts as [pieces [F <-]]. inversion F; subst. simpl.
    rewrite app_nil_r. exact Hacc.
  - destruct Hts as [pieces [F <-]].
    inversion F as [|? w ? ps Hc F']; subst. simpl.
    rewrite app_assoc. apply IH.
    + apply mergeToken_tiles; assumption.
    + exists ps. auto.
Qed.

Lemma noAdjacentText_nth ts :
  noAdjacentText ts = true ->
  forall i a b, nth_error ts i = Some a -> nth_error ts (S i) = Some b ->
  isText a && isText b = false.
Proof.
  induction ts as [|x ts IH]; intros H i a b Ha Hb.
  - destruct i; discriminate.
  - simpl in H. apply andb_true_iff in H. destruct H as [Hhd Htl].
    destruct i as [|i].
    + simpl in Ha, Hb. injection Ha as <-.
      destruct ts as [|y ts]; [discriminate|]. simpl in Hb. injection Hb as <-.
      apply negb_true_iff. exact Hhd.
    + simpl in Ha. apply (IH Htl i); assumption.
Qed.

Lemma noAdjacentText_snoc2 l x y :
  noAdjacentText (l ++ [x; y]) =
  noAdjacentText (l ++ [x]) && negb (isText x && isText y).
Proof.
  induction l as [|a l IH].
  - simpl. rewrite !andb_true_r. reflexivity.
  - change ((a :: l) ++ [x; y]) with (a :: (l ++ [x; y])).
    change ((a :: l) ++ [x]) with (a :: (l ++ [x])).
    cbn [noAdjacentText]. rewrite IH.
    destruct l as [|b l]; cbn [app]; apply andb_assoc.
Qed.

Lemma noAdjacentText_snoc_kind l x y :
  isText x = isText y ->
  noAdjacentText (l ++ [x]) = noAdjacentText (l ++ [y]).
Proof.
  intros Hk. induction l as [|a l IH].
  - reflexivity.
  - change ((a :: l) ++ [x]) with (a :: (l ++ [x])).
    change ((a :: l) ++ [y]) with (a :: (l ++ [y])).
    cbn [noAdjacentText]. rewrite IH.
    destruct l as [|b l]; cbn [app]; [rewrite Hk|]; reflexivity.
Qed.

Lemma mergeToken_noAdjacentText acc t :
  noAdjacentText acc = true -> noAdjacentText (mergeToken acc t) = true.
Proof.
  intros H. destruct (snoc_cases acc) as [->|[acc' [x ->]]].
  - rewrite mergeToken_nil. reflexivity.
  - rewrite mergeToken_snoc.
    assert (Hgen : isText x && isText t = false ->
                   noAdjacentText (acc' ++ [x; t]) = true).
    { intros Hxt. rewrite noAdjacentText_snoc2, H, Hxt. reflexivity. }
    destruct t; try (apply Hgen; simpl; apply andb_false_r).
    destruct x; try (apply Hgen; reflexivity).
    rewrite <- H. apply noAdjacentText_snoc_kind. reflexivity.
Qed.

Lemma merge_noAdjacentText ts :
  forall acc, noAdjacentText acc = true ->
  noAdjacentText (fold_left mergeToken ts acc) = true.
Proof.
  induction ts as [|t ts IH]; intros acc H; simpl; [exact H|].
  apply IH. apply mergeToken_noAdjacentText. exact H.
Qed.

(** The tokenizer's loop: with fuel [length text] it returns, all of the
    input is consumed and the tokens tile it. *)
Lemma tokenize_spec (text : jsstring) :
  exists tokens,
    while (length text) hasRemaining inlineStep ([], text) = Ok (tokens, []) /\
    tiles tokens text.
Proof.
  destruct (while_rule
    (fun st : list inline * jsstring =>
       exists consumed, tiles (fst st) consumed /\ consumed ++ snd st = text)
    (fun st => tiles (fst st) text /\ snd st = [])
    (fun st => length (snd st))
    hasRemaining inlineStep) with
    (fuel := length text) (s := (@nil inline, text)) as [[tokens rest] [Hrun HQ]].
  - intros [tokens remaining] [consumed [Ht Hc]] Hcond.
    unfold hasRemaining in Hcond. simpl in *.
    destruct remaining; [|discriminate]. rewrite app_nil_r in Hc. subst.
    split; [exact Ht | reflexivity].
  - intros [tokens remaining] [consumed [Ht Hc]] Hcond.
    unfold hasRemaining in Hcond. simpl in *.
    assert (Hne : remaining <> []) by (destruct remaining; [discriminate | congruence]).
    split; [destruct remaining; simpl; [congruence | lia]|].
    destruct (inlineStep_spec tokens remaining Hne) as [t [w [rest [Hstep [Hr [Hcov Hlen]]]]]].
    eexists. split; [exact Hstep|]. simpl. split.
    + exists (consumed ++ w). split.
      * apply tiles_app; [assumption | apply tiles_one; assumption].
      * rewrite <- app_assoc, <- Hr. exact Hc.
    + rewrite Hr, length_app. lia.
  - exists []. split; [apply tiles_nil | reflexivity].
  - simpl. lia.
  - cbn [fst snd] in HQ. destruct HQ as [Ht ->]. exists tokens. auto.
Qed.

Lemma parseInline_spec (text : jsstring) :
  exists nodes,
    parseInline text = Ok nodes /\ tiles nodes text /\
    noAdjacentText nodes = true /\ nodes <> [].
Proof.
  unfold parseInline. destruct text as [|c text]; simpl isEmpty; cbv iota.
  - exists [Text []]. repeat split; [|discriminate].
    apply tiles_one. apply covers_Text.
  - destruct (tokenize_spec (c :: text)) as [tokens [Hrun Ht]].
    rewrite Hrun. simpl.
    assert (Hm : tiles (fold_left mergeToken tokens []) (c :: text)).
    { apply (merge_tiles tokens [] [] (c :: text)); [apply tiles_nil | exact Ht]. }
    exists (fold_left mergeToken tokens []). repeat split.
    + exact Hm.
    + apply merge_noAdjacentText. reflexivity.
    + apply (tiles_nonempty _ _ Hm). discriminate.
Qed.

(** ** Block patterns *)

Lemma ordered_match (s : jsstring) (m : matchResult) :
  exec PATTERNS.ordered s = Some m ->
  exists label c s', cap m 1 = Ok label /\ s = c :: s' /\ isDigit c = true.
Proof.
  intros H. apply exec_sound in H. destruct H as [rest [Hs HM]].
  destruct m as [w g]. simpl in Hs, HM. unfold PATTERNS.ordered, Lit, Plus in HM.
  inv_matches. unfold cap. cbn.
  match goal with
  | Hd : forallb isDigit ?d = true, Hl : 1 <= length ?d |- _ =>
      destruct d as [|c d]; [simpl in Hl; lia|];
      simpl in Hd; apply andb_true_iff in Hd; destruct Hd as [Hc _];
      eexists; exists c; eexists; split; [reflexivity|]; split; [|exact Hc];
      reflexivity
  end.
Qed.

Lemma unordered_match (s : jsstring) (m : matchResult) :
  exec PATTERNS.unordered s = Some m ->
  exists label c s', cap m 1 = Ok label /\ s = c :: s' /\
    (isChar "-" c || isChar "*" c || isChar "+" c) = true.
Proof.
  intros H. apply exec_sound in H. destruct H as [rest [Hs HM]].
  destruct m as [w g]. simpl in Hs, HM. unfold PATTERNS.unordered, Lit, Plus in HM.
  inv_matches. unfold cap. cbn.
  eexists. eexists. eexists. split; [reflexivity|]. split; [|eassumption].
  reflexivity.
Qed.

Lemma heading_match (s : jsstring) (m : matchResult) :
  exec PATTERNS.heading s = Some m ->
  exists hashes label,
    cap m 1 = Ok hashes /\ cap m 2 = Ok label /\ 1 <= length hashes <= 6.
Proof.
  intros H. apply exec_sound in H. destruct H as [rest [Hs HM]].
  destruct m as [w g]. simpl in Hs, HM.
  unfold PATTERNS.heading, Lit, Plus, Between in HM.
  inv_matches. unfold cap. cbn.
  do 2 eexists. split; [reflexivity|]. split; [reflexivity|].
  match goal with
  | Hh : forall h, Some 6 = Some h -> _ |- _ => specialize (Hh 6 eq_refl); lia
  end.
Qed.

Lemma digit_not_bullet (c : N) :
  isDigit c = true -> (isChar "-" c || isChar "*" c || isChar "+" c) = false.
Proof.
  unfold isDigit, isChar. intros H.
  apply andb_true_iff in H. destruct H as [H1 H2].
  apply N.leb_le in H1, H2.
  repeat (apply orb_false_iff; split); apply N.eqb_neq; cbv; intros ->;
    cbv in H1; apply H1; reflexivity.
Qed.

(** The marker patterns exclude each other. *)
Lemma ordered_not_unordered (s : jsstring) :
  test PATTERNS.ordered s = true -> test PATTERNS.unordered s = false.
Proof.
  unfold test. destruct (exec PATTERNS.ordered s) as [m|] eqn:Eo; [|discriminate].
  intros _. destruct (exec PATTERNS.unordered s) as [m'|] eqn:Eu; [|reflexivity].
  apply ordered_match in Eo. destruct Eo as [_ [c [s' [_ [-> Hc]]]]].
  apply unordered_match in Eu. destruct Eu as [_ [c' [s'' [_ [Heq Hc']]]]].
  injection Heq as <- <-. rewrite (digit_not_bullet _ Hc) in Hc'. discriminate.
Qed.

Lemma isEmpty_true (s : jsstring) : isEmpty s = true -> s = [].
Proof. destruct s; [reflexivity | discriminate]. Qed.

(** ** Well-formed nodes *)

Lemma parseInline_good (text : jsstring) :
  exists nodes, parseInline text = Ok nodes /\ goodChildren nodes.
Proof.
  destruct (parseInline_spec text) as [nodes [H [_ [Hn Hne]]]].
  exists nodes. split; [exact H | split; assumption].
Qed.

(** ** Reading lines *)

Lemma get_Some (lines : list jsstring) (i : nat) (l : jsstring) :
  nth_error lines i = Some l -> get lines i = Ok l.
Proof. unfold get. intros ->. reflexivity. Qed.

Lemma nth_error_lt (lines : list jsstring) (i : nat) :
  i < length lines -> exists l, nth_error lines i = Some l.
Proof.
  intros H. destruct (nth_error lines i) as [l|] eqn:E; [eauto|].
  apply nth_error_None in E. lia.
Qed.

Lemma ltb_lines (lines : list jsstring) (i : nat) (l : jsstring) :
  nth_error lines i = Some l -> (i <? length lines) = true.
Proof.
  intros H. apply Nat.ltb_lt. apply nth_error_Some. congruence.
Qed.

Lemma peekNextNonEmpty_peek lines index patterns :
  peekNextNonEmpty lines index patterns = Ok (peek lines index patterns).
Proof.
  unfold peekNextNonEmpty, peek.
  destruct (length lines <=? index + 1) eqn:E.
  - apply Nat.leb_le in E. apply nth_error_None in E. rewrite E. reflexivity.
  - apply Nat.leb_gt in E. destruct (nth_error_lt lines (index + 1) E) as [l Hl].
    rewrite (get_Some _ _ _ Hl), Hl. reflexivity.
Qed.

Lemma while_continue {S : Type} fuel cond (body : S -> result (flow S)) s s' :
  cond s = true -> body s = Ok (Continue s') ->
  while (Datatypes.S fuel) cond body s = while fuel cond body s'.
Proof. intros Hc Hb. simpl. rewrite Hc, Hb. reflexivity. Qed.

Lemma while_break {S : Type} fuel cond (body : S -> result (flow S)) s s' :
  cond s = true -> body s = Ok (Break s') ->
  while (Datatypes.S fuel) cond body s = Ok s'.
Proof. intros Hc Hb. simpl. rewrite Hc, Hb. reflexivity. Qed.

(** ** List mode *)

Lemma marker_match (o : bool) (s : jsstring) (m : matchResult) :
  exec (mainPat o) s = Some m -> exists label, cap m 1 = Ok label /\ s <> [].
Proof.
  destruct o; simpl; intros H.
  - apply ordered_match in H. destruct H as [label [c [s' [Hc [-> _]]]]].
    exists label. split; [exact Hc | discriminate].
  - apply unordered_match in H. destruct H as [label [c [s' [Hc [-> _]]]]].
    exists label. split; [exact Hc | discriminate].
Qed.

Lemma nestedPat_mainPat (o : bool) : nestedPat o = mainPat (negb o).
Proof. destruct o; reflexivity. Qed.

Lemma main_not_nested (o : bool) (s : jsstring) :
  test (mainPat o) s = true -> test (nestedPat o) s = false.
Proof.
  destruct o; simpl; intros H.
  - apply ordered_not_unordered. exact H.
  - destruct (test PATTERNS.ordered s) eqn:E; [|reflexivity].
    apply ordered_not_unordered in E. congruence.
Qed.

Lemma test_exec (r : regex) (s : jsstring) :
  test r s = true -> exists m, exec r s = Some m.
Proof. unfold test. destruct (exec r s); [eauto | discriminate]. Qed.

Lemma exec_test (r : regex) (s : jsstring) (m : matchResult) :
  exec r s = Some m -> test r s = true.
Proof. unfold test. intros ->. reflexivity. Qed.

Lemma test_false_exec (r : regex) (s : jsstring) :
  test r s = false -> exec r s = None.
Proof. unfold test. destruct (exec r s); [discriminate | reflexivity]. Qed.

Lemma marker_nonempty (o : bool) : test (mainPat o) [] = false.
Proof. destruct o; reflexivity. Qed.

Section ListMode.

Variable lines : list jsstring.
Variable isOrdered : bool.

(** The item a nested marker line gives. *)
Lemma nestedBody_item nestedItems k l m :
  nth_error lines k = Some l -> exec (nestedPat isOrdered) (trim l) = Some m ->
  exists label ch,
    cap m 1 = Ok label /\ parseInline label = Ok ch /\ goodChildren ch /\
    nestedBody lines (nestedPat isOrdered) (mainPat isOrdered) (nestedItems, k)
      = Ok (Continue (nestedItems ++ [ListItem ch None], k + 1)).
Proof.
  intros Hl Hm. unfold nestedBody. rewrite (get_Some _ _ _ Hl). simpl. rewrite Hm.
  assert (Hcap : exists label, cap m 1 = Ok label /\ trim l <> []).
  { apply (marker_match (negb isOrdered)). rewrite <- nestedPat_mainPat. exact Hm. }
  destruct Hcap as [label [Hcap _]].
  destruct (parseInline_good label) as [ch [Hch Hgood]].
  exists label, ch. rewrite Hcap. simpl. rewrite Hch. simpl.
  repeat split; apply Hgood.
Qed.

(** A blank line followed by a marker line is passed over. *)
Lemma nestedBody_blank nestedItems k l :
  nth_error lines k = Some l -> trim l = [] ->
  peek lines k [(nestedPat isOrdered); (mainPat isOrdered)] = true ->
  nestedBody lines (nestedPat isOrdered) (mainPat isOrdered) (nestedItems, k)
    = Ok (Continue (nestedItems, k + 1)).
Proof.
  intros Hl Hb Hp. unfold nestedBody. rewrite (get_Some _ _ _ Hl). simpl.
  rewrite Hb. fold (test (nestedPat isOrdered) []).
  assert (E : exec (nestedPat isOrdered) [] = None).
  { apply test_false_exec. rewrite nestedPat_mainPat.
    apply marker_nonempty. }
  rewrite E. simpl. rewrite peekNextNonEmpty_peek. simpl. rewrite Hp. reflexivity.
Qed.

Lemma nestedBody_stop nestedItems k l :
  nth_error lines k = Some l -> nestedCont lines isOrdered k = false ->
  nestedBody lines (nestedPat isOrdered) (mainPat isOrdered) (nestedItems, k)
    = Ok (Break (nestedItems, k)).
Proof.
  intros Hl Hc. unfold nestedCont in Hc. rewrite Hl in Hc.
  apply orb_false_iff in Hc. destruct Hc as [Ht Hb].
  unfold nestedBody. rewrite (get_Some _ _ _ Hl). simpl.
  rewrite (test_false_exec _ _ Ht).
  destruct (isEmpty (trim l)); [|reflexivity].
  simpl in Hb. rewrite peekNextNonEmpty_peek. simpl. rewrite Hb. reflexivity.
Qed.

Lemma nestedBody_cont nestedItems k l :
  nth_error lines k = Some l -> nestedCont lines isOrdered k = true ->
  exists more,
    nestedBody lines (nestedPat isOrdered) (mainPat isOrdered) (nestedItems, k)
      = Ok (Continue (nestedItems ++ more, k + 1)) /\
    Forall nestedItemOk more.
Proof.
  intros Hl Hc. unfold nestedCont in Hc. rewrite Hl in Hc.
  destruct (test (nestedPat isOrdered) (trim l)) eqn:Ht.
  - destruct (test_exec _ _ Ht) as [m Hm].
    destruct (nestedBody_item nestedItems k l m Hl Hm)
      as [label [ch [_ [_ [Hgood Hbody]]]]].
    exists [ListItem ch None]. split; [exact Hbody|].
    repeat constructor; apply Hgood.
  - simpl in Hc. apply andb_true_iff in Hc. destruct Hc as [Hb Hp].
    exists []. rewrite app_nil_r. split; [|constructor].
    apply (nestedBody_blank nestedItems k l);
      [exact Hl | apply isEmpty_true; exact Hb | exact Hp].
Qed.

(** The inner loop returns at the first line it does not pass. *)
Lemma nestedLoop_spec fuel nestedItems i :
  i <= length lines -> length lines - i <= fuel ->
  exists more j,
    while fuel (inRange lines) (nestedBody lines (nestedPat isOrdered) (mainPat isOrdered))
      (nestedItems, i) = Ok (nestedItems ++ more, j) /\
    i <= j <= length lines /\ Forall nestedItemOk more /\
    (forall k, i <= k < j -> nestedCont lines isOrdered k = true) /\
    nestedCont lines isOrdered j = false.
Proof.
  intros Hi Hfuel.
  destruct (while_rule
    (fun st : list listItem * nat =>
       (exists more, fst st = nestedItems ++ more /\ Forall nestedItemOk more) /\
       i <= snd st <= length lines /\
       (forall k, i <= k < snd st -> nestedCont lines isOrdered k = true))
    (fun st =>
       (exists more, fst st = nestedItems ++ more /\ Forall nestedItemOk more) /\
       i <= snd st <= length lines /\
       (forall k, i <= k < snd st -> nestedCont lines isOrdered k = true) /\
       nestedCont lines isOrdered (snd st) = false)
    (fun st => length lines - snd st)
    (inRange lines) (nestedBody lines (nestedPat isOrdered) (mainPat isOrdered)))
    with (fuel := fuel) (s := (nestedItems, i)) as [[its j] [Hrun HQ]].
  - intros [its j] [Hmore [Hj Hk]] Hcond.
    unfold inRange in Hcond. simpl in *.
    repeat split; try tauto.
    apply Nat.ltb_ge in Hcond. unfold nestedCont.
    apply nth_error_None in Hcond. rewrite Hcond. reflexivity.
  - intros [its j] [[more [Hits Hmore]] [Hj Hk]] Hcond.
    unfold inRange in Hcond. simpl in *.
    apply Nat.ltb_lt in Hcond. split; [lia|].
    destruct (nth_error_lt lines j Hcond) as [l Hl].
    destruct (nestedCont lines isOrdered j) eqn:Hc.
    + destruct (nestedBody_cont its j l Hl Hc) as [more' [Hbody Hok]].
      eexists. split; [exact Hbody|]. simpl. repeat split; try lia.
      * exists (more ++ more'). rewrite Hits, app_assoc. split; [reflexivity|].
        apply Forall_app. auto.
      * intros k Hkr. destruct (Nat.eq_dec k j) as [->|Hne]; [exact Hc|].
        apply Hk. lia.
    + eexists. split; [apply (nestedBody_stop its j l Hl Hc)|]. simpl.
      repeat split; try tauto; try lia. exists more. auto.
  - simpl. repeat split; try lia. exists []. rewrite app_nil_r. auto.
  - simpl. exact Hfuel.
  - simpl in HQ. destruct HQ as [[more [-> Hmore]] [Hj [Hk Hstop]]].
    exists more, j. auto.
Qed.

(** A main marker line gives one item: its own label, and the nested run
    the inner loop collects after it. *)
Lemma listBody_item items i l m :
  nth_error lines i = Some l -> exec (mainPat isOrdered) (trim l) = Some m ->
  exists label ch nestedItems j,
    cap m 1 = Ok label /\ parseInline label = Ok ch /\
    while (length lines) (inRange lines)
      (nestedBody lines (nestedPat isOrdered) (mainPat isOrdered))
      ([], i + 1) = Ok (nestedItems, j) /\
    listBody lines isOrdered (items, i)
      = Ok (Continue
              (items ++ [ListItem ch
                           (if 0 <? length nestedItems
                            then Some (ListNode (negb isOrdered) nestedItems)
                            else None)], j)) /\
    goodChildren ch /\ Forall nestedItemOk nestedItems /\
    i < j <= length lines /\
    (forall k, i < k < j -> nestedCont lines isOrdered k = true) /\
    nestedCont lines isOrdered j = false.
Proof.
  intros Hl Hm.
  assert (Hlt : i < length lines) by (apply nth_error_Some; congruence).
  destruct (marker_match isOrdered _ _ Hm) as [label [Hcap _]].
  destruct (parseInline_good label) as [ch [Hch Hgood]].
  destruct (nestedLoop_spec (length lines) [] (i + 1)) as
    [nestedItems [j [Hrun [Hj [Hok [Hk Hstop]]]]]]; [lia | lia |].
  simpl in Hrun.
  exists label, ch, nestedItems, j.
  unfold listBody.
  change (if isOrdered then PATTERNS.ordered else PATTERNS.unordered)
    with (mainPat isOrdered).
  change (if isOrdered then PATTERNS.unordered else PATTERNS.ordered)
    with (nestedPat isOrdered).
  rewrite (get_Some _ _ _ Hl). cbn [bind].
  rewrite Hm, Hcap. cbn [bind]. rewrite Hch. cbn [bind].
  rewrite Hrun. cbn [bind].
  repeat split; try assumption; try lia; try apply Hgood.
  intros k Hkr. apply Hk. lia.
Qed.

Lemma listBody_stop items i l :
  nth_error lines i = Some l -> continues lines isOrdered i = false ->
  listBody lines isOrdered (items, i) = Ok (Break (items, i)).
Proof.
  intros Hl Hc. unfold continues in Hc. apply orb_false_iff in Hc.
  destruct Hc as [Hmain Hnested].
  unfold mainLine in Hmain. unfold nestedCont in Hnested. rewrite Hl in *.
  apply orb_false_iff in Hnested. destruct Hnested as [_ Hb].
  unfold listBody.
  change (if isOrdered then PATTERNS.ordered else PATTERNS.unordered)
    with (mainPat isOrdered).
  rewrite (get_Some _ _ _ Hl). cbn [bind].
  rewrite (test_false_exec _ _ Hmain).
  destruct (isEmpty (trim l)); [|reflexivity].
  simpl in Hb. rewrite peekNextNonEmpty_peek. cbn [bind].
  unfold peek in Hb |- *. destruct (nth_error lines (i + 1)) as [l'|]; [|reflexivity].
  simpl in Hb |- *. apply orb_false_iff in Hb. destruct Hb as [_ Hb].
  rewrite orb_false_r in Hb. rewrite Hb. reflexivity.
Qed.

(** The outer loop, entered at a main marker line or where the inner loop
    stopped: it returns at the first line where the list does not go on. *)
Lemma listLoop_spec fuel items start :
  start <= length lines ->
  mainLine lines isOrdered start = true \/ nestedCont lines isOrdered start = false ->
  length lines - start <= fuel ->
  exists more j,
    while fuel (inRange lines) (listBody lines isOrdered) (items, start)
      = Ok (items ++ more, j) /\
    start <= j <= length lines /\ Forall (itemOk isOrdered) more /\
    (forall k, start <= k < j -> continues lines isOrdered k = true) /\
    continues lines isOrdered j = false.
Proof.
  intros Hle Hstart Hfuel.
  destruct (while_rule
    (fun st : list listItem * nat =>
       (exists more, fst st = items ++ more /\ Forall (itemOk isOrdered) more) /\
       start <= snd st <= length lines /\
       (forall k, start <= k < snd st -> continues lines isOrdered k = true) /\
       (snd st = start \/ nestedCont lines isOrdered (snd st) = false))
    (fun st =>
       (exists more, fst st = items ++ more /\ Forall (itemOk isOrdered) more) /\
       start <= snd st <= length lines /\
       (forall k, start <= k < snd st -> continues lines isOrdered k = true) /\
       continues lines isOrdered (snd st) = false)
    (fun st => length lines - snd st)
    (inRange lines) (listBody lines isOrdered))
    with (fuel := fuel) (s := (items, start)) as [[its j] [Hrun HQ]].
  - intros [its j] [Hmore [Hj [Hk Hend]]] Hcond.
    unfold inRange in Hcond. simpl in *.
    apply Nat.ltb_ge in Hcond.
    repeat split; try tauto; try lia.
    unfold continues, mainLine, nestedCont.
    apply nth_error_None in Hcond. rewrite Hcond. reflexivity.
  - intros [its j] [[more [Hits Hmore]] [Hj [Hk Hend]]] Hcond.
    unfold inRange in Hcond. simpl in *.
    apply Nat.ltb_lt in Hcond. split; [lia|].
    destruct (nth_error_lt lines j Hcond) as [l Hl].
    destruct (mainLine lines isOrdered j) eqn:Hmain.
    + assert (Ht : test (mainPat isOrdered) (trim l) = true)
        by (unfold mainLine in Hmain; rewrite Hl in Hmain; exact Hmain).
      destruct (test_exec _ _ Ht) as [m Hm].
      destruct (listBody_item its j l m Hl Hm) as
        [label [ch [nestedIts [j' [_ [_ [_ [Hbody [Hgood [Hnok [Hj' [Hk' Hstop]]]]]]]]]]]].
      eexists. split; [exact Hbody|]. simpl. repeat split; try lia.
      * eexists. rewrite Hits, <- app_assoc. split; [reflexivity|].
        apply Forall_app. split; [exact Hmore|]. constructor; [|constructor].
        split; [exact Hgood|]. simpl.
        destruct (0 <? length nestedIts) eqn:Hn; [|exact I]. simpl.
        apply Nat.ltb_lt in Hn. repeat split; [|exact Hnok].
        destruct nestedIts; [simpl in Hn; lia | discriminate].
      * intros k Hkr. destruct (Nat.lt_ge_cases k j) as [Hlo|Hhi]; [apply Hk; lia|].
        unfold continues. destruct (Nat.eq_dec k j) as [->|Hne].
        -- rewrite Hmain. reflexivity.
        -- rewrite (Hk' k) by lia. apply orb_true_r.
      * right. exact Hstop.
    + assert (Hstop : nestedCont lines isOrdered j = false).
      { destruct Hend as [->|Hs]; [|exact Hs].
        destruct Hstart as [Hs|Hs]; [congruence | exact Hs]. }
      assert (Hc : continues lines isOrdered j = false)
        by (unfold continues; rewrite Hmain, Hstop; reflexivity).
      eexists. split; [apply (listBody_stop its j l Hl Hc)|]. simpl.
      repeat split; try tauto; try lia. exists more. auto.
  - simpl. repeat split; try lia.
    exists []. rewrite app_nil_r. auto.
  - simpl. exact Hfuel.
  - simpl in HQ. destruct HQ as [[more [-> Hmore]] [Hj [Hk Hstop]]].
    exists more, j. auto.
Qed.

End ListMode.

Lemma continues_listGoesOn lines o k :
  continues lines o k = listGoesOn lines k.
Proof.
  unfold continues, mainLine, nestedCont, listGoesOn, peek, listLine.
  destruct (nth_error lines k) as [l|]; [|reflexivity].
  destruct (nth_error lines (k + 1)) as [l'|]; destruct o; simpl;
    repeat match goal with
           | |- context [test ?r ?s] => destruct (test r s)
           end;
    destruct (isEmpty (trim l)); reflexivity.
Qed.

Lemma parseList_spec lines start l0 :
  nth_error lines start = Some l0 -> listLine l0 = true ->
  exists its j,
    parseList lines start
      = Ok (Some (BList (ListNode (test PATTERNS.ordered (trim l0)) its)), j) /\
    start < j <= length lines /\
    Forall (itemOk (test PATTERNS.ordered (trim l0))) its /\
    (forall k, start <= k < j -> listGoesOn lines k = true) /\
    listGoesOn lines j = false.
Proof.
  intros Hl Hline. set (o := test PATTERNS.ordered (trim l0)).
  assert (Hmain : mainLine lines o start = true).
  { unfold mainLine. rewrite Hl. unfold listLine in Hline. subst o.
    destruct (test PATTERNS.ordered (trim l0)) eqn:E; simpl; [exact E | exact Hline]. }
  assert (Hlt : start < length lines) by (apply nth_error_Some; congruence).
  destruct (listLoop_spec lines o (length lines) [] start) as
    [more [j [Hrun [Hj [Hok [Hk Hstop]]]]]]; [lia | left; exact Hmain | lia |].
  assert (Hne : j <> start).
  { intros ->. unfold continues in Hstop. rewrite Hmain in Hstop. discriminate. }
  exists more, j. unfold parseList. rewrite (get_Some _ _ _ Hl). cbn [bind].
  fold o. simpl in Hrun. rewrite Hrun. cbn [bind].
  repeat split; try assumption; try lia.
  - intros k Hkr. rewrite <- (continues_listGoesOn lines o). apply Hk. exact Hkr.
  - rewrite <- (continues_listGoesOn lines o). exact Hstop.
Qed.

(** ** Blockquote mode *)

Lemma parseBlockquote_spec lines start l0 :
  nth_error lines start = Some l0 -> startsWith (str ">") (trim l0) = true ->
  exists ch j,
    parseBlockquote lines start = Ok (Some (Blockquote ch), j) /\
    start < j <= length lines /\ goodChildren ch.
Proof.
  intros Hl Hq.
  assert (Hlt : start < length lines) by (apply nth_error_Some; congruence).
  destruct (while_rule
    (fun st : list jsstring * nat =>
       start <= snd st <= length lines)
    (fun st => start < snd st <= length lines)
    (fun st => length lines - snd st)
    (inRange lines) (quoteBody lines))
    with (fuel := length lines) (s := (@nil jsstring, start))
    as [[quoteLines j] [Hrun HQ]].
  - intros [q i] Hi Hcond. unfold inRange in Hcond. cbn [snd] in *.
    apply Nat.ltb_ge in Hcond. lia.
  - intros [q i] Hi Hcond. unfold inRange in Hcond. cbn [snd] in *.
    apply Nat.ltb_lt in Hcond. split; [lia|].
    destruct (nth_error_lt lines i Hcond) as [l Hli].
    unfold quoteBody. rewrite (get_Some _ _ _ Hli). cbn [bind].
    destruct (startsWith (str ">") (trim l)) eqn:Hs.
    + eexists. split; [reflexivity|]. cbn [snd]. lia.
    + assert (Hne : i <> start) by (intros ->; congruence).
      destruct (isEmpty (trim l) && (i + 1 <? length lines)) eqn:Hb.
      * apply andb_true_iff in Hb. destruct Hb as [_ Hn].
        apply Nat.ltb_lt in Hn. destruct (nth_error_lt lines (i + 1) Hn) as [l' Hl'].
        rewrite (get_Some _ _ _ Hl'). cbn [bind].
        destruct (startsWith (str ">") (trim l')).
        -- eexists. split; [reflexivity|]. cbn [snd]. lia.
        -- eexists. split; [reflexivity|]. cbn [snd]. lia.
      * eexists. split; [reflexivity|]. cbn [snd]. lia.
  - cbn [snd]. lia.
  - cbn [snd]. lia.
  - destruct (parseInline_good (join LF quoteLines)) as [ch [Hch Hgood]].
    exists ch, j. unfold parseBlockquote. rewrite Hrun. cbn [bind].
    rewrite Hch. cbn [bind]. cbn [snd] in HQ. auto.
Qed.

(** ** Code-block mode *)

Lemma firstn_snoc_nth {A : Type} (xs : list A) :
  forall n x, nth_error xs n = Some x -> firstn (S n) xs = firstn n xs ++ [x].
Proof.
  induction xs as [|y xs IH]; intros [|n] x H; simpl in H; try discriminate.
  - injection H as ->. reflexivity.
  - simpl. f_equal. apply IH. exact H.
Qed.

Lemma slice_snoc (lines : list jsstring) (i j : nat) (l : jsstring) :
  i <= j -> nth_error lines j = Some l ->
  slice i (j + 1) lines = slice i j lines ++ [l].
Proof.
  intros Hij Hl. unfold slice.
  replace (j + 1 - i) with (S (j - i)) by lia.
  apply firstn_snoc_nth. rewrite nth_error_skipn.
  replace (i + (j - i)) with j by lia. exact Hl.
Qed.

Lemma slice_empty (lines : list jsstring) (i : nat) : slice i i lines = [].
Proof. unfold slice. rewrite Nat.sub_diag. reflexivity. Qed.

Lemma slice_to_end (lines : list jsstring) (i : nat) :
  slice i (length lines) lines = skipn i lines.
Proof.
  unfold slice. rewrite <- length_skipn. apply firstn_all.
Qed.

(** The loop of [parseCodeBlock] collects the raw lines up to the first
    fence line, or up to the end of the input. *)
Lemma codeLoop_spec lines fuel codeLines i :
  i <= length lines -> length lines - i <= fuel ->
  exists j,
    while fuel (codeCond lines) (codeBody lines) (codeLines, i)
      = Ok (codeLines ++ slice i j lines, j) /\
    i <= j <= length lines /\
    (forall k l, i <= k < j -> nth_error lines k = Some l -> isFence l = false) /\
    (forall l, nth_error lines j = Some l -> isFence l = true).
Proof.
  intros Hi Hfuel.
  destruct (while_rule
    (fun st : list jsstring * nat =>
       i <= snd st <= length lines /\
       fst st = codeLines ++ slice i (snd st) lines /\
       (forall k l, i <= k < snd st -> nth_error lines k = Some l -> isFence l = false))
    (fun st =>
       i <= snd st <= length lines /\
       fst st = codeLines ++ slice i (snd st) lines /\
       (forall k l, i <= k < snd st -> nth_error lines k = Some l -> isFence l = false) /\
       (forall l, nth_error lines (snd st) = Some l -> isFence l = true))
    (fun st => length lines - snd st)
    (codeCond lines) (codeBody lines))
    with (fuel := fuel) (s := (codeLines, i)) as [[c j] [Hrun HQ]].
  - intros [c j] [Hj [Hc Hk]] Hcond. cbn [fst snd] in *.
    repeat split; try tauto; try lia.
    intros l Hl. unfold codeCond in Hcond. rewrite Hl in Hcond.
    apply negb_false_iff in Hcond. exact Hcond.
  - intros [c j] [Hj [Hc Hk]] Hcond. cbn [fst snd] in *.
    unfold codeCond in Hcond.
    destruct (nth_error lines j) as [l|] eqn:Hl; [|discriminate].
    apply negb_true_iff in Hcond.
    assert (Hlt : j < length lines) by (apply nth_error_Some; congruence).
    split; [lia|].
    unfold codeBody. rewrite (get_Some _ _ _ Hl). cbn [bind].
    eexists. split; [reflexivity|]. cbn [fst snd]. repeat split; try lia.
    + rewrite Hc, <- app_assoc. f_equal. symmetry. apply slice_snoc; [lia | exact Hl].
    + intros k l' Hkr Hl'. destruct (Nat.eq_dec k j) as [->|Hne].
      * rewrite Hl in Hl'. injection Hl' as <-. exact Hcond.
      * apply (Hk k); [lia | exact Hl'].
  - cbn [fst snd]. repeat split; try lia.
    rewrite slice_empty, app_nil_r. reflexivity.
  - cbn [snd]. exact Hfuel.
  - cbn [fst snd] in HQ. destruct HQ as [Hj [-> [Hk Hstop]]].
    exists j. auto.
Qed.

Lemma parseCodeBlock_spec lines start first :
  nth_error lines start = Some first ->
  exists j,
    parseCodeBlock lines start
      = Ok (Some (CodeBlock (trim (skipn 3 (trim first)))
                    (join LF (slice (start + 1) j lines))), j + 1) /\
    start < j <= length lines /\
    (forall k l, start < k < j -> nth_error lines k = Some l -> isFence l = false) /\
    (forall l, nth_error lines j = Some l -> isFence l = true).
Proof.
  intros Hl.
  assert (Hlt : start < length lines) by (apply nth_error_Some; congruence).
  destruct (codeLoop_spec lines (length lines) [] (start + 1)) as
    [j [Hrun [Hj [Hk Hstop]]]]; [lia | lia |].
  exists j. unfold parseCodeBlock. rewrite (get_Some _ _ _ Hl). cbn [bind].
  rewrite Hrun. cbn [bind app]. repeat split; try lia.
  - intros k l Hkr. apply Hk. lia.
  - exact Hstop.
Qed.

(** ** A marker line is no other kind of block *)

Lemma unordered_second (s : jsstring) (m : matchResult) :
  exec PATTERNS.unordered s = Some m ->
  exists c c2 s', s = c :: c2 :: s' /\ isSpace c2 = true.
Proof.
  intros H. apply exec_sound in H. destruct H as [rest [Hs HM]].
  destruct m as [w g]. simpl in Hs, HM. unfold PATTERNS.unordered, Lit, Plus in HM.
  inv_matches.
  match goal with
  | Hd : forallb isSpace ?d = true, Hl : 1 <= length ?d |- _ =>
      destruct d as [|c2 d]; [simpl in Hl; lia|];
      simpl in Hd; apply andb_true_iff in Hd; destruct Hd as [Hc2 _];
      eexists; exists c2; eexists; split; [reflexivity | exact Hc2]
  end.
Qed.

Lemma fence_first (s : jsstring) :
  test PATTERNS.codeBlockStart s = true -> exists s', s = ch "`" :: s'.
Proof.
  intros H. destruct (test_exec _ _ H) as [m Hm].
  apply exec_sound in Hm. destruct Hm as [rest [Hs HM]].
  destruct m as [w g]. simpl in Hs, HM. unfold PATTERNS.codeBlockStart, Lit in HM.
  inv_matches. eexists. reflexivity.
Qed.

Lemma heading_first (s : jsstring) (m : matchResult) :
  exec PATTERNS.heading s = Some m -> exists s', s = ch "#" :: s'.
Proof.
  intros H. apply exec_sound in H. destruct H as [rest [Hs HM]].
  destruct m as [w g]. simpl in Hs, HM.
  unfold PATTERNS.heading, Lit, Plus, Between in HM. inv_matches.
  match goal with
  | Hd : forallb (isChar "#") ?d = true, Hl : 1 <= length ?d |- _ =>
      destruct d as [|c d]; [simpl in Hl; lia|];
      simpl in Hd; apply andb_true_iff in Hd; destruct Hd as [Hc _];
      apply N.eqb_eq in Hc; subst c; eexists; reflexivity
  end.
Qed.

Lemma run_first_two (a : ascii) (w : jsstring) :
  forallb (isChar a) w = true -> 3 <= length w ->
  exists w', w = ch a :: ch a :: w'.
Proof.
  intros Hall Hlen. destruct w as [|x [|y w']]; simpl in Hlen; try lia.
  simpl in Hall. apply andb_true_iff in Hall. destruct Hall as [Hx Hall].
  apply andb_true_iff in Hall. destruct Hall as [Hy _].
  apply N.eqb_eq in Hx, Hy. subst. eexists. reflexivity.
Qed.

Lemma hr_first_two (s : jsstring) :
  test PATTERNS.hr s = true ->
  exists a s', s = ch a :: ch a :: s' /\ (a = "-" \/ a = "*" \/ a = "_")%char.
Proof.
  intros H. destruct (test_exec _ _ H) as [m Hm].
  apply exec_sound in Hm. destruct Hm as [rest [Hs HM]].
  destruct m as [w g]. simpl in Hs, HM. unfold PATTERNS.hr, AtLeast in HM.
  inv_matches;
    match goal with
    | Hd : forallb (isChar ?a) ?d = true, Hl : 3 <= length ?d |- _ =>
        destruct (run_first_two a d Hd Hl) as [w' ->]; exists a; eexists;
        split; [reflexivity | tauto]
    end.
Qed.

(** At a line that carries a list marker, [parseLine] is [parseList]. *)
Lemma parseLine_at_marker (lines : list jsstring) (i : nat) (l : jsstring) :
  nth_error lines i = Some l -> listLine l = true ->
  parseLine lines i = parseList lines i.
Proof.
  intros Hl Hline. unfold parseLine. rewrite (get_Some _ _ _ Hl). cbn [bind].
  fold (listLine l). rewrite Hline.
  assert (Hshape : exists c s', trim l = c :: s' /\
            (isDigit c = true \/ exists c2 s'', s' = c2 :: s'' /\ isSpace c2 = true
                                   /\ (isChar "-" c || isChar "*" c || isChar "+" c) = true)).
  { unfold listLine in Hline. apply orb_true_iff in Hline. destruct Hline as [H|H].
    - destruct (test_exec _ _ H) as [m Hm].
      destruct (ordered_match _ _ Hm) as [_ [c [s' [_ [Hs Hc]]]]]. eauto.
    - destruct (test_exec _ _ H) as [m Hm].
      destruct (unordered_match _ _ Hm) as [_ [c [s' [_ [Hs Hc]]]]].
      destruct (unordered_second _ _ Hm) as [c' [c2 [s'' [Hs2 Hc2]]]].
      rewrite Hs in Hs2. injection Hs2 as <- ->.
      exists c, (c2 :: s''). split; [exact Hs|]. right. eauto. }
  destruct Hshape as [c [s' [Hs Hc]]]. rewrite Hs. cbn [isEmpty].
  destruct (test PATTERNS.codeBlockStart (c :: s')) eqn:Hfence.
  { exfalso. destruct (fence_first _ Hfence) as [t Ht]. injection Ht as -> _.
    destruct Hc as [Hc|[c2 [s'' [_ [_ Hc]]]]]; vm_compute in Hc; discriminate. }
  destruct (exec PATTERNS.heading (c :: s')) as [m|] eqn:Hhead.
  { exfalso. destruct (heading_first _ _ Hhead) as [t Ht]. injection Ht as -> _.
    destruct Hc as [Hc|[c2 [s'' [_ [_ Hc]]]]]; vm_compute in Hc; discriminate. }
  destruct (test PATTERNS.hr (c :: s')) eqn:Hhr.
  { exfalso. destruct (hr_first_two _ Hhr) as [a [t [Ht Ha]]].
    injection Ht as -> ->.
    destruct Hc as [Hc|[c2 [s'' [Hs2 [Hc2 _]]]]].
    - destruct Ha as [->|[->| ->]]; vm_compute in Hc; discriminate.
    - injection Hs2 as <- _.
      destruct Ha as [->|[->| ->]]; vm_compute in Hc2; discriminate. }
  destruct (startsWith (str ">") (c :: s')) eqn:Hq; [|reflexivity].
  exfalso. destruct c as [|q]; simpl in Hq; [discriminate|].
  rewrite andb_true_r in Hq. apply Pos.eqb_eq in Hq. subst q.
  destruct Hc as [Hc|[c2 [s'' [_ [_ Hc]]]]]; vm_compute in Hc; discriminate.
Qed.

(** ** One block, and the whole document *)

Lemma parseLine_spec lines i :
  i < length lines ->
  exists node next,
    parseLine lines i = Ok (node, next) /\ i < next /\
    (forall b, node = Some b -> blockOk b).
Proof.
  intros Hlt. destruct (nth_error_lt lines i Hlt) as [l Hl].
  unfold parseLine. rewrite (get_Some _ _ _ Hl). cbn [bind].
  destruct (isEmpty (trim l)) eqn:Hempty.
  { exists None, (i + 1). repeat split; [lia | discriminate]. }
  destruct (test PATTERNS.codeBlockStart (trim l)) eqn:Hfence.
  { destruct (parseCodeBlock_spec lines i l Hl) as [j [Hrun [Hj _]]].
    rewrite Hrun. do 2 eexists. split; [reflexivity|]. split; [lia|].
    intros b Hb. injection Hb as <-. exact I. }
  destruct (exec PATTERNS.heading (trim l)) as [m|] eqn:Hhead.
  { destruct (heading_match _ _ Hhead) as [hashes [label [H1 [H2 Hlen]]]].
    destruct (parseInline_good label) as [ch [Hch Hgood]].
    rewrite H1. cbn [bind]. rewrite H2. cbn [bind]. rewrite Hch. cbn [bind].
    do 2 eexists. split; [reflexivity|]. split; [lia|].
    intros b Hb. injection Hb as <-. split; assumption. }
  destruct (test PATTERNS.hr (trim l)).
  { do 2 eexists. split; [reflexivity|]. split; [lia|].
    intros b Hb. injection Hb as <-. exact I. }
  destruct (startsWith (str ">") (trim l)) eqn:Hquote.
  { destruct (parseBlockquote_spec lines i l Hl Hquote) as [ch [j [Hrun [Hj Hgood]]]].
    rewrite Hrun. do 2 eexists. split; [reflexivity|]. split; [lia|].
    intros b Hb. injection Hb as <-. exact Hgood. }
  destruct (test PATTERNS.ordered (trim l) || test PATTERNS.unordered (trim l)) eqn:Hlist.
  { destruct (parseList_spec lines i l Hl Hlist) as [its [j [Hrun [Hj [Hok _]]]]].
    rewrite Hrun. do 2 eexists. split; [reflexivity|]. split; [lia|].
    intros b Hb. injection Hb as <-. exact Hok. }
  destruct (parseInline_good (trim l)) as [ch [Hch Hgood]].
  rewrite Hch. cbn [bind]. do 2 eexists. split; [reflexivity|]. split; [lia|].
  intros b Hb. injection Hb as <-. exact Hgood.
Qed.

Lemma parseMarkdown_spec (text : jsstring) :
  exists nodes, parseMarkdown text = Ok nodes /\ Forall blockOk nodes.
Proof.
  unfold parseMarkdown. set (lines := split LF text).
  destruct (while_rule
    (fun st : list block * nat => Forall blockOk (fst st))
    (fun st => Forall blockOk (fst st))
    (fun st => length lines - snd st)
    (inRange lines) (documentBody lines))
    with (fuel := length lines) (s := (@nil block, 0)) as [[nodes j] [Hrun HQ]].
  - intros st H _. exact H.
  - intros [nodes i] Hok Hcond. unfold inRange in Hcond. cbn [fst snd] in *.
    apply Nat.ltb_lt in Hcond. split; [lia|].
    destruct (parseLine_spec lines i Hcond) as [node [next [Hrun [Hnext Hb]]]].
    unfold documentBody. rewrite Hrun. cbn [bind].
    eexists. split; [reflexivity|]. cbn [fst snd]. split; [|lia].
    destruct node as [b|]; [|exact Hok].
    apply Forall_app. split; [exact Hok|]. constructor; [|constructor].
    apply Hb. reflexivity.
  - constructor.
  - cbn [snd]. lia.
  - exists nodes. rewrite Hrun. cbn [bind]. split; [reflexivity | exact HQ].
Qed.

Lemma nestedItems_children (its : list listItem) :
  Forall nestedItemOk its ->
  Forall goodChildren (childrenOfList (ListNode true its)) /\
  Forall goodChildren (childrenOfList (ListNode false its)).
Proof.
  intros H. induction H as [|it its Hit _ IH]; simpl.
  - split; constructor.
  - destruct it as [ch nl]. destruct Hit as [Hch Hnl]. destruct IH as [IH1 IH2].
    simpl in Hch, Hnl. subst nl. simpl. split; constructor; assumption.
Qed.

Lemma blockOk_children (b : block) :
  blockOk b -> Forall goodChildren (childrenOf b).
Proof.
  destruct b as [lvl ch|ch| |lang c|ch|[o its]]; simpl; intros H;
    try (constructor; [first [exact H | exact (proj1 H)] | constructor]);
    try constructor.
  induction H as [|it its Hit _ IH]; [constructor|].
  destruct it as [ch nl]. destruct Hit as [Hch Hnl].
  simpl in Hch, Hnl. simpl. constructor; [exact Hch|].
  apply Forall_app. split; [|exact IH].
  destruct nl as [[o' nits]|]; [|constructor].
  destruct Hnl as [_ [_ Hn]]. simpl in Hn.
  destruct (nestedItems_children nits Hn) as [H1 H2]. destruct o'; assumption.
Qed.

Lemma blockOk_oneLevel (b : block) : blockOk b -> oneLevel b = true.
Proof.
  destruct b as [lvl ch|ch| |lang c|ch|[o its]]; simpl; try reflexivity.
  intros H. apply forallb_forall. intros it Hin.
  rewrite Forall_forall in H. destruct (H it Hin) as [_ Hn].
  destruct (nestedList it) as [nl|]; [|reflexivity].
  destruct Hn as [Ho [_ Hits]]. rewrite Ho, Bool.eqb_reflx. simpl.
  apply forallb_forall. intros it' Hin'.
  rewrite Forall_forall in Hits. destruct (Hits it' Hin') as [_ ->]. reflexivity.
Qed.

Lemma fence_not_empty (l : jsstring) : isFence l = true -> isEmpty (trim l) = false.
Proof.
  unfold isFence. destruct (trim l); [discriminate | reflexivity].
Qed.

(** ** Two marker lines with one blank line between them *)

Section ListPairs.

Variable lines : list jsstring.
Variable o : bool.





End ListPairs.







(** ** Runs of the model *)

Example example_heading :
  parseMarkdown (str "# Hello") = Ok [Heading 1 [Text (str "Hello")]].
Proof. vm_compute. reflexivity. Qed.

Example example_codeblock :
  parseMarkdown (doc ["```js"; "const a = 1;"; "```"]%string)
  = Ok [CodeBlock (str "js") (str "const a = 1;")].
Proof. vm_compute. reflexivity. Qed.

Example example_inline_rules :
  parseInline (str "ab *c* **d** `e` [f](g) ![h](i) ~~j~~ k")
  = Ok [Text (str "ab "); Italic (str "c"); Text (str " "); Bold (str "d");
        Text (str " "); Code (str "e"); Text (str " ");
        Link (str "f") (str "g"); Text (str " "); Image (str "h") (str "i");
        Text (str " "); Strike (str "j"); Text (str " k")].
Proof. vm_compute. reflexivity. Qed.

Example example_overlapping_emphasis :
  parseInline (str "*a**b*c*")
  = Ok [Italic (str "a"); Italic (str "b"); Text (str "c*")].
Proof. vm_compute. reflexivity. Qed.

Example example_one_blank_line :
  parseMarkdown (doc ["- a"; ""; "- b"]%string)
  = Ok [BList (ListNode false
          [ListItem [Text (str "a")] None; ListItem [Text (str "b")] None])].
Proof. vm_compute. reflexivity. Qed.

Example example_two_blank_lines :
  parseMarkdown (doc ["- a"; ""; ""; "- b"]%string)
  = Ok [BList (ListNode false [ListItem [Text (str "a")] None]);
        BList (ListNode false [ListItem [Text (str "b")] None])].
Proof. vm_compute. reflexivity. Qed.

Example example_whitespace_line :
  parseMarkdown (doc ["a"; "   "; "b"]%string)
  = Ok [Paragraph [Text (str "a")]; Paragraph [Text (str "b")]].
Proof. vm_compute. reflexivity. Qed.

Example example_unterminated_fence :
  parseMarkdown (doc ["```"; " x "; "# y"]%string)
  = Ok [CodeBlock [] (doc [" x "; "# y"]%string)].
Proof. vm_compute. reflexivity. Qed.

(** * The claims *)

(** C1. Totality: for every input string [parseMarkdown] returns a sequence
    of block nodes (no exception, and the loops end); so does
    [parseInline] for every string; for the empty input the sequence of
    blocks is empty. *)
Theorem parseMarkdown_total :
  (forall S : jsstring, exists nodes, parseMarkdown S = Ok nodes) /\
  (forall S : jsstring, exists children, parseInline S = Ok children) /\
  parseMarkdown [] = Ok [].
Proof.
  split; [|split].
  - intros S. destruct (parseMarkdown_spec S) as [nodes [H _]]. eauto.
  - intros S. destruct (parseInline_spec S) as [nodes [H _]]. eauto.
  - reflexivity.
Qed.

(** C2. Inline coverage: the nodes returned by [parseInline S] cut [S] into
    consecutive pieces, one per node and in order, that concatenate to [S];
    each piece is the literal content or label of its node between the
    delimiters of the node's rule (none for text). *)
Theorem parseInline_covers (S : jsstring) :
  exists nodes pieces,
    parseInline S = Ok nodes /\
    Forall2 covers nodes pieces /\
    concat pieces = S.
Proof.
  destruct (parseInline_spec S) as [nodes [H [[pieces [HF Hc]] _]]].
  exists nodes, pieces. auto.
Qed.

(** C3. When [parseLine] is at a line whose trimmed form starts with the
    fence, it returns a code block whose content is the raw lines
    [i+1 .. j-1] joined by LF, where [j] is the first later fence line, which
    is consumed (the next index is [j+1]) and not part of the content; with
    no later fence line, [j] is the number of lines and the content is all
    the remaining lines. *)
Theorem codeblock_verbatim (lines : list jsstring) (i : nat) (first : jsstring) :
  nth_error lines i = Some first -> isFence first = true ->
  exists j,
    parseLine lines i
      = Ok (Some (CodeBlock (trim (skipn 3 (trim first)))
                    (join LF (slice (i + 1) j lines))), j + 1) /\
    i < j <= length lines /\
    (forall k l, i < k < j -> nth_error lines k = Some l -> isFence l = false) /\
    (forall l, nth_error lines j = Some l -> isFence l = true) /\
    (j = length lines -> slice (i + 1) j lines = skipn (i + 1) lines).
Proof.
  intros Hl Hfence.
  destruct (parseCodeBlock_spec lines i first Hl) as [j [Hrun [Hj [Hk Hstop]]]].
  exists j. unfold parseLine. rewrite (get_Some _ _ _ Hl). cbn [bind].
  rewrite (fence_not_empty _ Hfence). unfold isFence in Hfence. rewrite Hfence.
  repeat split; try assumption; try lia.
  intros ->. apply slice_to_end.
Qed.

Lemma codeblock_verbatim_witness :
  exists j,
    parseLine (map str ["```js"; "const a = 1;"; "```"; "after"]%string) 0
      = Ok (Some (CodeBlock (trim (skipn 3 (trim (str "```js"))))
                    (join LF (slice (0 + 1) j
                       (map str ["```js"; "const a = 1;"; "```"; "after"]%string)))),
            j + 1) /\
    0 < j <= length (map str ["```js"; "const a = 1;"; "```"; "after"]%string) /\
    (forall k l, 0 < k < j ->
       nth_error (map str ["```js"; "const a = 1;"; "```"; "after"]%string) k = Some l ->
       isFence l = false) /\
    (forall l,
       nth_error (map str ["```js"; "const a = 1;"; "```"; "after"]%string) j = Some l ->
       isFence l = true) /\
    (j = length (map str ["```js"; "const a = 1;"; "```"; "after"]%string) ->
     slice (0 + 1) j (map str ["```js"; "const a = 1;"; "```"; "after"]%string)
       = skipn (0 + 1) (map str ["```js"; "const a = 1;"; "```"; "after"]%string)).
Proof.
  apply (codeblock_verbatim
           (map str ["```js"; "const a = 1;"; "```"; "after"]%string) 0 (str "```js"));
    reflexivity.
Defined.

(** C4. Every list block of a document nests at most one level: a nested
    list has the opposite [ordered] flag and its items carry no list. The
    document of the example is one unordered list of three items whose
    second item carries an ordered list of two items. *)
Theorem nesting_one_level :
  (forall S : jsstring, exists blocks,
     parseMarkdown S = Ok blocks /\ forallb oneLevel blocks = true) /\
  parseMarkdown (doc ["- a"; "- b"; "  1. x"; "  2. y"; "- c"]%string)
    = Ok [BList (ListNode false
            [ListItem [Text (str "a")] None;
             ListItem [Text (str "b")]
               (Some (ListNode true
                  [ListItem [Text (str "x")] None;
                   ListItem [Text (str "y")] None]));
             ListItem [Text (str "c")] None])].
Proof.
  split; [|vm_compute; reflexivity].
  intros S. destruct (parseMarkdown_spec S) as [blocks [H Hok]].
  exists blocks. split; [exact H|].
  apply forallb_forall. intros b Hb. apply blockOk_oneLevel.
  rewrite Forall_forall in Hok. apply Hok. exact Hb.
Qed.

(** C5. No two consecutive nodes of a children sequence are text nodes:
    for what [parseInline] returns, and so for every children sequence of
    every block of a document; the reducer merges a text token into a
    preceding text node by concatenating the contents. *)
Theorem no_adjacent_text :
  (forall S : jsstring, exists nodes,
     parseInline S = Ok nodes /\ noAdjacentText nodes = true) /\
  (forall S : jsstring, exists blocks,
     parseMarkdown S = Ok blocks /\
     Forall (fun b => Forall (fun ch => noAdjacentText ch = true) (childrenOf b))
       blocks) /\
  (forall acc c0 c,
     mergeToken (acc ++ [Text c0]) (Text c) = acc ++ [Text (c0 ++ c)]).
Proof.
  split; [|split].
  - intros S. destruct (parseInline_spec S) as [nodes [H [_ [Hn _]]]]. eauto.
  - intros S. destruct (parseMarkdown_spec S) as [blocks [H Hok]].
    exists blocks. split; [exact H|].
    eapply Forall_impl; [|exact Hok]. intros b Hb.
    eapply Forall_impl; [|apply blockOk_children; exact Hb].
    intros ch [Hch _]. exact Hch.
  - intros acc c0 c. apply mergeToken_snoc.
Qed.







(** C8, as stated, fails: a line of three spaces is not empty before
    trimming and is whitespace only, yet [parseLine] gives no paragraph for
    it (it gives no node at all). *)
Lemma whitespace_line_not_paragraph :
  ~ (forall lines i l,
       nth_error lines i = Some l ->
       isEmpty l = false -> isEmpty (trim l) = true ->
       exists ch next, parseLine lines i = Ok (Some (Paragraph ch), next)).
Proof.
  intros H.
  destruct (H [str "   "] 0 (str "   ") eq_refl eq_refl eq_refl) as [ch [next Hnext]].
  vm_compute in Hnext. discriminate Hnext.
Qed.

(** C8, amended. A line whose trimmed form is empty, whether it is empty or
    whitespace only before trimming, gives no node and is skipped; a
    paragraph is only given for a line whose trimmed form is not empty, and
    its children are the inline nodes of that trimmed line. *)
Theorem blank_line_skipped (lines : list jsstring) (i : nat) (l : jsstring) :
  nth_error lines i = Some l ->
  (isEmpty (trim l) = true -> parseLine lines i = Ok (None, i + 1)) /\
  (forall ch next,
     parseLine lines i = Ok (Some (Paragraph ch), next) ->
     isEmpty (trim l) = false /\ parseInline (trim l) = Ok ch /\ next = i + 1).
Proof.
  intros Hl. unfold parseLine. rewrite (get_Some _ _ _ Hl). cbn [bind]. split.
  - intros ->. reflexivity.
  - intros ch next. destruct (isEmpty (trim l)); [discriminate|].
    destruct (test PATTERNS.codeBlockStart (trim l)).
    { destruct (parseCodeBlock_spec lines i l Hl) as [j [-> _]]. discriminate. }
    destruct (exec PATTERNS.heading (trim l)) as [m|] eqn:Hhead.
    { destruct (heading_match _ _ Hhead) as [hashes [label [-> [-> _]]]].
      cbn [bind]. destruct (parseInline label); discriminate. }
    destruct (test PATTERNS.hr (trim l)); [discriminate|].
    destruct (startsWith (str ">") (trim l)) eqn:Hq.
    { destruct (parseBlockquote_spec lines i l Hl Hq) as [c [j [-> _]]]. discriminate. }
    destruct (test PATTERNS.ordered (trim l) || test PATTERNS.unordered (trim l)) eqn:Hlist.
    { destruct (parseList_spec lines i l Hl Hlist) as [its [j [-> _]]]. discriminate. }
    destruct (parseInline (trim l)) as [c|e]; cbn [bind]; [|discriminate].
    intros H. injection H as <- <-. auto.
Qed.

Lemma blank_line_skipped_witness :
  parseLine [str "   "] 0 = Ok (None, 0 + 1) /\
  (isEmpty (trim (str "p")) = false /\
   parseInline (trim (str "p")) = Ok [Text (str "p")] /\ 1 = 0 + 1).
Proof.
  split.
  - apply (proj1 (blank_line_skipped [str "   "] 0 (str "   ") eq_refl)).
    reflexivity.
  - apply (proj2 (blank_line_skipped [str "p"] 0 (str "p") eq_refl)).
    reflexivity.
Defined.

(** C9. Every run of the body of the tokenizer's loop (entered when
    [remaining] is not empty) appends one token and cuts a non-empty prefix
    off [remaining], whether a rule matched or the text fallback ran, so what
    remains is strictly shorter; the loop ends with nothing remaining after
    at most [length text] runs, so [parseInline] returns for every string. *)
Theorem tokenizer_progress :
  (forall tokens remaining,
     hasRemaining (tokens, remaining) = true ->
     exists t consumed rest,
       inlineStep (tokens, remaining) = Ok (Continue (tokens ++ [t], rest)) /\
       remaining = consumed ++ rest /\
       1 <= length consumed /\
       length rest < length remaining) /\
  (forall text : jsstring, exists tokens,
     while (length text) hasRemaining inlineStep ([], text) = Ok (tokens, [])) /\
  (forall text : jsstring, exists nodes, parseInline text = Ok nodes).
Proof.
  split; [|split].
  - intros tokens remaining Hcond.
    assert (Hne : remaining <> []).
    { destruct remaining; [discriminate Hcond | discriminate]. }
    destruct (inlineStep_spec tokens remaining Hne) as [t [w [rest [Hs [Hr [_ Hl]]]]]].
    exists t, w, rest. repeat split; try assumption; try lia.
    rewrite Hr, length_app. lia.
  - intros text. destruct (tokenize_spec text) as [tokens [H _]]. eauto.
  - intros text. destruct (parseInline_spec text) as [nodes [H _]]. eauto.
Qed.

Lemma tokenizer_progress_witness :
  exists t consumed rest,
    inlineStep ([], str "*a") = Ok (Continue ([] ++ [t], rest)) /\
    str "*a" = consumed ++ rest /\
    1 <= length consumed /\
    length rest < length (str "*a").
Proof.
  apply (proj1 tokenizer_progress [] (str "*a")). reflexivity.
Defined.

(** C10. [parseInline] of the empty string is the single empty text node;
    [parseInline] never returns an empty sequence, so every children
    sequence of every block of a document has at least one child. *)
Theorem children_never_empty :
  parseInline [] = Ok [Text []] /\
  (forall S : jsstring, exists nodes,
     parseInline S = Ok nodes /\ 1 <= length nodes) /\
  (forall S : jsstring, exists blocks,
     parseMarkdown S = Ok blocks /\
     Forall (fun b => Forall (fun ch => 1 <= length ch) (childrenOf b)) blocks).
Proof.
  assert (Hlen : forall ch : list inline, goodChildren ch -> 1 <= length ch).
  { intros ch [_ Hne]. destruct ch; [congruence | simpl; lia]. }
  split; [reflexivity | split].
  - intros S. destruct (parseInline_good S) as [nodes [H Hg]]. eauto.
  - intros S. destruct (parseMarkdown_spec S) as [blocks [H Hok]].
    exists blocks. split; [exact H|].
    eapply Forall_impl; [|exact Hok]. intros b Hb.
    eapply Forall_impl; [|apply blockOk_children; exact Hb]. exact Hlen.
Qed.

(** * Further properties *)

(** ** The matcher takes the longest run first *)

(** A greedy repetition in front of input that cannot extend the run: when
    the continuation accepts what follows the whole run, that is the match. *)
Lemma rep_greedy {A : Type} (p : N -> bool) (w : jsstring) :
  forall lo hi (rest : jsstring) (k : jsstring -> option A) r,
  forallb p w = true -> lo <= length w ->
  (forall h, hi = Some h -> length w <= h) ->
  match rest with [] => True | c :: _ => p c = false end ->
  k rest = Some r ->
  rep p lo hi (w ++ rest) k = Some r.
Proof.
  induction w as [|x w IH]; intros lo hi rest k r Hall Hlo Hhi Hrest Hk.
  - simpl in Hlo. assert (lo = 0) by lia. subst lo. simpl.
    destruct rest as [|c rest]; simpl; [exact Hk|].
    rewrite Hrest. simpl. exact Hk.
  - simpl in Hall. apply andb_true_iff in Hall. destruct Hall as [Hx Hall].
    simpl. rewrite Hx.
    assert (Hcan : canRepeat hi = true).
    { destruct hi as [[|h]|]; try reflexivity.
      specialize (Hhi 0 eq_refl). simpl in Hhi. lia. }
    rewrite Hcan. simpl.
    rewrite (IH (pred lo) (option_map pred hi) rest k r); auto.
    + simpl in Hlo. lia.
    + intros h Hh. destruct hi as [h0|]; [|discriminate].
      simpl in Hh. injection Hh as <-. specialize (Hhi h0 eq_refl). simpl in Hhi. lia.
Qed.

Lemma takes_Chr c cs : Takes (Chr c) cs [c] cs anyRest.
Proof.
  intros rest k res _ Hk. simpl. rewrite N.eqb_refl. exact Hk.
Qed.

Lemma takes_Rep (p : N -> bool) lo hi w cs :
  forallb p w = true -> lo <= length w ->
  (forall h, hi = Some h -> length w <= h) ->
  Takes (Rep p lo hi) cs w cs (stops p).
Proof.
  intros Hall Hlo Hhi rest k res Hok Hk. simpl.
  apply rep_greedy; assumption.
Qed.

Lemma takes_Seq r1 r2 cs w1 cs1 w2 cs2 (ok1 ok2 : jsstring -> Prop) :
  Takes r1 cs w1 cs1 ok1 -> Takes r2 cs1 w2 cs2 ok2 ->
  (forall rest, ok2 rest -> ok1 (w2 ++ rest)) ->
  Takes (Seq r1 r2) cs (w1 ++ w2) cs2 ok2.
Proof.
  intros H1 H2 Hok rest k res Hrest Hk. simpl. rewrite <- app_assoc.
  apply H1; [apply Hok; exact Hrest|]. apply H2; assumption.
Qed.

Lemma takes_Grp n r cs w cs' (ok : jsstring -> Prop) :
  Takes r cs w cs' ok -> Takes (Grp n r) cs w (setCapture n w cs') ok.
Proof.
  intros H rest k res Hrest Hk. simpl. apply H; [exact Hrest|].
  rewrite firstn_app_exact. exact Hk.
Qed.

Lemma takes_AltL r1 r2 cs w cs' (ok : jsstring -> Prop) :
  Takes r1 cs w cs' ok -> Takes (Alt r1 r2) cs w cs' ok.
Proof.
  intros H rest k res Hrest Hk. simpl. rewrite (H rest k res Hrest Hk). reflexivity.
Qed.

Lemma takes_AltR r1 r2 cs w cs' (ok : jsstring -> Prop) :
  (forall rest k, rmatch r1 (w ++ rest) cs k = None) ->
  Takes r2 cs w cs' ok -> Takes (Alt r1 r2) cs w cs' ok.
Proof.
  intros Hfail H rest k res Hrest Hk. simpl. rewrite Hfail. apply H; assumption.
Qed.

Lemma startsWith_prefix (w rest : jsstring) : startsWith w (w ++ rest) = true.
Proof.
  induction w as [|x w IH]; simpl; [reflexivity|]. rewrite N.eqb_refl. exact IH.
Qed.

Lemma takes_Bref n cs w :
  cs n = Some w -> Takes (Bref n) cs w cs anyRest.
Proof.
  intros Hn rest k res _ Hk. simpl. rewrite Hn, startsWith_prefix, skipn_app_exact.
  exact Hk.
Qed.

Lemma takes_Eos cs : Takes Eos cs [] cs (fun rest => rest = []).
Proof. intros rest k res -> Hk. exact Hk. Qed.

Lemma takes_exec r w cs (ok : jsstring -> Prop) rest :
  Takes r noCaptures w cs ok -> ok rest ->
  exec r (w ++ rest) = Some (MatchResult w cs).
Proof.
  intros H Hok. unfold exec.
  rewrite (H rest (fun s' cs' => Some (s', cs')) (rest, cs) Hok eq_refl).
  rewrite firstn_app_exact. reflexivity.
Qed.

Lemma nonempty_length (c : jsstring) : isEmpty c = false -> 1 <= length c.
Proof. destruct c; simpl; [discriminate | lia]. Qed.

Lemma rmatch_Chr_other c d s cs k :
  N.eqb d c = false -> rmatch (Chr c) (d :: s) cs k = None.
Proof. intros H. simpl. rewrite H. reflexivity. Qed.

(** ** What each inline rule accepts *)

Ltac takes_steps :=
  repeat first
    [ eapply takes_Seq
    | apply takes_Chr
    | apply takes_Grp
    | apply takes_Bref; reflexivity
    | apply takes_Rep; [assumption | first [apply nonempty_length; assumption | lia]
                       | discriminate]
    | intros ? _; exact I
    | intros ? _; reflexivity ].

Lemma takes_image alt src :
  forallb (notChar "]") alt = true ->
  isEmpty src = false -> forallb (notChar ")") src = true ->
  Takes imagePattern noCaptures
    ([ch "!"] ++ [ch "["] ++ alt ++ [ch "]"] ++ [ch "("] ++ src ++ [ch ")"])
    (setCapture 2 src (setCapture 1 alt noCaptures)) anyRest.
Proof.
  intros Ha Hs Hsrc. unfold imagePattern, Lit, Star, Plus. takes_steps.
Qed.

Lemma takes_link text href :
  isEmpty text = false -> forallb (notChar "]") text = true ->
  isEmpty href = false -> forallb (notChar ")") href = true ->
  Takes linkPattern noCaptures
    ([ch "["] ++ text ++ [ch "]"] ++ [ch "("] ++ href ++ [ch ")"])
    (setCapture 2 href (setCapture 1 text noCaptures)) anyRest.
Proof.
  intros Ht Htext Hh Hhref. unfold linkPattern, Lit, Plus. takes_steps.
Qed.

Lemma takes_code c :
  isEmpty c = false -> forallb (notChar "`") c = true ->
  Takes codePattern noCaptures ([ch "`"] ++ c ++ [ch "`"])
    (setCapture 1 c noCaptures) anyRest.
Proof.
  intros Hc Hall. unfold codePattern, Lit, Plus. takes_steps.
Qed.

Lemma takes_strike c :
  isEmpty c = false -> forallb (notChar "~") c = true ->
  Takes strikePattern noCaptures
    ([ch "~"] ++ [ch "~"] ++ c ++ [ch "~"] ++ [ch "~"])
    (setCapture 1 c noCaptures) anyRest.
Proof.
  intros Hc Hall. unfold strikePattern, Lit, Plus. takes_steps.
Qed.

Lemma takes_bold_star c :
  isEmpty c = false ->
  forallb (fun x => notChar "*" x && notChar "_" x) c = true ->
  Takes boldPattern noCaptures
    (([ch "*"] ++ [ch "*"]) ++ c ++ ([ch "*"] ++ [ch "*"]))
    (setCapture 2 c (setCapture 1 ([ch "*"] ++ [ch "*"]) noCaptures)) anyRest.
Proof.
  intros Hc Hall. unfold boldPattern, Lit, Plus.
  eapply takes_Seq; [apply takes_Grp; apply takes_AltL; takes_steps | |].
  - eapply takes_Seq; [apply takes_Grp; takes_steps | takes_steps |].
    intros rest _. reflexivity.
  - intros rest _. exact I.
Qed.

Lemma takes_bold_underscore c :
  isEmpty c = false ->
  forallb (fun x => notChar "*" x && notChar "_" x) c = true ->
  Takes boldPattern noCaptures
    (([ch "_"] ++ [ch "_"]) ++ c ++ ([ch "_"] ++ [ch "_"]))
    (setCapture 2 c (setCapture 1 ([ch "_"] ++ [ch "_"]) noCaptures)) anyRest.
Proof.
  intros Hc Hall. unfold boldPattern, Lit, Plus.
  eapply takes_Seq;
    [apply takes_Grp; apply takes_AltR; [intros; reflexivity | takes_steps] | |].
  - eapply takes_Seq; [apply takes_Grp; takes_steps | takes_steps |].
    intros rest _. reflexivity.
  - intros rest _. exact I.
Qed.

Lemma takes_italic_star c :
  isEmpty c = false ->
  forallb (fun x => notChar "*" x && notChar "_" x) c = true ->
  Takes italicPattern noCaptures ([ch "*"] ++ c ++ [ch "*"])
    (setCapture 2 c (setCapture 1 [ch "*"] noCaptures)) anyRest.
Proof.
  intros Hc Hall. unfold italicPattern, Lit, Plus.
  eapply takes_Seq; [apply takes_Grp; apply takes_AltL; takes_steps | |].
  - eapply takes_Seq; [apply takes_Grp; takes_steps | takes_steps |].
    intros rest _. reflexivity.
  - intros rest _. exact I.
Qed.

Lemma takes_italic_underscore c :
  isEmpty c = false ->
  forallb (fun x => notChar "*" x && notChar "_" x) c = true ->
  Takes italicPattern noCaptures ([ch "_"] ++ c ++ [ch "_"])
    (setCapture 2 c (setCapture 1 [ch "_"] noCaptures)) anyRest.
Proof.
  intros Hc Hall. unfold italicPattern, Lit, Plus.
  eapply takes_Seq;
    [apply takes_Grp; apply takes_AltR; [intros; reflexivity | takes_steps] | |].
  - eapply takes_Seq; [apply takes_Grp; takes_steps | takes_steps |].
    intros rest _. reflexivity.
  - intros rest _. exact I.
Qed.

(** ** Where each inline rule can start *)

Lemma rules_named :
  map fst rules
  = [imagePattern; linkPattern; codePattern; boldPattern; italicPattern;
     strikePattern].
Proof. reflexivity. Qed.

Ltac start_of H :=
  apply exec_sound in H; destruct H as [? [? H]];
  match type of H with
  | Matches _ _ (whole ?m) _ _ => destruct m; simpl in *
  end;
  subst; inv_matches.

Lemma image_start s m :
  exec imagePattern s = Some m -> exists s', s = ch "!" :: s'.
Proof.
  intros H. unfold imagePattern, Lit, Star, Plus in H. start_of H.
  eexists. reflexivity.
Qed.

Lemma link_start s m :
  exec linkPattern s = Some m -> exists s', s = ch "[" :: s'.
Proof.
  intros H. unfold linkPattern, Lit, Plus in H. start_of H.
  eexists. reflexivity.
Qed.

Lemma code_start s m :
  exec codePattern s = Some m -> exists s', s = ch "`" :: s'.
Proof.
  intros H. unfold codePattern, Lit, Plus in H. start_of H.
  eexists. reflexivity.
Qed.

Lemma strike_start s m :
  exec strikePattern s = Some m -> exists s', s = ch "~" :: s'.
Proof.
  intros H. unfold strikePattern, Lit, Plus in H. start_of H.
  eexists. reflexivity.
Qed.

Lemma bold_start s m :
  exec boldPattern s = Some m ->
  exists d s', s = d :: d :: s' /\ (d = ch "*" \/ d = ch "_").
Proof.
  intros H. unfold boldPattern, Lit, Plus in H. start_of H;
    do 2 eexists; (split; [reflexivity|]); [left | right]; reflexivity.
Qed.

Lemma italic_start s m :
  exec italicPattern s = Some m ->
  exists d s', s = d :: s' /\ (d = ch "*" \/ d = ch "_").
Proof.
  intros H. unfold italicPattern, Lit, Plus in H. start_of H;
    do 2 eexists; (split; [reflexivity|]); [left | right]; reflexivity.
Qed.

Lemma firstRule_rules (s : jsstring) :
  firstRule rules s =
  match exec imagePattern s with
  | Some m =>
      Some (alt <- cap m 1 ;; src <- cap m 2 ;; Ok (Image alt src),
            skipn (length (whole m)) s)
  | None =>
  match exec linkPattern s with
  | Some m =>
      Some (text <- cap m 1 ;; href <- cap m 2 ;; Ok (Link text href),
            skipn (length (whole m)) s)
  | None =>
  match exec codePattern s with
  | Some m => Some (c <- cap m 1 ;; Ok (Code c), skipn (length (whole m)) s)
  | None =>
  match exec boldPattern s with
  | Some m => Some (c <- cap m 2 ;; Ok (Bold c), skipn (length (whole m)) s)
  | None =>
  match exec italicPattern s with
  | Some m => Some (c <- cap m 2 ;; Ok (Italic c), skipn (length (whole m)) s)
  | None =>
  match exec strikePattern s with
  | Some m => Some (c <- cap m 1 ;; Ok (Strike c), skipn (length (whole m)) s)
  | None => None
  end end end end end end.
Proof. reflexivity. Qed.

(** No rule matches in front of a character that is not special. *)
Lemma firstRule_plain d s :
  isSpecial d = false -> firstRule rules (d :: s) = None.
Proof.
  intros Hd. rewrite firstRule_rules.
  destruct (exec imagePattern (d :: s)) as [m|] eqn:E1.
  { apply image_start in E1. destruct E1 as [s' E]. injection E as -> _.
    discriminate Hd. }
  destruct (exec linkPattern (d :: s)) as [m|] eqn:E2.
  { apply link_start in E2. destruct E2 as [s' E]. injection E as -> _.
    discriminate Hd. }
  destruct (exec codePattern (d :: s)) as [m|] eqn:E3.
  { apply code_start in E3. destruct E3 as [s' E]. injection E as -> _.
    discriminate Hd. }
  destruct (exec boldPattern (d :: s)) as [m|] eqn:E4.
  { apply bold_start in E4. destruct E4 as [d' [s' [E [-> | ->]]]];
      injection E as -> _; discriminate Hd. }
  destruct (exec italicPattern (d :: s)) as [m|] eqn:E5.
  { apply italic_start in E5. destruct E5 as [d' [s' [E [-> | ->]]]];
      injection E as -> _; discriminate Hd. }
  destruct (exec strikePattern (d :: s)) as [m|] eqn:E6.
  { apply strike_start in E6. destruct E6 as [s' E]. injection E as -> _.
    discriminate Hd. }
  reflexivity.
Qed.

Ltac no_rule lemma :=
  match goal with
  | |- context [match exec ?p ?s with _ => _ end] =>
      let E := fresh "E" in
      let m := fresh "m" in
      destruct (exec p s) as [m|] eqn:E;
      [ exfalso; apply lemma in E; simpl in E;
        repeat match type of E with
               | exists _, _ => let x := fresh "x" in destruct E as [x E]
               | _ /\ _ => let E' := fresh "E" in destruct E as [E E']
               end
      | ]
  end.

Ltac start_clash :=
  match goal with
  | Heq : _ :: _ = _ :: _ |- False =>
      injection Heq; intros; subst;
      repeat match goal with Hd : _ \/ _ |- _ => destruct Hd end;
      first [ discriminate
            | match goal with
              | Hx : _ && _ = true |- _ => vm_compute in Hx; discriminate Hx
              end ]
  end.

Lemma canonical_first (p : N -> bool) (c : jsstring) :
  isEmpty c = false -> forallb p c = true ->
  exists x c', c = x :: c' /\ p x = true.
Proof.
  destruct c as [|x c']; [discriminate|]. intros _ H. simpl in H.
  apply andb_true_iff in H. destruct H as [H _]. eauto.
Qed.

(** In front of the markup of a canonical node that is not text, the first
    rule that matches is the node's own, and it takes exactly the markup. *)
Ltac own_rule pat lemma :=
  match goal with
  | |- context [exec pat (?w ++ ?rest)] =>
      let Hown := fresh "Hown" in
      eassert (Hown : exec pat (w ++ rest) = Some (MatchResult w _))
        by (eapply takes_exec; [apply lemma; assumption | exact I]);
      rewrite Hown; cbn [whole]; rewrite skipn_app_exact; reflexivity
  end.

Lemma firstRule_piece t w rest :
  canonical t = true -> isText t = false -> covers t w ->
  firstRule rules (w ++ rest) = Some (Ok t, rest).
Proof.
  intros Hcan Htext [o [cl [Hin ->]]]. rewrite firstRule_rules.
  destruct t as [c|c|c|c|c|text href|alt src]; try discriminate Htext;
    simpl in Hin, Hcan; cbn [visible];
    repeat match goal with
           | H : _ && _ = true |- _ => apply andb_true_iff in H; destruct H
           | H : negb _ = true |- _ => apply negb_true_iff in H
           end.
  - (* bold *)
    destruct Hin as [Hin|[Hin|[]]]; injection Hin as <- <-.
    + no_rule image_start; [start_clash|].
      no_rule link_start; [start_clash|].
      no_rule code_start; [start_clash|].
      own_rule boldPattern takes_bold_star.
    + no_rule image_start; [start_clash|].
      no_rule link_start; [start_clash|].
      no_rule code_start; [start_clash|].
      own_rule boldPattern takes_bold_underscore.
  - (* italic *)
    destruct (canonical_first _ c H H0) as [x [c' [-> Hx]]].
    destruct Hin as [Hin|[Hin|[]]]; injection Hin as <- <-.
    + no_rule image_start; [start_clash|].
      no_rule link_start; [start_clash|].
      no_rule code_start; [start_clash|].
      no_rule bold_start; [start_clash|].
      own_rule italicPattern takes_italic_star.
    + no_rule image_start; [start_clash|].
      no_rule link_start; [start_clash|].
      no_rule code_start; [start_clash|].
      no_rule bold_start; [start_clash|].
      own_rule italicPattern takes_italic_underscore.
  - (* strike *)
    destruct Hin as [Hin|[]]; injection Hin as <- <-.
    no_rule image_start; [start_clash|].
    no_rule link_start; [start_clash|].
    no_rule code_start; [start_clash|].
    no_rule bold_start; [start_clash|].
    no_rule italic_start; [start_clash|].
    own_rule strikePattern takes_strike.
  - (* code *)
    destruct Hin as [Hin|[]]; injection Hin as <- <-.
    no_rule image_start; [start_clash|].
    no_rule link_start; [start_clash|].
    own_rule codePattern takes_code.
  - (* link *)
    destruct Hin as [Hin|[]]; injection Hin as <- <-.
    no_rule image_start; [start_clash|].
    own_rule linkPattern takes_link.
  - (* image *)
    destruct Hin as [Hin|[]]; injection Hin as <- <-.
    own_rule imagePattern takes_image.
Qed.

(** ** Tokenizing markup of canonical nodes *)

Lemma search_plain (c : jsstring) :
  forallb (fun x => negb (isSpecial x)) c = true -> search isSpecial c = (-1)%Z.
Proof.
  induction c as [|x c IH]; [reflexivity|]. simpl. intros H.
  apply andb_true_iff in H. destruct H as [Hx Hc].
  apply negb_true_iff in Hx. rewrite Hx, (IH Hc). reflexivity.
Qed.

Lemma search_plain_then_special (c : jsstring) d r :
  forallb (fun x => negb (isSpecial x)) c = true -> isSpecial d = true ->
  search isSpecial (c ++ d :: r) = Z.of_nat (length c).
Proof.
  intros Hc Hd. induction c as [|x c IH].
  - simpl. rewrite Hd. reflexivity.
  - simpl in Hc. apply andb_true_iff in Hc. destruct Hc as [Hx Hc].
    apply negb_true_iff in Hx.
    change ((x :: c) ++ d :: r) with (x :: (c ++ d :: r)).
    cbn [search]. rewrite Hx, (IH Hc).
    destruct (Z.of_nat (length c) =? -1)%Z eqn:E; [apply Z.eqb_eq in E; lia|].
    cbn [length]. lia.
Qed.

Lemma piece_special_start t w :
  isText t = false -> covers t w ->
  exists d w', w = d :: w' /\ isSpecial d = true.
Proof.
  intros Htext [o [cl [Hin ->]]].
  destruct t; try discriminate Htext; simpl in Hin;
    repeat (destruct Hin as [Hin|Hin]; [injection Hin as <- <-|]);
    try contradiction; do 2 eexists; split; reflexivity.
Qed.

Lemma piece_nonempty t w :
  canonical t = true -> covers t w -> 1 <= length w.
Proof.
  intros Hcan Hcov. destruct (isText t) eqn:Htext.
  - destruct t; try discriminate Htext. apply covers_Text_inv in Hcov. subst w.
    simpl in Hcan. apply andb_true_iff in Hcan. destruct Hcan as [Hne _].
    apply negb_true_iff in Hne. apply nonempty_length. exact Hne.
  - destruct (piece_special_start t w Htext Hcov) as [d [w' [-> _]]]. simpl. lia.
Qed.

Lemma step_text acc c r :
  canonical (Text c) = true -> afterText r ->
  inlineStep (acc, c ++ r) = Ok (Continue (acc ++ [Text c], r)).
Proof.
  intros Hcan Hr. simpl in Hcan. apply andb_true_iff in Hcan.
  destruct Hcan as [Hne Hplain]. apply negb_true_iff in Hne.
  destruct c as [|x c]; [discriminate Hne|].
  assert (Hx : isSpecial x = false).
  { simpl in Hplain. apply andb_true_iff in Hplain. destruct Hplain as [Hx _].
    apply negb_true_iff in Hx. exact Hx. }
  unfold inlineStep.
  change ((x :: c) ++ r) with (x :: (c ++ r)). rewrite (firstRule_plain x (c ++ r) Hx).
  change (x :: (c ++ r)) with ((x :: c) ++ r).
  destruct r as [|d r].
  - rewrite app_nil_r, (search_plain _ Hplain).
    change ((-1 =? -1)%Z) with true. cbv iota.
    rewrite firstn_all, skipn_all. reflexivity.
  - simpl in Hr. rewrite (search_plain_then_special _ d r Hplain Hr).
    destruct (Z.of_nat (length (x :: c)) =? -1)%Z eqn:E1; [apply Z.eqb_eq in E1; lia|].
    destruct (Z.of_nat (length (x :: c)) =? 0)%Z eqn:E2;
      [apply Z.eqb_eq in E2; simpl in E2; lia|].
    rewrite Nat2Z.id.
    rewrite firstn_app, Nat.sub_diag, firstn_all. cbn [firstn].
    rewrite app_nil_r, skipn_app_exact. reflexivity.
Qed.

Lemma step_rule acc t w r :
  canonical t = true -> isText t = false -> covers t w ->
  inlineStep (acc, w ++ r) = Ok (Continue (acc ++ [t], r)).
Proof.
  intros Hcan Htext Hcov. unfold inlineStep.
  rewrite (firstRule_piece t w r Hcan Htext Hcov). reflexivity.
Qed.

Lemma tokenize_pieces ts pieces :
  Forall2 covers ts pieces ->
  forall acc fuel,
  forallb canonical ts = true -> noAdjacentText ts = true ->
  length (concat pieces) <= fuel ->
  while fuel hasRemaining inlineStep (acc, concat pieces) = Ok (acc ++ ts, []).
Proof.
  induction 1 as [|t w ts pieces Hcov HF IH]; intros acc fuel Hcan Hadj Hfuel.
  - simpl. rewrite app_nil_r. destruct fuel; reflexivity.
  - cbn [forallb] in Hcan. apply andb_true_iff in Hcan. destruct Hcan as [Ht Hts].
    cbn [concat] in *. rewrite length_app in Hfuel.
    pose proof (piece_nonempty t w Ht Hcov) as Hw.
    destruct fuel as [|fuel]; [lia|].
    assert (Hadj' : noAdjacentText ts = true).
    { simpl in Hadj. apply andb_true_iff in Hadj. tauto. }
    assert (Hcond : hasRemaining (acc, w ++ concat pieces) = true).
    { unfold hasRemaining. simpl. destruct w; [simpl in Hw; lia | reflexivity]. }
    assert (Hstep : inlineStep (acc, w ++ concat pieces)
                    = Ok (Continue (acc ++ [t], concat pieces))).
    { destruct (isText t) eqn:Htext.
      - destruct t; try discriminate Htext.
        apply covers_Text_inv in Hcov. subst w. apply step_text; [exact Ht|].
        inversion HF as [|t' w' ts' pieces' Hcov' HF' E1 E2]; subst; [exact I|].
        simpl in Hadj. apply andb_true_iff in Hadj. destruct Hadj as [Hadj _].
        apply negb_true_iff in Hadj.
        destruct (piece_special_start t' w' Hadj Hcov') as [d [w'' [-> Hd]]].
        exact Hd.
      - apply step_rule; assumption. }
    rewrite (while_continue _ _ _ _ _ Hcond Hstep).
    replace (acc ++ t :: ts) with ((acc ++ [t]) ++ ts)
      by (rewrite <- app_assoc; reflexivity).
    apply IH; [exact Hts | exact Hadj' | lia].
Qed.

Lemma noAdjacentText_mid l x t r :
  noAdjacentText (l ++ x :: t :: r) = true -> isText x && isText t = false.
Proof.
  induction l as [|a l IH]; intros H.
  - simpl in H. apply andb_true_iff in H. destruct H as [H _].
    apply negb_true_iff in H. exact H.
  - apply IH. change ((a :: l) ++ x :: t :: r) with (a :: (l ++ x :: t :: r)) in H.
    cbn [noAdjacentText] in H. apply andb_true_iff in H. tauto.
Qed.

(** Merging leaves a sequence without neighbouring text nodes as it is. *)
Lemma merge_id ts :
  forall acc, noAdjacentText (acc ++ ts) = true ->
  fold_left mergeToken ts acc = acc ++ ts.
Proof.
  induction ts as [|t ts IH]; intros acc H; simpl.
  - symmetry. apply app_nil_r.
  - assert (Hm : mergeToken acc t = acc ++ [t]).
    { destruct (snoc_cases acc) as [->|[acc' [x ->]]].
      - apply mergeToken_nil.
      - rewrite mergeToken_snoc. rewrite <- app_assoc in H.
        apply noAdjacentText_mid in H.
        destruct t, x; try (rewrite <- app_assoc; reflexivity). discriminate H. }
    rewrite Hm, IH; rewrite <- app_assoc; [reflexivity | exact H].
Qed.

(** X1. Markup of canonical nodes is read back as those nodes: when [ts]
    are canonical, no two neighbours are text, and [pieces] are their
    markups (content between the delimiters of the rule, either style for
    bold and italic), [parseInline] of the concatenated markups is [ts]. *)
Theorem parseInline_of_markup (ts : list inline) (pieces : list jsstring) :
  Forall2 covers ts pieces ->
  forallb canonical ts = true -> noAdjacentText ts = true -> ts <> [] ->
  parseInline (concat pieces) = Ok ts.
Proof.
  intros Hcov Hcan Hadj Hne. unfold parseInline.
  assert (Hlen : 1 <= length (concat pieces)).
  { destruct Hcov as [|t w ts pieces Ht _]; [congruence|].
    simpl in Hcan. apply andb_true_iff in Hcan. destruct Hcan as [Hc _].
    simpl. rewrite length_app. pose proof (piece_nonempty t w Hc Ht). lia. }
  pose proof (tokenize_pieces ts pieces Hcov [] (length (concat pieces))
                Hcan Hadj (le_n _)) as Hrun.
  destruct (isEmpty (concat pieces)) eqn:E.
  { destruct (concat pieces); [simpl in Hlen; lia | discriminate E]. }
  match goal with
  | |- context [while ?f ?c ?b ?s] =>
      replace (while f c b s) with (Ok (ts, @nil N)) by (symmetry; exact Hrun)
  end.
  cbn [bind]. rewrite (merge_id ts []); [reflexivity | exact Hadj].
Qed.

Lemma parseInline_of_markup_witness :
  parseInline
    (concat [str "see "; str "[docs](/pages/d)"; str " and "; str "__this__";
             str "*too*"])
  = Ok [Text (str "see "); Link (str "docs") (str "/pages/d");
        Text (str " and "); Bold (str "this"); Italic (str "too")].
Proof.
  apply (parseInline_of_markup
           [Text (str "see "); Link (str "docs") (str "/pages/d");
            Text (str " and "); Bold (str "this"); Italic (str "too")]
           [str "see "; str "[docs](/pages/d)"; str " and "; str "__this__";
            str "*too*"]);
    [ | reflexivity | reflexivity | discriminate ].
  repeat constructor;
    do 2 eexists;
    first [ split; [left; reflexivity | reflexivity]
          | split; [right; left; reflexivity | reflexivity] ].
Defined.

(** ** The nodes the tokenizer builds are well formed *)

Lemma length_nonempty (w : jsstring) : 1 <= length w -> negb (isEmpty w) = true.
Proof. destruct w; simpl; [lia | reflexivity]. Qed.

Lemma rules_canonical pattern handler (s : jsstring) (m : matchResult) :
  In (pattern, handler) rules -> exec pattern s = Some m ->
  exists t, handler m = Ok t /\ canonical t = true /\ isText t = false.
Proof.
  intros Hin Hexec. apply exec_sound in Hexec.
  destruct Hexec as [rest [_ HM]]. destruct m as [w g]. simpl in HM |- *.
  simpl in Hin.
  repeat (destruct Hin as [Hin|Hin];
          [injection Hin as <- <-; unfold Lit, Plus, Star in HM; inv_matches;
           (cbn [bind cap group setCapture Nat.eqb];
            eexists; split; [reflexivity|]; split; [|reflexivity];
            cbn [canonical];
            repeat (apply andb_true_iff; split);
            first [assumption | apply length_nonempty; assumption]) |]).
  contradiction.
Qed.

Lemma firstRule_canonical rs (s : jsstring) tok rest :
  incl rs rules -> firstRule rs s = Some (tok, rest) ->
  exists t, tok = Ok t /\ wellFormed t = true.
Proof.
  induction rs as [|[pattern handler] rs IH]; intros Hincl H; simpl in H.
  - discriminate.
  - destruct (exec pattern s) as [m|] eqn:E.
    + injection H as <- _.
      assert (Hin : In (pattern, handler) rules) by (apply Hincl; left; reflexivity).
      destruct (rules_canonical _ _ _ _ Hin E) as [t [Ht [Hcan Htext]]].
      exists t. split; [exact Ht|]. destruct t; try exact Hcan. discriminate Htext.
    + apply IH; [|exact H]. intros x Hx. apply Hincl. right. exact Hx.
Qed.

Lemma mergeToken_wellFormed acc t :
  forallb wellFormed acc = true -> wellFormed t = true ->
  forallb wellFormed (mergeToken acc t) = true.
Proof.
  intros Hacc Ht. destruct (snoc_cases acc) as [->|[acc' [x ->]]].
  - rewrite mergeToken_nil. simpl. rewrite Ht. reflexivity.
  - rewrite forallb_app in Hacc. apply andb_true_iff in Hacc.
    destruct Hacc as [Hacc' Hx]. simpl in Hx. rewrite andb_true_r in Hx.
    rewrite mergeToken_snoc.
    assert (Hgen : forallb wellFormed (acc' ++ [x; t]) = true).
    { rewrite forallb_app, Hacc'. simpl. rewrite Hx, Ht. reflexivity. }
    destruct t; try exact Hgen. destruct x; try exact Hgen.
    rewrite forallb_app, Hacc'. simpl. rewrite andb_true_r.
    simpl in Hx. destruct content0; [discriminate Hx | reflexivity].
Qed.

Lemma merge_wellFormed ts :
  forall acc, forallb wellFormed acc = true -> forallb wellFormed ts = true ->
  forallb wellFormed (fold_left mergeToken ts acc) = true.
Proof.
  induction ts as [|t ts IH]; intros acc Hacc Hts; simpl; [exact Hacc|].
  simpl in Hts. apply andb_true_iff in Hts. destruct Hts as [Ht Hts].
  apply IH; [apply mergeToken_wellFormed; assumption | exact Hts].
Qed.

Lemma tokenize_wellFormed (text : jsstring) :
  exists tokens rest,
    while (length text) hasRemaining inlineStep ([], text) = Ok (tokens, rest) /\
    forallb wellFormed tokens = true.
Proof.
  destruct (while_rule
    (fun st : list inline * jsstring => forallb wellFormed (fst st) = true)
    (fun st => forallb wellFormed (fst st) = true)
    (fun st => length (snd st))
    hasRemaining inlineStep) with
    (fuel := length text) (s := (@nil inline, text)) as [[tokens rest] [Hrun HQ]].
  - intros st H _. exact H.
  - intros [tokens remaining] Hinv Hcond.
    unfold hasRemaining in Hcond. cbn [fst snd] in *.
    assert (Hne : remaining <> []) by (destruct remaining; [discriminate | congruence]).
    split; [destruct remaining; simpl; [congruence | lia]|].
    destruct (inlineStep_spec tokens remaining Hne)
      as [t [w [rest [Hstep [Hr [Hcov Hlen]]]]]].
    eexists. split; [exact Hstep|]. cbn [fst snd]. split.
    + rewrite forallb_app, Hinv. simpl. rewrite andb_true_r.
      unfold inlineStep in Hstep.
      destruct (firstRule rules remaining) as [[tok rest']|] eqn:E.
      * destruct (firstRule_canonical rules remaining tok rest' (incl_refl _) E)
          as [t' [-> Hwf]].
        simpl in Hstep. injection Hstep as Ht _.
        apply app_inj_tail in Ht. destruct Ht as [_ <-]. exact Hwf.
      * injection Hstep as Ht _. apply app_inj_tail in Ht. destruct Ht as [_ <-].
        apply covers_Text_inv in Hcov. subst w. simpl.
        destruct (firstn _ remaining); [simpl in Hlen; lia | reflexivity].
    + rewrite Hr, length_app. lia.
  - reflexivity.
  - cbn [snd]. lia.
  - exists tokens, rest. auto.
Qed.

Lemma parseInline_nodes_wellFormed (c : N) (text : jsstring) :
  exists nodes,
    parseInline (c :: text) = Ok nodes /\ forallb wellFormed nodes = true.
Proof.
  destruct (tokenize_wellFormed (c :: text)) as [tokens [rest [Hrun Hwf]]].
  exists (fold_left mergeToken tokens []). split.
  - unfold parseInline. cbn [isEmpty].
    match goal with
    | |- context [while ?f ?c ?b ?s] =>
        replace (while f c b s) with (Ok (tokens, rest)) by (symmetry; exact Hrun)
    end.
    reflexivity.
  - apply merge_wellFormed; [reflexivity | exact Hwf].
Qed.

(** X2. On a non-empty input [parseInline] returns well-formed nodes only:
    no text node is empty, and the content of every other node is what its
    pattern admits (non-empty and free of the excluded characters; the alt
    of an image may be empty, its source and the target of a link not). *)
Theorem parseInline_wellFormed (c : N) (text : jsstring) :
  exists nodes,
    parseInline (c :: text) = Ok nodes /\ forallb wellFormed nodes = true.
Proof. exact (parseInline_nodes_wellFormed c text). Qed.

(** ** Thematic breaks and headings *)

Lemma rep_fail_first {A : Type} (p : N -> bool) lo hi (s : jsstring)
    (k : jsstring -> option A) :
  1 <= lo -> stops p s -> rep p lo hi s k = None.
Proof.
  intros Hlo Hs. destruct lo as [|lo]; [lia|].
  destruct s as [|c s]; simpl; [reflexivity|].
  simpl in Hs. rewrite Hs. reflexivity.
Qed.

Lemma run_other (a b : ascii) (w : jsstring) :
  a <> b -> forallb (isChar a) w = true -> 1 <= length w ->
  forall rest, stops (isChar b) (w ++ rest).
Proof.
  intros Hab Hall Hlen rest. destruct w as [|c w]; [simpl in Hlen; lia|].
  simpl in Hall |- *. apply andb_true_iff in Hall. destruct Hall as [Hc _].
  unfold isChar in *. apply N.eqb_eq in Hc. subst c. apply N.eqb_neq.
  intros E. apply Hab. unfold ch in E.
  rewrite <- (ascii_N_embedding a), <- (ascii_N_embedding b), E. reflexivity.
Qed.

Lemma isRun_spec (a : ascii) (s : jsstring) :
  isRun a s = true <-> forallb (isChar a) s = true /\ 3 <= length s.
Proof.
  unfold isRun. rewrite andb_true_iff, Nat.leb_le. tauto.
Qed.

Lemma takes_run (a : ascii) (s : jsstring) cs :
  isRun a s = true -> Takes (AtLeast 3 (isChar a)) cs s cs (stops (isChar a)).
Proof.
  intros H. apply isRun_spec in H. destruct H as [Hall Hlen].
  apply takes_Rep; [exact Hall | exact Hlen | discriminate].
Qed.

Lemma run_fails (a b : ascii) (w : jsstring) cs :
  a <> b -> isRun a w = true ->
  forall rest k, rmatch (AtLeast 3 (isChar b)) (w ++ rest) cs k = None.
Proof.
  intros Hab H rest k. apply isRun_spec in H. destruct H as [Hall Hlen].
  simpl. apply rep_fail_first; [lia|].
  apply (run_other a b); [exact Hab | exact Hall | lia].
Qed.

Lemma hr_test (s : jsstring) : test PATTERNS.hr s = isRule s.
Proof.
  destruct (isRule s) eqn:R.
  - assert (HT : exists cs, Takes PATTERNS.hr noCaptures (s ++ []) cs
                              (fun rest => rest = [])).
    { unfold isRule in R. unfold PATTERNS.hr.
      destruct (isRun "-" s) eqn:R1; [|destruct (isRun "*" s) eqn:R2].
      - eexists. eapply takes_Seq; [apply takes_Grp; apply takes_AltL;
          apply takes_AltL; apply takes_run; exact R1 | apply takes_Eos |].
        intros rest ->. exact I.
      - eexists. eapply takes_Seq; [apply takes_Grp; apply takes_AltL;
          apply takes_AltR;
          [apply (run_fails "*" "-"); [discriminate | exact R2]
          | apply takes_run; exact R2] | apply takes_Eos |].
        intros rest ->. exact I.
      - simpl in R.
        eexists. eapply takes_Seq; [apply takes_Grp; apply takes_AltR;
          [intros rest k; cbn [rmatch];
           rewrite (run_fails "_" "-" s noCaptures) by (discriminate || exact R);
           apply (run_fails "_" "*"); [discriminate | exact R]
          | apply takes_run; exact R] | apply takes_Eos |].
        intros rest ->. exact I. }
    destruct HT as [cs HT]. apply (exec_test _ _ (MatchResult (s ++ []) cs)).
    rewrite <- (app_nil_r s) at 1. rewrite <- (app_nil_r (s ++ [])) at 1.
    apply (takes_exec _ _ _ _ [] HT). reflexivity.
  - destruct (test PATTERNS.hr s) eqn:T; [|reflexivity].
    destruct (test_exec _ _ T) as [m Hm].
    apply exec_sound in Hm. destruct Hm as [rest [Hs HM]].
    destruct m as [w g]. simpl in Hs, HM. unfold PATTERNS.hr, AtLeast in HM.
    assert (R' : isRule s = true); [|congruence].
    unfold isRule.
    inv_matches;
      (repeat rewrite app_nil_r;
       match goal with
       | Hd : forallb (isChar ?a) ?d = true, Hl : 3 <= length ?d |- _ =>
           pose proof (proj2 (isRun_spec a d) (conj Hd Hl)) as Hr
       end;
       rewrite Hr; repeat rewrite orb_true_r; reflexivity).
Qed.

(** Case analysis on the calls a result in hypothesis [H] is bound to. *)
Ltac run_binds H :=
  repeat match type of H with
         | context [bind ?m _] =>
             let x := fresh "x" in
             destruct m as [x|?] eqn:?; cbn [bind] in H;
             [ try match type of x with
                   | (_ * _)%type => destruct x
                   end
             | ]
         end.

Lemma rule_line (s : jsstring) :
  isRule s = true ->
  isEmpty s = false /\ test PATTERNS.codeBlockStart s = false /\
  exec PATTERNS.heading s = None.
Proof.
  intros R. rewrite <- hr_test in R.
  destruct (hr_first_two s R) as [a [s' [-> Ha]]].
  split; [reflexivity|]. split.
  - destruct (test PATTERNS.codeBlockStart _) eqn:T; [|reflexivity].
    destruct (fence_first _ T) as [x E]. injection E as E _.
    destruct Ha as [-> | [-> | ->]]; discriminate E.
  - destruct (exec PATTERNS.heading _) as [m|] eqn:T; [|reflexivity].
    destruct (heading_first _ _ T) as [x E]. injection E as E _.
    destruct Ha as [-> | [-> | ->]]; discriminate E.
Qed.

(** X3. [parseLine] answers with a thematic break exactly at the lines that,
    trimmed, are three or more copies of one of the characters "-", "*" and
    "_": at such a line it returns [Hr] and moves on by one line, and at no
    other line does it return [Hr]. *)
Theorem parseLine_hr (lines : list jsstring) (i : nat) (l : jsstring) :
  nth_error lines i = Some l ->
  (isRule (trim l) = true -> parseLine lines i = Ok (Some Hr, i + 1)) /\
  (forall j, parseLine lines i = Ok (Some Hr, j) -> isRule (trim l) = true).
Proof.
  intros Hl. split.
  - intros R. destruct (rule_line _ R) as [He [Hf Hh]].
    unfold parseLine. rewrite (get_Some _ _ _ Hl). cbn [bind].
    rewrite He, Hf, Hh, hr_test, R. reflexivity.
  - intros j H. unfold parseLine in H. rewrite (get_Some _ _ _ Hl) in H.
    cbn [bind] in H.
    destruct (isEmpty (trim l)); [discriminate H|].
    destruct (test PATTERNS.codeBlockStart (trim l)).
    { unfold parseCodeBlock in H. run_binds H; discriminate H. }
    destruct (exec PATTERNS.heading (trim l)).
    { run_binds H; discriminate H. }
    rewrite hr_test in H. destruct (isRule (trim l)); [reflexivity|].
    destruct (startsWith (str ">") (trim l)).
    { unfold parseBlockquote in H. run_binds H; discriminate H. }
    destruct (test PATTERNS.ordered (trim l) || test PATTERNS.unordered (trim l)).
    { unfold parseList in H. run_binds H; discriminate H. }
    run_binds H; discriminate H.
Qed.

Lemma parseLine_hr_witness :
  parseLine [str "a"; str "  ****  "] 1 = Ok (Some Hr, 1 + 1) /\
  isRule (trim (str " ___")) = true.
Proof.
  split.
  - apply (parseLine_hr [str "a"; str "  ****  "] 1 (str "  ****  "));
      reflexivity.
  - apply (proj2 (parseLine_hr [str " ___"] 0 (str " ___") eq_refl) 1).
    reflexivity.
Defined.

Lemma space_not_hash (c : N) : isSpace c = true -> isChar "#" c = false.
Proof.
  intros Hs. destruct (isChar "#" c) eqn:E; [|reflexivity].
  apply N.eqb_eq in E. subst c. discriminate Hs.
Qed.

Lemma takes_heading hashes ws label :
  headingParts hashes ws label = true ->
  Takes PATTERNS.heading noCaptures (hashes ++ ws ++ label ++ [])
    (setCapture 2 label (setCapture 1 hashes noCaptures)) (fun rest => rest = []).
Proof.
  unfold headingParts. rewrite !andb_true_iff, !Nat.leb_le, negb_true_iff.
  intros [[[[[[Hh Hlo] Hhi] Hws] Hne] Hdot] Hfirst].
  unfold PATTERNS.heading, Between, Plus.
  eapply takes_Seq.
  - apply takes_Grp. apply takes_Rep; [exact Hh | exact Hlo |].
    intros h E. injection E as <-. exact Hhi.
  - eapply takes_Seq.
    + apply takes_Rep; [exact Hws | apply nonempty_length; exact Hne | discriminate].
    + eapply takes_Seq.
      * apply takes_Grp. apply takes_Rep; [exact Hdot | | discriminate].
        destruct label; [discriminate Hfirst | simpl; lia].
      * apply takes_Eos.
      * intros rest ->. exact I.
    + intros rest ->. destruct label as [|c label]; [discriminate Hfirst|].
      simpl. apply negb_true_iff. exact Hfirst.
  - intros rest ->. destruct ws as [|c ws]; [discriminate Hne|].
    simpl in Hws |- *. apply andb_true_iff in Hws. destruct Hws as [Hc _].
    apply space_not_hash. exact Hc.
Qed.

Lemma heading_exec hashes ws label :
  headingParts hashes ws label = true ->
  exec PATTERNS.heading (hashes ++ ws ++ label)
  = Some (MatchResult (hashes ++ ws ++ label)
            (setCapture 2 label (setCapture 1 hashes noCaptures))).
Proof.
  intros H. pose proof (takes_exec _ _ _ _ [] (takes_heading _ _ _ H) eq_refl) as E.
  rewrite !app_nil_r in E. exact E.
Qed.

Lemma dropWhile_stops (p : N -> bool) (s : jsstring) : stops p (dropWhile p s).
Proof.
  induction s as [|c s IH]; simpl; [exact I|].
  destruct (p c) eqn:E; [exact IH | exact E].
Qed.

(** A trimmed string does not end with white space. *)
Lemma trim_last (l x : jsstring) (c : N) : trim l = x ++ [c] -> isSpace c = false.
Proof.
  unfold trim. intros H. apply (f_equal (@rev N)) in H.
  rewrite rev_involutive, rev_app_distr in H. simpl in H.
  pose proof (dropWhile_stops isSpace (rev (dropWhile isSpace l))) as Hs.
  rewrite H in Hs. exact Hs.
Qed.

Lemma spaces_regroup (label : jsstring) :
  forall ws,
    forallb isSpace ws = true -> forallb isDot label = true ->
    existsb (fun c => negb (isSpace c)) label = true ->
    exists ws' label',
      ws ++ label = ws' ++ label' /\
      forallb isSpace ws' = true /\ length ws <= length ws' /\
      forallb isDot label' = true /\
      match label' with c :: _ => negb (isSpace c) | [] => false end = true.
Proof.
  induction label as [|c label IH]; intros ws Hws Hdot Hex; [discriminate Hex|].
  simpl in Hdot. apply andb_true_iff in Hdot. destruct Hdot as [Hc Hdot].
  destruct (isSpace c) eqn:Hsp.
  - simpl in Hex. rewrite Hsp in Hex. simpl in Hex.
    destruct (IH (ws ++ [c])) as [ws' [label' [E [H1 [H2 [H3 H4]]]]]];
      [rewrite forallb_app, Hws; simpl; rewrite Hsp; reflexivity
      | exact Hdot | exact Hex |].
    exists ws', label'. rewrite <- app_assoc in E. simpl in E.
    rewrite length_app in H2. simpl in H2.
    repeat split; try assumption. lia.
  - exists ws, (c :: label). simpl. rewrite Hc, Hdot, Hsp.
    repeat split; try assumption; try reflexivity.
Qed.

Lemma heading_parts (l : jsstring) (m : matchResult) :
  exec PATTERNS.heading (trim l) = Some m ->
  exists hashes ws label,
    trim l = hashes ++ ws ++ label /\ headingParts hashes ws label = true.
Proof.
  intros H. apply exec_sound in H. destruct H as [rest [Hs HM]].
  destruct m as [w g]. simpl in Hs, HM.
  unfold PATTERNS.heading, Lit, Plus, Between in HM.
  inv_matches. rewrite !app_nil_r in Hs.
  match goal with
  | Hh : forallb (isChar "#") ?hashes = true,
    Hw : forallb isSpace ?ws = true,
    Hd : forallb isDot ?label = true |- _ =>
      rename hashes into hs, ws into sp, label into lb;
      rename Hh into Hhash, Hw into Hspace, Hd into Hdot
  end.
  repeat match goal with
         | H : forall h, None = Some h -> _ |- _ => clear H
         | H : forall h, Some 6 = Some h -> _ |- _ => specialize (H 6 eq_refl)
         end.
  assert (Hex : existsb (fun c => negb (isSpace c)) lb = true).
  { destruct (snoc_cases lb) as [->|[label0 [c ->]]].
    - match goal with H : 1 <= length [] |- _ => simpl in H; lia end.
    - rewrite existsb_app. simpl.
      rewrite (trim_last l (hs ++ sp ++ label0) c).
      + rewrite orb_true_r. reflexivity.
      + rewrite Hs, <- !app_assoc. reflexivity. }
  destruct (spaces_regroup lb sp Hspace Hdot Hex)
    as [ws' [label' [E [H1 [H2 [H3' H4']]]]]].
  exists hs, ws', label'. split.
  - rewrite Hs, <- E. reflexivity.
  - unfold headingParts. rewrite Hhash, H1, H3', H4'.
    assert (Hlo : (1 <=? length hs) = true) by (apply Nat.leb_le; assumption).
    assert (Hhi : (length hs <=? 6) = true) by (apply Nat.leb_le; assumption).
    rewrite Hlo, Hhi.
    destruct ws' as [|z ws'']; [|reflexivity].
    simpl in H2. assert (1 <= length sp) by assumption. lia.
Qed.

(** X4. [parseLine] answers with a heading exactly at the lines that,
    trimmed, are one to six hashes, then white space, then a label on one
    line: the level is the number of hashes, the children are the inline
    nodes of the label (taken from its first character that is not white
    space), and one line is consumed. *)
Theorem parseLine_heading (lines : list jsstring) (i : nat) (l : jsstring) :
  nth_error lines i = Some l ->
  (forall hashes ws label,
     trim l = hashes ++ ws ++ label -> headingParts hashes ws label = true ->
     exists ch,
       parseInline label = Ok ch /\
       parseLine lines i = Ok (Some (Heading (length hashes) ch), i + 1)) /\
  (forall level ch j,
     parseLine lines i = Ok (Some (Heading level ch), j) ->
     exists hashes ws label,
       trim l = hashes ++ ws ++ label /\ headingParts hashes ws label = true /\
       level = length hashes /\ parseInline label = Ok ch /\ j = i + 1).
Proof.
  intros Hl.
  assert (Hrun : forall hashes ws label,
     trim l = hashes ++ ws ++ label -> headingParts hashes ws label = true ->
     parseLine lines i
     = (ch <- parseInline label ;;
        Ok (Some (Heading (length hashes) ch), i + 1))).
  { intros hashes ws label Ht Hp.
    unfold parseLine. rewrite (get_Some _ _ _ Hl). cbn [bind].
    rewrite Ht, (heading_exec _ _ _ Hp). rewrite <- Ht.
    assert (Hfirst : exists s', trim l = ch "#" :: s').
    { rewrite Ht. unfold headingParts in Hp.
      rewrite !andb_true_iff, !Nat.leb_le in Hp.
      destruct Hp as [[[[[[Hh Hlo] _] _] _] _] _].
      destruct hashes as [|c hashes]; [simpl in Hlo; lia|].
      simpl in Hh. apply andb_true_iff in Hh. destruct Hh as [Hc _].
      apply N.eqb_eq in Hc. subst c. eexists. reflexivity. }
    destruct Hfirst as [s' Hs']. rewrite Hs'. cbn [isEmpty].
    destruct (test PATTERNS.codeBlockStart (ch "#" :: s')) eqn:T.
    { destruct (fence_first _ T) as [x E]. discriminate E. }
    reflexivity. }
  split.
  - intros hashes ws label Ht Hp.
    destruct (parseInline_spec label) as [ch [Hch _]].
    exists ch. split; [exact Hch|]. rewrite (Hrun _ _ _ Ht Hp), Hch. reflexivity.
  - intros level ch j H.
    assert (Hm : exists m, exec PATTERNS.heading (trim l) = Some m).
    { unfold parseLine in H. rewrite (get_Some _ _ _ Hl) in H. cbn [bind] in H.
      destruct (isEmpty (trim l)); [discriminate H|].
      destruct (test PATTERNS.codeBlockStart (trim l)).
      { unfold parseCodeBlock in H. run_binds H; discriminate H. }
      destruct (exec PATTERNS.heading (trim l)) as [m|]; [eauto|].
      destruct (test PATTERNS.hr (trim l)); [discriminate H|].
      destruct (startsWith (str ">") (trim l)).
      { unfold parseBlockquote in H. run_binds H; discriminate H. }
      destruct (test PATTERNS.ordered (trim l) || test PATTERNS.unordered (trim l)).
      { unfold parseList in H. run_binds H; discriminate H. }
      run_binds H; discriminate H. }
    destruct Hm as [m Hm].
    destruct (heading_parts l m Hm) as [hashes [ws [label [Ht Hp]]]].
    exists hashes, ws, label. rewrite (Hrun _ _ _ Ht Hp) in H.
    destruct (parseInline label) as [ch'|e]; cbn [bind] in H; [|discriminate H].
    injection H as <- <- <-. auto.
Qed.

Lemma parseLine_heading_witness :
  exists ch,
    parseInline (str "Title *one*") = Ok ch /\
    parseLine [str "  ##   Title *one*  "] 0
    = Ok (Some (Heading (length (str "##")) ch), 0 + 1).
Proof.
  apply (proj1 (parseLine_heading [str "  ##   Title *one*  "] 0
                  (str "  ##   Title *one*  ") eq_refl)
           (str "##") (str "   ") (str "Title *one*"));
    reflexivity.
Defined.

(** ** Quotations *)

Lemma quoteLoop_spec lines start :
  start <= length lines ->
  exists j,
    while (length lines) (inRange lines) (quoteBody lines) ([], start)
    = Ok (map quoteText (slice start j lines), j) /\
    start <= j <= length lines /\
    (forall k, start <= k < j -> quoteGoesOn lines k = true) /\
    quoteGoesOn lines j = false.
Proof.
  intros Hstart.
  pose (I := fun st : list jsstring * nat =>
     start <= snd st <= length lines /\
     fst st = map quoteText (slice start (snd st) lines) /\
     forall k, start <= k < snd st -> quoteGoesOn lines k = true).
  destruct (while_rule I (fun st => I st /\ quoteGoesOn lines (snd st) = false)
    (fun st => length lines - snd st)
    (inRange lines) (quoteBody lines))
    with (fuel := length lines) (s := (@nil jsstring, start))
    as [[quoteLines j] [Hrun [[Hj [Hq Hk]] Hstop]]].
  - intros [q i] HI Hcond. split; [exact HI|].
    unfold inRange in Hcond. cbn [snd] in *. apply Nat.ltb_ge in Hcond.
    unfold quoteGoesOn.
    destruct (nth_error lines i) eqn:E; [|reflexivity].
    assert (i < length lines) by (apply nth_error_Some; congruence). lia.
  - intros [q i] [Hi [Hq Hk]] Hcond. unfold inRange in Hcond. cbn [fst snd] in *.
    apply Nat.ltb_lt in Hcond. split; [lia|].
    destruct (nth_error_lt lines i Hcond) as [l Hli].
    unfold quoteBody. rewrite (get_Some _ _ _ Hli). cbn [bind].
    assert (Hnext : forall x,
      quoteGoesOn lines i = true -> quoteText l = x ->
      I (q ++ [x], i + 1) /\ length lines - (i + 1) < length lines - i).
    { intros x Hon Hx. split; [|lia]. unfold I. cbn [fst snd].
      split; [lia|]. split.
      - rewrite (slice_snoc lines start i l) by (lia || exact Hli).
        rewrite map_app, Hq, <- Hx. reflexivity.
      - intros k Hkr. destruct (Nat.eq_dec k i) as [->|Hne]; [exact Hon|].
        apply Hk. lia. }
    destruct (startsWith (str ">") (trim l)) eqn:Hs.
    + eexists. split; [reflexivity|]. apply Hnext.
      * unfold quoteGoesOn, quoteLine. rewrite Hli, Hs. reflexivity.
      * unfold quoteText, quoteLine. rewrite Hs. reflexivity.
    + destruct (isEmpty (trim l) && (i + 1 <? length lines)) eqn:Hb.
      * apply andb_true_iff in Hb. destruct Hb as [He Hn].
        apply Nat.ltb_lt in Hn. destruct (nth_error_lt lines (i + 1) Hn) as [l' Hl'].
        rewrite (get_Some _ _ _ Hl'). cbn [bind].
        destruct (startsWith (str ">") (trim l')) eqn:Hs'.
        -- eexists. split; [reflexivity|]. apply Hnext.
           ++ unfold quoteGoesOn, quoteLine. rewrite Hli, Hl', Hs, He, Hs'. reflexivity.
           ++ unfold quoteText, quoteLine. rewrite Hs. reflexivity.
        -- eexists. split; [reflexivity|]. split; [unfold I; cbn [fst snd]; auto|].
           cbn [snd]. unfold quoteGoesOn, quoteLine.
           rewrite Hli, Hl', Hs, He, Hs'. reflexivity.
      * eexists. split; [reflexivity|]. split; [unfold I; cbn [fst snd]; auto|].
        cbn [snd]. unfold quoteGoesOn, quoteLine. rewrite Hli, Hs. cbn [orb].
        apply andb_false_iff in Hb. destruct Hb as [Hb|Hb].
        -- rewrite Hb. reflexivity.
        -- apply Nat.ltb_ge in Hb.
           destruct (nth_error lines (i + 1)) eqn:E.
           ++ assert (i + 1 < length lines) by (apply nth_error_Some; congruence). lia.
           ++ apply andb_false_r.
  - unfold I. cbn [fst snd]. split; [lia|]. split.
    + rewrite slice_empty. reflexivity.
    + intros k Hkr. lia.
  - cbn [snd]. lia.
  - cbn [fst snd] in *. subst quoteLines. exists j. auto.
Qed.

Lemma quote_first (s : jsstring) :
  startsWith (str ">") s = true -> exists s', s = ch ">" :: s'.
Proof.
  intros H. apply startsWith_app in H. eexists. exact H.
Qed.

Lemma quote_line (s : jsstring) :
  startsWith (str ">") s = true ->
  isEmpty s = false /\ test PATTERNS.codeBlockStart s = false /\
  exec PATTERNS.heading s = None /\ test PATTERNS.hr s = false.
Proof.
  intros H. destruct (quote_first s H) as [s' ->].
  split; [reflexivity|]. split; [|split].
  - destruct (test PATTERNS.codeBlockStart _) eqn:T; [|reflexivity].
    destruct (fence_first _ T) as [x E]. discriminate E.
  - destruct (exec PATTERNS.heading _) as [m|] eqn:T; [|reflexivity].
    destruct (heading_first _ _ T) as [x E]. discriminate E.
  - destruct (test PATTERNS.hr _) eqn:T; [|reflexivity].
    destruct (hr_first_two _ T) as [a [x [E Ha]]]. injection E as E _.
    destruct Ha as [-> | [-> | ->]]; discriminate E.
Qed.

(** X5. At a line that, trimmed, starts with the quote marker, [parseLine]
    returns one quotation for the lines up to the first line [j] where the
    quotation does not go on (a quote line, or a blank line right before a
    quote line, goes on). Its children are the inline nodes of one string:
    for each of these lines what follows the marker, trimmed (nothing for
    a blank line), joined by LF. *)
Theorem blockquote_content (lines : list jsstring) (start : nat) (l0 : jsstring) :
  nth_error lines start = Some l0 -> quoteLine l0 = true ->
  exists ch j,
    parseInline (join LF (map quoteText (slice start j lines))) = Ok ch /\
    parseLine lines start = Ok (Some (Blockquote ch), j) /\
    start < j <= length lines /\
    (forall k, start <= k < j -> quoteGoesOn lines k = true) /\
    quoteGoesOn lines j = false.
Proof.
  intros Hl Hq.
  assert (Hlt : start < length lines) by (apply nth_error_Some; congruence).
  destruct (quoteLoop_spec lines start) as [j [Hrun [Hj [Hk Hstop]]]]; [lia|].
  destruct (parseInline_spec (join LF (map quoteText (slice start j lines))))
    as [ch [Hch _]].
  exists ch, j. split; [exact Hch|].
  assert (Hne : start <> j).
  { intros <-. unfold quoteGoesOn in Hstop. rewrite Hl, Hq in Hstop.
    discriminate Hstop. }
  unfold quoteLine in Hq. destruct (quote_line _ Hq) as [He [Hf [Hh Hr]]].
  repeat split; try assumption; try lia.
  unfold parseLine. rewrite (get_Some _ _ _ Hl). cbn [bind].
  rewrite He, Hf, Hh, Hr, Hq. unfold parseBlockquote.
  rewrite Hrun. cbn [bind]. rewrite Hch. reflexivity.
Qed.

Lemma blockquote_content_witness :
  exists ch j,
    parseInline (join LF (map quoteText
                   (slice 0 j [str "> a"; str ""; str " >  *b* "; str "c"]))) = Ok ch /\
    parseLine [str "> a"; str ""; str " >  *b* "; str "c"] 0
    = Ok (Some (Blockquote ch), j) /\
    0 < j <= length [str "> a"; str ""; str " >  *b* "; str "c"] /\
    (forall k, 0 <= k < j ->
       quoteGoesOn [str "> a"; str ""; str " >  *b* "; str "c"] k = true) /\
    quoteGoesOn [str "> a"; str ""; str " >  *b* "; str "c"] j = false.
Proof.
  apply (blockquote_content [str "> a"; str ""; str " >  *b* "; str "c"] 0 (str "> a"));
    reflexivity.
Defined.

(** ** Blocks and lines *)

Lemma nonBlank_prefix (lines : list jsstring) (a : nat) :
  length (nonBlank (firstn a lines)) <= length (nonBlank lines).
Proof.
  rewrite <- (firstn_skipn a lines) at 2. unfold nonBlank.
  rewrite filter_app, length_app. lia.
Qed.

Lemma nonBlank_mono (lines : list jsstring) (a b : nat) :
  a <= b -> length (nonBlank (firstn a lines)) <= length (nonBlank (firstn b lines)).
Proof.
  intros Hab. replace (firstn a lines) with (firstn a (firstn b lines)).
  - apply nonBlank_prefix.
  - rewrite firstn_firstn. f_equal. lia.
Qed.

Lemma nonBlank_next (lines : list jsstring) (i : nat) (l : jsstring) :
  nth_error lines i = Some l -> isEmpty (trim l) = false ->
  length (nonBlank (firstn (S i) lines)) = S (length (nonBlank (firstn i lines))).
Proof.
  intros Hl Hne. rewrite (firstn_snoc_nth lines i l Hl). unfold nonBlank.
  rewrite filter_app, length_app. simpl. rewrite Hne. simpl. lia.
Qed.

(** X6. Every block starts at a line of its own that is not blank: the
    document has at most as many blocks as it has lines with something left
    after trimming. *)
Theorem blocks_at_most_lines (text : jsstring) :
  exists nodes,
    parseMarkdown text = Ok nodes /\
    length nodes <= length (nonBlank (split LF text)).
Proof.
  unfold parseMarkdown. set (lines := split LF text).
  destruct (while_rule
    (fun st : list block * nat =>
       length (fst st) <= length (nonBlank (firstn (snd st) lines)))
    (fun st => length (fst st) <= length (nonBlank lines))
    (fun st => length lines - snd st)
    (inRange lines) (documentBody lines))
    with (fuel := length lines) (s := (@nil block, 0)) as [[nodes j] [Hrun HQ]].
  - intros [nodes i] H _. cbn [fst snd] in *.
    pose proof (nonBlank_prefix lines i). lia.
  - intros [nodes i] Hinv Hcond. unfold inRange in Hcond. cbn [fst snd] in *.
    apply Nat.ltb_lt in Hcond. split; [lia|].
    destruct (nth_error_lt lines i Hcond) as [l Hl].
    unfold documentBody.
    destruct (isEmpty (trim l)) eqn:Hempty.
    + assert (Hrun : parseLine lines i = Ok (None, i + 1)).
      { unfold parseLine. rewrite (get_Some _ _ _ Hl). cbn [bind].
        rewrite Hempty. reflexivity. }
      rewrite Hrun. cbn [bind]. eexists. split; [reflexivity|]. cbn [fst snd].
      split; [|lia]. pose proof (nonBlank_mono lines i (i + 1)). lia.
    + destruct (parseLine_spec lines i Hcond) as [node [next [Hrun [Hnext _]]]].
      rewrite Hrun. cbn [bind]. eexists. split; [reflexivity|]. cbn [fst snd].
      split; [|lia].
      pose proof (nonBlank_next lines i l Hl Hempty) as Hstep.
      pose proof (nonBlank_mono lines (S i) next) as Hmono.
      destruct node as [b|]; [rewrite length_app; simpl|]; lia.
  - simpl. lia.
  - cbn [snd]. lia.
  - exists nodes. rewrite Hrun. cbn [bind]. split; [reflexivity | exact HQ].
Qed.

(** ** White space around lines *)

Lemma while_ext {S : Type} (cond cond' : S -> bool)
    (body body' : S -> result (flow S)) :
  (forall s, cond s = cond' s) -> (forall s, body s = body' s) ->
  forall fuel s, while fuel cond body s = while fuel cond' body' s.
Proof.
  intros Hc Hb fuel. induction fuel as [|fuel IH]; intros s; simpl.
  - rewrite Hc. reflexivity.
  - rewrite Hc, Hb. destruct (cond' s); [|reflexivity].
    destruct (body' s) as [[s'|s']|e]; simpl; [apply IH | reflexivity | reflexivity].
Qed.

Lemma sameTrim_nth (ls ls' : list jsstring) :
  Forall2 sameTrim ls ls' ->
  forall i,
    (get ls i = Err TypeError /\ get ls' i = Err TypeError) \/
    (exists l l', get ls i = Ok l /\ get ls' i = Ok l' /\ trim l = trim l').
Proof.
  unfold get. induction 1 as [|a b ls ls' Hab _ IH]; intros i.
  - left. destruct i; auto.
  - destruct i as [|i]; simpl.
    + right. exists a, b. auto.
    + apply IH.
Qed.

Section SameTrim.

Variables lines lines' : list jsstring.
Hypothesis Hsame : Forall2 sameTrim lines lines'.

Lemma sameTrim_length : length lines = length lines'.
Proof. exact (Forall2_length Hsame). Qed.

Lemma sameTrim_get (i : nat) :
  (get lines i = Err TypeError /\ get lines' i = Err TypeError) \/
  (exists l l', get lines i = Ok l /\ get lines' i = Ok l' /\ trim l = trim l').
Proof. apply sameTrim_nth. exact Hsame. Qed.

Ltac same_line i l l' Ht :=
  let E1 := fresh "E" in
  let E2 := fresh "E" in
  destruct (sameTrim_get i) as [[E1 E2]|[l [l' [E1 [E2 Ht]]]]];
  rewrite E1, E2; cbn [bind]; [reflexivity|]; try rewrite Ht.

Lemma sameTrim_inRange {S : Type} (st : S * nat) : inRange lines st = inRange lines' st.
Proof. unfold inRange. rewrite sameTrim_length. reflexivity. Qed.

Lemma sameTrim_quoteBody st : quoteBody lines st = quoteBody lines' st.
Proof.
  destruct st as [q i]. unfold quoteBody.
  same_line i l l' Ht. rewrite sameTrim_length.
  destruct (startsWith (str ">") (trim l')); [reflexivity|].
  destruct (isEmpty (trim l') && (i + 1 <? length lines')); [|reflexivity].
  same_line (i + 1) n n' Hn. reflexivity.
Qed.

Lemma sameTrim_peek index patterns :
  peekNextNonEmpty lines index patterns = peekNextNonEmpty lines' index patterns.
Proof.
  unfold peekNextNonEmpty. rewrite sameTrim_length.
  destruct (length lines' <=? index + 1); [reflexivity|].
  same_line (index + 1) n n' Hn. reflexivity.
Qed.

Lemma sameTrim_nestedBody nestedPattern mainPattern st :
  nestedBody lines nestedPattern mainPattern st
  = nestedBody lines' nestedPattern mainPattern st.
Proof.
  destruct st as [its i]. unfold nestedBody.
  same_line i l l' Ht. rewrite sameTrim_peek. reflexivity.
Qed.

Lemma sameTrim_listBody isOrdered st :
  listBody lines isOrdered st = listBody lines' isOrdered st.
Proof.
  destruct st as [its i]. unfold listBody.
  same_line i l l' Ht. rewrite sameTrim_peek, sameTrim_length.
  destruct (exec _ (trim l')) as [m|]; [|reflexivity].
  destruct (cap m 1) as [label|e]; cbn [bind]; [|reflexivity].
  destruct (parseInline label) as [ch|e]; cbn [bind]; [|reflexivity].
  rewrite (while_ext _ (inRange lines') _ (nestedBody lines'
             (if isOrdered then PATTERNS.unordered else PATTERNS.ordered)
             (if isOrdered then PATTERNS.ordered else PATTERNS.unordered)));
    [reflexivity | apply sameTrim_inRange | intros s; apply sameTrim_nestedBody].
Qed.

Lemma sameTrim_parseBlockquote i : parseBlockquote lines i = parseBlockquote lines' i.
Proof.
  unfold parseBlockquote. rewrite sameTrim_length.
  rewrite (while_ext _ (inRange lines') _ (quoteBody lines'));
    [reflexivity | apply sameTrim_inRange | apply sameTrim_quoteBody].
Qed.

Lemma sameTrim_parseList i : parseList lines i = parseList lines' i.
Proof.
  unfold parseList. same_line i l l' Ht. rewrite sameTrim_length.
  rewrite (while_ext _ (inRange lines') _
             (listBody lines' (test PATTERNS.ordered (trim l'))));
    [reflexivity | apply sameTrim_inRange | intros s; apply sameTrim_listBody].
Qed.

Lemma sameTrim_parseLine i :
  (forall l, nth_error lines i = Some l -> isFence l = false) ->
  parseLine lines i = parseLine lines' i.
Proof.
  intros Hfence. unfold parseLine.
  destruct (sameTrim_get i) as [[E1 E2]|[l [l' [E1 [E2 Ht]]]]];
    rewrite E1, E2; cbn [bind]; [reflexivity|].
  assert (Hf : test PATTERNS.codeBlockStart (trim l) = false).
  { apply Hfence. unfold get in E1. destruct (nth_error lines i); congruence. }
  rewrite Ht in Hf |- *. rewrite Hf.
  rewrite sameTrim_parseBlockquote, sameTrim_parseList. reflexivity.
Qed.

Lemma sameTrim_documentBody st :
  Forall (fun l => isFence l = false) lines ->
  documentBody lines st = documentBody lines' st.
Proof.
  intros Hfence. destruct st as [nodes i]. unfold documentBody.
  rewrite sameTrim_parseLine; [reflexivity|].
  intros l Hl. rewrite Forall_forall in Hfence. apply Hfence.
  apply (nth_error_In _ _ Hl).
Qed.

End SameTrim.

(** X7. Outside code blocks, white space at the two ends of a line does not
    count: two texts whose lines agree one by one after trimming, none of
    them a fence line, are parsed to the same blocks. *)
Theorem indentation_ignored (text text' : jsstring) :
  Forall2 sameTrim (split LF text) (split LF text') ->
  Forall (fun l => isFence l = false) (split LF text) ->
  parseMarkdown text = parseMarkdown text'.
Proof.
  intros Hsame Hfence. unfold parseMarkdown.
  rewrite (sameTrim_length _ _ Hsame).
  rewrite (while_ext _ (inRange (split LF text')) _ (documentBody (split LF text')));
    [reflexivity | intros s; apply sameTrim_inRange; exact Hsame |].
  intros s. apply sameTrim_documentBody; assumption.
Qed.

Lemma indentation_ignored_witness :
  parseMarkdown (doc ["# a"; "- x"; "   1. y  "; ""; " > q"]%string)
  = parseMarkdown (doc ["  # a "; "    - x"; "1. y"; "   "; "> q   "]%string).
Proof.
  apply indentation_ignored.
  - repeat constructor.
  - repeat constructor.
Defined.

(** ** Lines of a text *)

Lemma split_nonempty (sep : N) (s : jsstring) : split sep s <> [].
Proof.
  destruct s as [|c s]; simpl; [discriminate|].
  destruct (N.eqb c sep); [discriminate|].
  destruct (split sep s); discriminate.
Qed.

Lemma split_app (sep : N) (a b : jsstring) :
  split sep (a ++ sep :: b) = split sep a ++ split sep b.
Proof.
  induction a as [|c a IH]; simpl.
  - rewrite N.eqb_refl. reflexivity.
  - destruct (N.eqb c sep); [rewrite IH; reflexivity|].
    rewrite IH. pose proof (split_nonempty sep a) as Hne.
    destruct (split sep a) as [|l ls]; [congruence | reflexivity].
Qed.

Lemma split_oneLine (l : jsstring) : oneLine l = true -> split LF l = [l].
Proof.
  induction l as [|c l IH]; simpl; intros H; [reflexivity|].
  apply andb_true_iff in H. destruct H as [Hc Hl].
  apply negb_true_iff in Hc. rewrite Hc, (IH Hl). reflexivity.
Qed.

Lemma join_split (sep : N) (s : jsstring) : join sep (split sep s) = s.
Proof.
  induction s as [|c s IH]; [reflexivity|]. simpl.
  pose proof (split_nonempty sep s) as Hne.
  destruct (N.eqb c sep) eqn:E.
  - apply N.eqb_eq in E. subst c.
    destruct (split sep s) as [|l ls]; [congruence|].
    change (join sep ([] :: l :: ls)) with ([] ++ sep :: join sep (l :: ls)).
    rewrite IH. reflexivity.
  - destruct (split sep s) as [|l ls]; [congruence|].
    rewrite <- IH. destruct ls; reflexivity.
Qed.

Lemma while_done {S : Type} fuel cond (body : S -> result (flow S)) s :
  cond s = false -> while fuel cond body s = Ok s.
Proof. intros H. destruct fuel; simpl; rewrite H; reflexivity. Qed.

(** A document that is one fenced block, closed at its last line or not
    closed at all. *)
Lemma fenced_run (opening : jsstring) (mid tail : list jsstring) :
  isFence opening = true -> Forall (fun l => isFence l = false) mid ->
  tail = [] \/ (exists closing, tail = [closing] /\ isFence closing = true) ->
  exists next,
    while (length (opening :: mid ++ tail))
      (inRange (opening :: mid ++ tail)) (documentBody (opening :: mid ++ tail))
      ([], 0)
    = Ok ([CodeBlock (trim (skipn 3 (trim opening))) (join LF mid)], next).
Proof.
  intros Hopen Hmid Htail. set (lines := opening :: mid ++ tail).
  destruct (parseCodeBlock_spec lines 0 opening eq_refl)
    as [j [Hrun [Hj [Hk Hstop]]]].
  assert (Hlen : length lines = S (length mid + length tail)).
  { unfold lines. simpl. rewrite length_app. reflexivity. }
  assert (Hmidk : forall k, 1 <= k < S (length mid) ->
            exists l, nth_error lines k = Some l /\ isFence l = false).
  { intros k Hkr. destruct k as [|k]; [lia|]. unfold lines. simpl.
    rewrite nth_error_app1 by lia.
    destruct (nth_error mid k) as [l|] eqn:E.
    - exists l. split; [reflexivity|]. rewrite Forall_forall in Hmid.
      apply Hmid. apply (nth_error_In _ _ E).
    - apply nth_error_None in E. lia. }
  assert (Hjm : j = S (length mid)).
  { destruct (Nat.lt_trichotomy j (S (length mid))) as [Hlt|[Heq|Hgt]];
      [ | exact Heq | ].
    - destruct (Hmidk j) as [l [Hl Hf]]; [lia|].
      rewrite (Hstop l Hl) in Hf. discriminate Hf.
    - destruct Htail as [->|[closing [-> Hc]]].
      + rewrite Hlen in Hj. simpl in Hj. lia.
      + assert (Hl : nth_error lines (S (length mid)) = Some closing).
        { unfold lines. simpl. rewrite nth_error_app2 by lia.
          rewrite Nat.sub_diag. reflexivity. }
        rewrite (Hk (S (length mid)) closing) in Hc; [discriminate Hc | lia | exact Hl]. }
  assert (Hslice : slice (0 + 1) j lines = mid).
  { subst j. unfold slice, lines. simpl. rewrite Nat.sub_0_r.
    rewrite firstn_app, Nat.sub_diag, firstn_all. simpl. apply app_nil_r. }
  rewrite Hslice in Hrun.
  assert (Hline : parseLine lines 0
            = Ok (Some (CodeBlock (trim (skipn 3 (trim opening))) (join LF mid)), j + 1)).
  { unfold parseLine. unfold lines at 1. cbn [get nth_error bind].
    rewrite (fence_not_empty _ Hopen). unfold isFence in Hopen. rewrite Hopen.
    exact Hrun. }
  exists (j + 1). rewrite Hlen.
  rewrite (while_continue _ _ _ ([], 0)
             ([CodeBlock (trim (skipn 3 (trim opening))) (join LF mid)], j + 1)).
  - apply while_done. unfold inRange. cbn [snd]. apply Nat.ltb_ge.
    destruct Htail as [->|[closing [-> Hc]]]; rewrite Hlen; simpl; lia.
  - unfold inRange. cbn [snd]. apply Nat.ltb_lt. lia.
  - unfold documentBody. rewrite Hline. reflexivity.
Qed.

(** X8. A text that is one fenced block gives one code block with the text
    between the fence lines as it stands: for an opening fence line, a text
    [body] none of whose lines is a fence, and a closing fence line, the
    content is [body], whether the closing line is there or not. *)
Theorem fenced_document (opening body closing : jsstring) :
  oneLine opening = true -> isFence opening = true ->
  oneLine closing = true -> isFence closing = true ->
  Forall (fun l => isFence l = false) (split LF body) ->
  parseMarkdown (opening ++ LF :: body ++ LF :: closing)
  = Ok [CodeBlock (trim (skipn 3 (trim opening))) body] /\
  parseMarkdown (opening ++ LF :: body)
  = Ok [CodeBlock (trim (skipn 3 (trim opening))) body].
Proof.
  intros Ho Hfo Hc Hfc Hbody. split; unfold parseMarkdown.
  - rewrite split_app, split_app, (split_oneLine _ Ho), (split_oneLine _ Hc).
    destruct (fenced_run opening (split LF body) [closing] Hfo Hbody) as [next Hrun].
    { right. exists closing. auto. }
    cbn [app] in Hrun |- *. rewrite Hrun. cbn [bind]. rewrite join_split. reflexivity.
  - rewrite split_app, (split_oneLine _ Ho).
    destruct (fenced_run opening (split LF body) [] Hfo Hbody) as [next Hrun].
    { left. reflexivity. }
    rewrite app_nil_r in Hrun. cbn [app] in Hrun |- *. rewrite Hrun. cbn [bind].
    rewrite join_split. reflexivity.
Qed.

Lemma fenced_document_witness :
  parseMarkdown (str "``` js " ++ LF :: doc ["a *b*"; ""; "  # c"]%string
                   ++ LF :: str "  ```")
  = Ok [CodeBlock (trim (skipn 3 (trim (str "``` js "))))
          (doc ["a *b*"; ""; "  # c"]%string)] /\
  parseMarkdown (str "``` js " ++ LF :: doc ["a *b*"; ""; "  # c"]%string)
  = Ok [CodeBlock (trim (skipn 3 (trim (str "``` js "))))
          (doc ["a *b*"; ""; "  # c"]%string)].
Proof.
  apply (fenced_document (str "``` js ") (doc ["a *b*"; ""; "  # c"]%string)
           (str "  ```"));
    try reflexivity.
  repeat constructor.
Defined.

(** ** The first item of a list *)

Lemma takes_Cls (p : N -> bool) c cs : p c = true -> Takes (Cls p) cs [c] cs anyRest.
Proof.
  intros Hc rest k res _ Hk. simpl. rewrite Hc. exact Hk.
Qed.

Lemma takes_label (n : nat) (ws label : jsstring) cs :
  forallb isSpace ws = true -> isEmpty ws = false ->
  forallb isDot label = true ->
  match label with c :: _ => negb (isSpace c) | [] => false end = true ->
  Takes (Plus isSpace ;; Grp n (Plus isDot) ;; Eos)%regex cs (ws ++ label ++ [])
    (setCapture n label cs) (fun rest => rest = []).
Proof.
  intros Hws Hne Hdot Hfirst. unfold Plus.
  eapply takes_Seq.
  - apply takes_Rep; [exact Hws | apply nonempty_length; exact Hne | discriminate].
  - eapply takes_Seq.
    + apply takes_Grp. apply takes_Rep; [exact Hdot | | discriminate].
      destruct label; [discriminate Hfirst | simpl; lia].
    + apply takes_Eos.
    + intros rest ->. exact I.
  - intros rest ->. destruct label as [|c label]; [discriminate Hfirst|].
    simpl. apply negb_true_iff. exact Hfirst.
Qed.

Lemma marker_exec (o : bool) (mark ws label : jsstring) :
  itemParts o mark ws label = true ->
  exec (mainPat o) (markerOf o mark ++ ws ++ label)
  = Some (MatchResult (markerOf o mark ++ ws ++ label)
            (setCapture 1 label noCaptures)).
Proof.
  unfold itemParts. rewrite !andb_true_iff, negb_true_iff.
  intros [[[[Hmark Hws] Hne] Hdot] Hfirst].
  assert (HT : Takes (mainPat o) noCaptures (markerOf o mark ++ ws ++ label ++ [])
                 (setCapture 1 label noCaptures) (fun rest => rest = [])).
  { destruct o; simpl mainPat; unfold markerOf.
    - apply andb_true_iff in Hmark. destruct Hmark as [Hm Hd].
      apply negb_true_iff in Hm.
      unfold PATTERNS.ordered. rewrite <- app_assoc.
      eapply takes_Seq.
      + apply takes_Rep; [exact Hd | apply nonempty_length; exact Hm | discriminate].
      + eapply takes_Seq; [apply takes_Chr | apply takes_label; assumption |].
        intros rest _. exact I.
      + intros rest _. reflexivity.
    - destruct mark as [|c [|c' mark]]; try discriminate Hmark.
      unfold PATTERNS.unordered.
      change ([c] ++ ws ++ label ++ []) with ([c] ++ (ws ++ label ++ [])).
      eapply takes_Seq; [apply takes_Cls; exact Hmark | apply takes_label; assumption |].
      intros rest _. exact I. }
  pose proof (takes_exec _ _ _ _ [] HT eq_refl) as E.
  rewrite <- !app_assoc in E. rewrite !app_nil_r in E. exact E.
Qed.

Lemma marker_flag (o : bool) (s : jsstring) :
  test (mainPat o) s = true -> test PATTERNS.ordered s = o.
Proof.
  destruct o; simpl; intros H; [exact H|].
  destruct (test PATTERNS.ordered s) eqn:E; [|reflexivity].
  rewrite (ordered_not_unordered s E) in H. discriminate H.
Qed.

(** X9. At a line that, trimmed, is a list marker (digits and a dot, or one
    of the bullets "-", "*" and "+"), then white space, then a label on one
    line, [parseLine] returns a list that is not empty: its flag says
    whether the marker is the numbered one, and the children of its first
    item are the inline nodes of the label. *)
Theorem list_first_item (lines : list jsstring) (i : nat) (l : jsstring)
    (o : bool) (mark ws label : jsstring) :
  nth_error lines i = Some l ->
  trim l = markerOf o mark ++ ws ++ label -> itemParts o mark ws label = true ->
  exists ch nested more j,
    parseInline label = Ok ch /\
    parseLine lines i
    = Ok (Some (BList (ListNode o (ListItem ch nested :: more))), j).
Proof.
  intros Hl Ht Hp.
  pose proof (marker_exec o mark ws label Hp) as Hexec. rewrite <- Ht in Hexec.
  pose proof (exec_test _ _ _ Hexec) as Htest.
  pose proof (marker_flag o _ Htest) as Hflag.
  assert (Hline : listLine l = true).
  { unfold listLine. destruct o; simpl in Htest; rewrite Htest;
      [reflexivity | apply orb_true_r]. }
  assert (Hlt : i < length lines) by (apply nth_error_Some; congruence).
  destruct (listBody_item lines o [] i l _ Hl Hexec)
    as [label' [ch [nestedItems [j' [Hcap [Hch [_ [Hbody [_ [_ [Hj' [_ Hstop]]]]]]]]]]]].
  unfold cap in Hcap. simpl in Hcap. injection Hcap as <-.
  destruct (listLoop_spec lines o (length lines - 1)
              ([] ++ [ListItem ch
                        (if 0 <? length nestedItems
                         then Some (ListNode (negb o) nestedItems) else None)]) j')
    as [more [j [Hrun _]]]; [lia | right; exact Hstop | lia |].
  exists ch, (if 0 <? length nestedItems
              then Some (ListNode (negb o) nestedItems) else None), more, j.
  split; [exact Hch|].
  rewrite (parseLine_at_marker lines i l Hl Hline).
  unfold parseList. rewrite (get_Some _ _ _ Hl). cbn [bind]. rewrite Hflag.
  replace (length lines) with (S (length lines - 1)) at 1 by lia.
  assert (Hcond : inRange lines (@nil listItem, i) = true)
    by (apply Nat.ltb_lt; exact Hlt).
  rewrite (while_continue _ _ _ _ _ Hcond Hbody).
  rewrite Hrun. reflexivity.
Qed.

Lemma list_first_item_witness :
  exists ch nested more j,
    parseInline (str "one **two**") = Ok ch /\
    parseLine [str "  12.  one **two**"; str "- x"; str "3. y"] 0
    = Ok (Some (BList (ListNode true (ListItem ch nested :: more))), j).
Proof.
  apply (list_first_item [str "  12.  one **two**"; str "- x"; str "3. y"] 0
           (str "  12.  one **two**") true (str "12") (str "  ")
           (str "one **two**"));
    reflexivity.
Defined.

(** ** The two revisions of the tokenizer *)

Lemma earlier_inlineStep st : Earlier.inlineStep st = inlineStep st.
Proof.
  destruct st as [tokens remaining]. unfold Earlier.inlineStep, inlineStep.
  rewrite firstRule_rules.
  destruct (exec imagePattern remaining) as [m|].
  { destruct (cap m 1); cbn [bind]; [|reflexivity].
    destruct (cap m 2); reflexivity. }
  destruct (exec linkPattern remaining) as [m|].
  { destruct (cap m 1); cbn [bind]; [|reflexivity].
    destruct (cap m 2); reflexivity. }
  destruct (exec codePattern remaining) as [m|].
  { destruct (cap m 1); reflexivity. }
  destruct (exec boldPattern remaining) as [m|].
  { destruct (cap m 2); reflexivity. }
  destruct (exec italicPattern remaining) as [m|].
  { destruct (cap m 2); reflexivity. }
  destruct (exec strikePattern remaining) as [m|].
  { destruct (cap m 1); reflexivity. }
  cbv zeta.
  destruct (search isSpecial remaining =? -1)%Z eqn:E1.
  { rewrite firstn_all, skipn_all. reflexivity. }
  destruct (search isSpecial remaining =? 0)%Z eqn:E0; [|reflexivity].
  destruct remaining as [|c remaining]; [discriminate E1 | reflexivity].
Qed.

Lemma earlier_tokenizer (text : jsstring) :
  Earlier.parseInline text = parseInline text.
Proof.
  destruct (parseInline_spec text) as [nodes [Hrun [_ [_ Hne]]]].
  unfold Earlier.parseInline. unfold parseInline in Hrun |- *.
  destruct (isEmpty text); [reflexivity|].
  rewrite (while_ext hasRemaining hasRemaining Earlier.inlineStep inlineStep);
    [ | reflexivity | apply earlier_inlineStep ].
  destruct (while (length text) hasRemaining inlineStep ([], text))
    as [[tokens rest]|e]; cbn [bind] in Hrun |- *; [|reflexivity].
  injection Hrun as Hrun. rewrite Hrun.
  destruct nodes; [congruence | reflexivity].
Qed.

(** X10. The tokenizer of the earlier revision, a cascade of pattern tests
    with a three-way plain-text fallback and a guard for an empty result,
    returns on every string what [parseInline] returns. *)
Theorem earlier_parseInline (text : jsstring) :
  Earlier.parseInline text = parseInline text.
Proof. exact (earlier_tokenizer text). Qed.

(** ** The block scanner of the earlier revision *)

Lemma unorderedStart_shape (s : jsstring) :
  test Earlier.unorderedStart s = true ->
  exists c c2 s', s = c :: c2 :: s' /\
    (isChar "-" c || isChar "*" c || isChar "+" c) = true /\ isSpace c2 = true.
Proof.
  intros H. destruct (test_exec _ _ H) as [m Hm].
  apply exec_sound in Hm. destruct Hm as [rest [Hs HM]].
  destruct m as [w g]. simpl in Hs, HM. unfold Earlier.unorderedStart, Plus in HM.
  inv_matches.
  match goal with
  | Hd : forallb isSpace ?d = true, Hl : 1 <= length ?d |- _ =>
      destruct d as [|c2 d]; [simpl in Hl; lia|];
      simpl in Hd; apply andb_true_iff in Hd; destruct Hd as [Hc2 _]
  end.
  do 3 eexists. split; [reflexivity|]. split; assumption.
Qed.

Lemma orderedStart_shape (s : jsstring) :
  test Earlier.orderedStart s = true ->
  exists c s', s = c :: s' /\ isDigit c = true.
Proof.
  intros H. destruct (test_exec _ _ H) as [m Hm].
  apply exec_sound in Hm. destruct Hm as [rest [Hs HM]].
  destruct m as [w g]. simpl in Hs, HM. unfold Earlier.orderedStart, Lit, Plus in HM.
  inv_matches.
  match goal with
  | Hd : forallb isDigit ?d = true, Hl : 1 <= length ?d |- _ =>
      destruct d as [|c d]; [simpl in Hl; lia|];
      simpl in Hd; apply andb_true_iff in Hd; destruct Hd as [Hc _]
  end.
  do 2 eexists. split; [reflexivity | assumption].
Qed.

Lemma start_first (o : bool) (s : jsstring) :
  test (startPat o) s = true ->
  exists c s', s = c :: s' /\
    (isDigit c || (isChar "-" c || isChar "*" c || isChar "+" c)) = true.
Proof.
  destruct o; simpl; intros H.
  - destruct (orderedStart_shape s H) as [c [s' [-> Hc]]].
    exists c, s'. rewrite Hc. auto.
  - destruct (unorderedStart_shape s H) as [c [c2 [s' [-> [Hc _]]]]].
    exists c, (c2 :: s'). rewrite Hc. split; [reflexivity | apply orb_true_r].
Qed.

Lemma marker_char (c : N) :
  (isDigit c || (isChar "-" c || isChar "*" c || isChar "+" c)) = true ->
  N.eqb (ch "`") c = false /\ N.eqb (ch ">") c = false /\ c <> ch "#".
Proof.
  intros H. split; [|split].
  - apply N.eqb_neq. intros E. rewrite <- E in H. vm_compute in H. discriminate H.
  - apply N.eqb_neq. intros E. rewrite <- E in H. vm_compute in H. discriminate H.
  - intros E. rewrite E in H. vm_compute in H. discriminate H.
Qed.

Lemma start_not_rule (o : bool) (s : jsstring) :
  test (startPat o) s = true -> test PATTERNS.hr s = false.
Proof.
  intros H. destruct (test PATTERNS.hr s) eqn:T; [|reflexivity].
  destruct (hr_first_two s T) as [a [x [E Ha]]]. subst s.
  destruct o; simpl in H.
  - destruct (orderedStart_shape _ H) as [c [s' [E Hc]]]. injection E as <- _.
    destruct Ha as [-> | [-> | ->]]; discriminate Hc.
  - destruct (unorderedStart_shape _ H) as [c [c2 [s' [E [_ Hc2]]]]].
    injection E as _ <- _.
    destruct Ha as [-> | [-> | ->]]; discriminate Hc2.
Qed.

Lemma start_line (o : bool) (s : jsstring) :
  test (startPat o) s = true ->
  isEmpty s = false /\ startsWith (str "```") s = false /\
  exec PATTERNS.heading s = None /\ test PATTERNS.hr s = false /\
  startsWith (str ">") s = false /\
  (o = true -> test Earlier.unorderedStart s = false).
Proof.
  intros H. pose proof (start_not_rule o s H) as Hr.
  destruct (start_first o s H) as [c [s' [-> Hc]]].
  destruct (marker_char c Hc) as [H1 [H2 H3]].
  split; [reflexivity|]. split.
  { change (startsWith (str "```") (c :: s'))
      with (N.eqb (ch "`") c && startsWith (str "``") s').
    rewrite H1. reflexivity. }
  split; [|split; [exact Hr|split]].
  - destruct (exec PATTERNS.heading (c :: s')) as [m|] eqn:T; [|reflexivity].
    destruct (heading_first _ _ T) as [x E]. injection E as E _. contradiction.
  - change (startsWith (str ">") (c :: s'))
      with (N.eqb (ch ">") c && startsWith [] s').
    rewrite H2. reflexivity.
  - intros ->. simpl in H.
    destruct (orderedStart_shape _ H) as [d [x [E Hd]]]. injection E as <- _.
    destruct (test Earlier.unorderedStart (c :: s')) eqn:T; [|reflexivity].
    destruct (unorderedStart_shape _ T) as [d [d2 [x' [E [Hb _]]]]].
    injection E as <- _. rewrite (digit_not_bullet c Hd) in Hb. discriminate Hb.
Qed.

(** At a line that passes the test of a marker but is not an item (the rest
    of the line holds a line terminator other than LF), the list function of
    the earlier revision returns an empty list and the index it was given. *)
Lemma earlier_list_empty (lines : list jsstring) (i : nat) (l : jsstring) (o : bool) :
  nth_error lines i = Some l ->
  test (startPat o) (trim l) = true -> test (mainPat o) (trim l) = false ->
  Earlier.parseLine l lines i = Ok (Some (BList (ListNode o [])), i).
Proof.
  intros Hl Hstart Hitem.
  destruct (start_line o _ Hstart) as [He [Hf [Hh [Hr [Hq Hu]]]]].
  assert (Hlt : i < length lines) by (apply nth_error_Some; congruence).
  assert (Hcond : inRange lines (@nil listItem, i) = true)
    by (apply Nat.ltb_lt; exact Hlt).
  assert (Hloop : forall startPattern,
    while (length lines) (inRange lines)
      (Earlier.listBody lines (mainPat o) startPattern) ([], i) = Ok ([], i)).
  { intros startPattern.
    replace (length lines) with (S (length lines - 1)) at 1 by lia.
    apply while_break; [exact Hcond|].
    unfold Earlier.listBody. rewrite (get_Some _ _ _ Hl). cbn [bind].
    rewrite (test_false_exec _ _ Hitem), He. reflexivity. }
  unfold Earlier.parseLine. rewrite He, Hf, Hh, Hr, Hq.
  destruct o; simpl in Hstart, Hloop.
  - rewrite (Hu eq_refl), Hstart. unfold Earlier.parseOrderedList.
    rewrite Hloop. reflexivity.
  - rewrite Hstart. unfold Earlier.parseUnorderedList.
    rewrite Hloop. reflexivity.
Qed.

(** A loop that reaches a state from which it does not end does not end. *)
Lemma Steps_stuck {S : Type} (cond : S -> bool) (body : S -> result (flow S)) s s' :
  Steps cond body s s' ->
  (forall fuel, while fuel cond body s' = Err OutOfFuel) ->
  forall fuel, while fuel cond body s = Err OutOfFuel.
Proof.
  induction 1 as [s|s x s' Hc Hb _ IH]; intros Hstuck; [exact Hstuck|].
  intros [|fuel]; simpl; rewrite Hc; [reflexivity|].
  rewrite Hb. simpl. apply IH. exact Hstuck.
Qed.

(** X11. The earlier revision enters a list on a test of the marker alone.
    At a line that passes this test but is not an item, its [parseLine]
    returns an empty list and the index it was given, so the loop of its
    [parseMarkdown] makes no progress from there: whatever the fuel, the
    run does not end, and [parseMarkdown] does not return on a text whose
    scan reaches such a line. *)
Theorem earlier_list_stuck (text : jsstring) (i : nat) (l : jsstring) (o : bool) :
  nth_error (split LF text) i = Some l ->
  test (startPat o) (trim l) = true -> test (mainPat o) (trim l) = false ->
  Earlier.parseLine l (split LF text) i = Ok (Some (BList (ListNode o [])), i) /\
  (forall fuel nodes,
     while fuel (inRange (split LF text)) (Earlier.documentBody (split LF text))
       (nodes, i)
     = Err OutOfFuel) /\
  (forall nodes,
     Steps (inRange (split LF text)) (Earlier.documentBody (split LF text))
       ([], 0) (nodes, i) ->
     forall fuel, Earlier.parseMarkdown fuel text = Err OutOfFuel).
Proof.
  intros Hl Hstart Hitem. set (lines := split LF text) in *.
  pose proof (earlier_list_empty lines i l o Hl Hstart Hitem) as Hline.
  split; [exact Hline|].
  assert (Hlt : i < length lines) by (apply nth_error_Some; congruence).
  assert (Hloop : forall fuel nodes,
            while fuel (inRange lines) (Earlier.documentBody lines) (nodes, i)
            = Err OutOfFuel).
  { intros fuel. induction fuel as [|fuel IH]; intros nodes.
    - simpl. unfold inRange. cbn [snd].
      rewrite (proj2 (Nat.ltb_lt _ _) Hlt). reflexivity.
    - rewrite (while_continue _ _ _ _ (nodes ++ [BList (ListNode o [])], i)).
      + apply IH.
      + apply Nat.ltb_lt. exact Hlt.
      + unfold Earlier.documentBody. rewrite (get_Some _ _ _ Hl). cbn [bind].
        rewrite Hline. reflexivity. }
  split; [exact Hloop|].
  intros nodes Hreach fuel. unfold Earlier.parseMarkdown.
  destruct text as [|c text].
  - exfalso. subst lines. simpl in Hl, Hlt.
    assert (i = 0) by lia. subst i. simpl in Hl. injection Hl as <-.
    destruct o; discriminate Hstart.
  - cbn [isEmpty]. fold lines.
    rewrite (Steps_stuck _ _ _ _ Hreach (fun f => Hloop f nodes)). reflexivity.
Qed.

Lemma earlier_list_stuck_witness :
  Earlier.parseLine (str "- a" ++ 13%N :: str "b")
    (split LF (str "# t" ++ LF :: str "- a" ++ 13%N :: str "b")) 1
  = Ok (Some (BList (ListNode false [])), 1) /\
  forall fuel,
    Earlier.parseMarkdown fuel (str "# t" ++ LF :: str "- a" ++ 13%N :: str "b")
    = Err OutOfFuel.
Proof.
  destruct (earlier_list_stuck (str "# t" ++ LF :: str "- a" ++ 13%N :: str "b") 1
              (str "- a" ++ 13%N :: str "b") false eq_refl eq_refl eq_refl)
    as [Hline [_ Hstuck]].
  split; [exact Hline|].
  apply (Hstuck [Heading 1 [Text (str "t")]]).
  apply (StepsStep _ _ _ ([Heading 1 [Text (str "t")]], 1));
    [reflexivity | reflexivity | apply StepsRefl].
Defined.

(** ** Code blocks and quotations in the two revisions *)

(** The pattern of a fence is the test of a prefix. *)
Lemma fence_startsWith (s : jsstring) :
  test PATTERNS.codeBlockStart s = startsWith (str "```") s.
Proof.
  unfold test, exec, PATTERNS.codeBlockStart, Lit.
  change (str "```") with [ch "`"; ch "`"; ch "`"].
  destruct s as [|a s]; [reflexivity|]. cbn [rmatch startsWith].
  rewrite (N.eqb_sym (ch "`") a). destruct (N.eqb a (ch "`")); [|reflexivity].
  destruct s as [|b s]; [reflexivity|]. cbn [rmatch startsWith].
  rewrite (N.eqb_sym (ch "`") b). destruct (N.eqb b (ch "`")); [|reflexivity].
  destruct s as [|c s]; [reflexivity|]. cbn [rmatch startsWith].
  rewrite (N.eqb_sym (ch "`") c). destruct (N.eqb c (ch "`")); reflexivity.
Qed.

(** A loop that tests the fence first thing in its body and breaks does what
    the loop with the test in its condition does. *)
Lemma earlier_codeLoop (lines : list jsstring) :
  forall fuel codeLines i,
    length lines - i < fuel ->
    while fuel (inRange lines) (Earlier.codeBody lines) (codeLines, i)
    = while fuel (codeCond lines) (codeBody lines) (codeLines, i).
Proof.
  induction fuel as [|fuel IH]; intros codeLines i Hfuel; [lia|].
  cbn [while]. unfold inRange, codeCond. cbn [snd].
  destruct (nth_error lines i) as [l|] eqn:E.
  - rewrite (ltb_lines _ _ _ E).
    unfold Earlier.codeBody, codeBody, get. rewrite E. cbn [bind].
    rewrite <- fence_startsWith.
    destruct (test PATTERNS.codeBlockStart (trim l)); cbn [negb]; [reflexivity|].
    destruct fuel as [|fuel'].
    + assert (i < length lines) by (apply nth_error_Some; congruence). lia.
    + apply IH. assert (i < length lines) by (apply nth_error_Some; congruence). lia.
  - apply nth_error_None in E.
    rewrite (proj2 (Nat.ltb_ge _ _) E). reflexivity.
Qed.

Lemma earlier_quoteBody (lines : list jsstring) st :
  Earlier.quoteBody lines st = quoteBody lines st.
Proof.
  destruct st as [q i]. unfold Earlier.quoteBody, quoteBody.
  destruct (get lines i) as [l|e]; cbn [bind]; [|reflexivity].
  destruct (startsWith (str ">") (trim l)); [reflexivity|].
  destruct (isEmpty (trim l)); [|reflexivity].
  destruct (i + 1 <? length lines); reflexivity.
Qed.

(** X12. On every list of lines and at every index, the code-block and the
    quotation function of the earlier revision, written with a break in the
    loop and with nested tests, return what [parseCodeBlock] and
    [parseBlockquote] return. *)
Theorem earlier_blocks (lines : list jsstring) (startIndex : nat) :
  Earlier.parseCodeBlock lines startIndex = parseCodeBlock lines startIndex /\
  Earlier.parseBlockquote lines startIndex = parseBlockquote lines startIndex.
Proof.
  split.
  - unfold Earlier.parseCodeBlock, parseCodeBlock, get.
    destruct (nth_error lines startIndex) as [first|] eqn:E; [|reflexivity].
    cbn [bind]. rewrite earlier_codeLoop; [reflexivity|].
    assert (startIndex < length lines) by (apply nth_error_Some; congruence). lia.
  - unfold Earlier.parseBlockquote, parseBlockquote.
    rewrite (while_ext (inRange lines) (inRange lines)
               (Earlier.quoteBody lines) (quoteBody lines));
      [ | reflexivity | apply earlier_quoteBody ].
    destruct (while _ _ _ _) as [[quoteLines i]|e]; cbn [bind]; [|reflexivity].
    rewrite earlier_tokenizer. reflexivity.
Qed.

(** ** The shape of the blocks *)

Lemma parseList_first (lines : list jsstring) (i : nat) (l : jsstring)
    (o : bool) (m : matchResult) :
  nth_error lines i = Some l ->
  exec (mainPat o) (trim l) = Some m -> test PATTERNS.ordered (trim l) = o ->
  exists label ch nested more j,
    cap m 1 = Ok label /\ parseInline label = Ok ch /\
    Forall (itemOk o) (ListItem ch nested :: more) /\
    parseList lines i
    = Ok (Some (BList (ListNode o (ListItem ch nested :: more))), j).
Proof.
  intros Hl Hexec Hflag.
  assert (Hlt : i < length lines) by (apply nth_error_Some; congruence).
  destruct (listBody_item lines o [] i l _ Hl Hexec)
    as [label [ch [nestedItems [j' [Hcap [Hch [_ [Hbody [Hgood [Hnested
         [Hj' [_ Hstop]]]]]]]]]]]].
  destruct (listLoop_spec lines o (length lines - 1)
              ([] ++ [ListItem ch
                        (if 0 <? length nestedItems
                         then Some (ListNode (negb o) nestedItems) else None)]) j')
    as [more [j [Hrun [_ [Hok _]]]]]; [lia | right; exact Hstop | lia |].
  exists label, ch,
    (if 0 <? length nestedItems
     then Some (ListNode (negb o) nestedItems) else None), more, j.
  split; [exact Hcap|]. split; [exact Hch|]. split.
  - constructor; [|exact Hok]. split; [exact Hgood|]. cbn [nestedList].
    destruct (0 <? length nestedItems) eqn:E; [|exact I]. cbn [ordered items].
    split; [reflexivity|]. split; [|exact Hnested].
    apply Nat.ltb_lt in E. destruct nestedItems; [simpl in E; lia | discriminate].
  - unfold parseList. rewrite (get_Some _ _ _ Hl). cbn [bind]. rewrite Hflag.
    replace (length lines) with (S (length lines - 1)) at 1 by lia.
    assert (Hcond : inRange lines (@nil listItem, i) = true)
      by (apply Nat.ltb_lt; exact Hlt).
    rewrite (while_continue _ _ _ _ _ Hcond Hbody).
    rewrite Hrun. reflexivity.
Qed.

Lemma itemOk_shape (o : bool) (its : list listItem) :
  Forall (itemOk o) its ->
  forallb (fun it => match nestedList it with
                     | Some nl => 0 <? length (items nl)
                     | None => true
                     end) its = true.
Proof.
  induction 1 as [|it its [_ Hit] _ IH]; [reflexivity|]. simpl. rewrite IH.
  destruct (nestedList it) as [nl|]; [|reflexivity].
  destruct Hit as [_ [Hne _]]. destruct (items nl); [congruence | reflexivity].
Qed.

Lemma parseLine_shape (lines : list jsstring) (i : nat) :
  i < length lines ->
  exists node next,
    parseLine lines i = Ok (node, next) /\ i < next /\
    (forall b, node = Some b -> wellShaped b = true).
Proof.
  intros Hlt. destruct (parseLine_spec lines i Hlt) as [node [next [Hrun [Hnext Hok]]]].
  exists node, next. split; [exact Hrun|]. split; [exact Hnext|].
  intros b ->. specialize (Hok b eq_refl).
  destruct b as [level ch'|ch'| |lang content|ch'|ln]; try reflexivity.
  - destruct Hok as [_ [Hlo Hhi]]. cbn [wellShaped].
    apply andb_true_iff. split; apply Nat.leb_le; assumption.
  - simpl in Hok. cbn [wellShaped]. rewrite (itemOk_shape _ _ Hok), andb_true_r.
    destruct (nth_error_lt lines i Hlt) as [l Hl].
    unfold parseLine in Hrun. rewrite (get_Some _ _ _ Hl) in Hrun. cbn [bind] in Hrun.
    destruct (isEmpty (trim l)); [discriminate Hrun|].
    destruct (test PATTERNS.codeBlockStart (trim l)).
    { unfold parseCodeBlock in Hrun. run_binds Hrun; discriminate Hrun. }
    destruct (exec PATTERNS.heading (trim l)).
    { run_binds Hrun; discriminate Hrun. }
    destruct (test PATTERNS.hr (trim l)); [discriminate Hrun|].
    destruct (startsWith (str ">") (trim l)).
    { unfold parseBlockquote in Hrun. run_binds Hrun; discriminate Hrun. }
    destruct (test PATTERNS.ordered (trim l) || test PATTERNS.unordered (trim l))
      eqn:Hlist.
    2: { run_binds Hrun; discriminate Hrun. }
    assert (Hm : exists m, exec (mainPat (test PATTERNS.ordered (trim l))) (trim l)
                           = Some m).
    { destruct (test PATTERNS.ordered (trim l)) eqn:E; simpl.
      - apply test_exec. exact E.
      - apply test_exec. exact Hlist. }
    destruct Hm as [m Hm].
    destruct (parseList_first lines i l _ m Hl Hm eq_refl)
      as [label [ch [nested [more [j [_ [_ [_ Hfirst]]]]]]]].
    rewrite Hfirst in Hrun. injection Hrun as <- _. reflexivity.
Qed.

(** X13. Every block of a parsed document is well shaped: the level of a
    heading is between 1 and 6, a list has at least one item, and a nested
    list, where an item has one, has at least one item too. *)
Theorem blocks_wellShaped (text : jsstring) :
  exists nodes,
    parseMarkdown text = Ok nodes /\ forallb wellShaped nodes = true.
Proof.
  unfold parseMarkdown. set (lines := split LF text).
  destruct (while_rule
    (fun st : list block * nat => forallb wellShaped (fst st) = true)
    (fun st => forallb wellShaped (fst st) = true)
    (fun st => length lines - snd st)
    (inRange lines) (documentBody lines))
    with (fuel := length lines) (s := (@nil block, 0)) as [[nodes j] [Hrun HQ]].
  - intros st H _. exact H.
  - intros [nodes i] Hok Hcond. unfold inRange in Hcond. cbn [fst snd] in *.
    apply Nat.ltb_lt in Hcond. split; [lia|].
    destruct (parseLine_shape lines i Hcond) as [node [next [Hrun [Hnext Hb]]]].
    unfold documentBody. rewrite Hrun. cbn [bind].
    eexists. split; [reflexivity|]. cbn [fst snd]. split; [|lia].
    destruct node as [b|]; [|exact Hok].
    rewrite forallb_app, Hok. simpl. rewrite (Hb b eq_refl). reflexivity.
  - reflexivity.
  - cbn [snd]. lia.
  - exists nodes. rewrite Hrun. cbn [bind]. split; [reflexivity | exact HQ].
Qed.

(** ** Nodes and characters *)

Lemma wellFormed_piece (t : inline) (w : jsstring) :
  wellFormed t = true -> covers t w -> 1 <= length w.
Proof.
  intros Hwf Hcov. destruct (isText t) eqn:Htext.
  - destruct t; try discriminate Htext. apply covers_Text_inv in Hcov. subst w.
    simpl in Hwf. apply negb_true_iff in Hwf. apply nonempty_length. exact Hwf.
  - destruct (piece_special_start t w Htext Hcov) as [d [w' [-> _]]]. simpl. lia.
Qed.

Lemma pieces_length (ts : list inline) (pieces : list jsstring) :
  Forall2 covers ts pieces -> forallb wellFormed ts = true ->
  length ts <= length (concat pieces).
Proof.
  induction 1 as [|t w ts pieces Ht _ IH]; intros Hwf; [simpl; lia|].
  simpl in Hwf. apply andb_true_iff in Hwf. destruct Hwf as [Hw Hwf].
  simpl. rewrite length_app. pose proof (wellFormed_piece t w Hw Ht).
  specialize (IH Hwf). lia.
Qed.

(** X14. [parseInline] returns at most one node for each character of its
    input (and one node for the empty input). *)
Theorem nodes_at_most_characters (text : jsstring) :
  exists nodes,
    parseInline text = Ok nodes /\ length nodes <= Nat.max 1 (length text).
Proof.
  destruct text as [|c text]; [exists [Text []]; split; [reflexivity | simpl; lia]|].
  destruct (parseInline_nodes_wellFormed c text) as [nodes [Hrun Hwf]].
  destruct (parseInline_spec (c :: text)) as [nodes' [Hrun' [[pieces [HF Hc]] _]]].
  rewrite Hrun in Hrun'. injection Hrun' as <-.
  exists nodes. split; [exact Hrun|].
  pose proof (pieces_length nodes pieces HF Hwf) as Hlen. rewrite Hc in Hlen. lia.
Qed.

(** ** Lists as they are written *)

Lemma itemLine_exec (o : bool) (l label : jsstring) :
  itemLine o l label ->
  exec (mainPat o) (trim l)
  = Some (MatchResult (trim l) (setCapture 1 label noCaptures)).
Proof.
  intros [mark [ws [Ht Hp]]]. rewrite Ht. apply marker_exec. exact Hp.
Qed.

Lemma itemLine_stops_nested (lines : list jsstring) (o : bool) (k : nat)
    (l label : jsstring) :
  nth_error lines k = Some l -> itemLine o l label ->
  nestedCont lines o k = false.
Proof.
  intros Hl Hitem. pose proof (itemLine_exec o l label Hitem) as Hexec.
  unfold nestedCont. rewrite Hl.
  rewrite (main_not_nested o _ (exec_test _ _ _ Hexec)).
  destruct (marker_match o _ _ Hexec) as [_ [_ Hne]].
  destruct (trim l); [congruence | reflexivity].
Qed.

Lemma nth_error_middle {A : Type} (pre : list A) (x : A) (post : list A) :
  nth_error (pre ++ x :: post) (length pre) = Some x.
Proof.
  rewrite nth_error_app2 by lia. rewrite Nat.sub_diag. reflexivity.
Qed.

(** The inner loop of [parseList] over the nested lines of an entry. *)
Lemma nested_run (lines : list jsstring) (o : bool) :
  forall (ns : list (jsstring * jsstring)) pre post acc fuel,
    lines = pre ++ map fst ns ++ post ->
    Forall (fun n => itemLine (negb o) (fst n) (snd n)) ns ->
    post = [] \/ (exists l label post', post = l :: post' /\ itemLine o l label) ->
    length ns < fuel ->
    exists nested,
      while fuel (inRange lines) (nestedBody lines (nestedPat o) (mainPat o))
        (acc, length pre)
      = Ok (acc ++ nested, length pre + length ns) /\
      Forall2 nestedOf ns nested.
Proof.
  induction ns as [|[l label] ns IH]; intros pre post acc fuel Hlines Hns Hpost Hfuel.
  - exists []. split; [|constructor]. rewrite app_nil_r, Nat.add_0_r.
    simpl in Hlines. destruct Hpost as [->|[l [label [post' [-> Hitem]]]]].
    + apply while_done. unfold inRange. cbn [snd]. apply Nat.ltb_ge.
      rewrite Hlines, app_nil_r. lia.
    + assert (Hl : nth_error lines (length pre) = Some l)
        by (rewrite Hlines; apply nth_error_middle).
      destruct fuel as [|fuel]; [simpl in Hfuel; lia|].
      apply while_break.
      * apply (ltb_lines _ _ _ Hl).
      * apply nestedBody_stop with (l := l); [exact Hl|].
        apply (itemLine_stops_nested lines o _ l label Hl Hitem).
  - apply Forall_cons_iff in Hns. destruct Hns as [Hn Hns]. cbn [fst snd] in Hn.
    cbn [map app] in Hlines.
    assert (Hl : nth_error lines (length pre) = Some l)
      by (rewrite Hlines; apply nth_error_middle).
    pose proof (itemLine_exec (negb o) l label Hn) as Hexec.
    rewrite <- nestedPat_mainPat in Hexec.
    destruct (nestedBody_item lines o acc (length pre) l _ Hl Hexec)
      as [label' [ch [Hcap [Hch [_ Hbody]]]]].
    unfold cap in Hcap. simpl in Hcap. injection Hcap as <-.
    destruct fuel as [|fuel]; [simpl in Hfuel; lia|].
    assert (Hcond : inRange lines (acc, length pre) = true)
      by (apply (ltb_lines _ _ _ Hl)).
    rewrite (while_continue _ _ _ _ _ Hcond Hbody).
    destruct (IH (pre ++ [l]) post (acc ++ [ListItem ch None]) fuel)
      as [nested [Hrun Hall]];
      [ rewrite Hlines, <- app_assoc; reflexivity | exact Hns | exact Hpost
      | simpl in Hfuel; lia | ].
    exists (ListItem ch None :: nested). split.
    + rewrite length_app in Hrun. simpl in Hrun. rewrite Hrun.
      rewrite <- app_assoc. simpl. do 2 f_equal. lia.
    + constructor; [|exact Hall]. split; [exact Hch | reflexivity].
Qed.

Lemma entryLines_length (entries : list entry) :
  length entries <= length (flat_map entryLines entries).
Proof.
  induction entries as [|e es IH]; simpl; [lia|]. rewrite length_app. lia.
Qed.

(** The outer loop of [parseList] over the entries. *)
Lemma list_run (lines : list jsstring) (o : bool) :
  forall (entries : list entry) pre acc fuel,
    lines = pre ++ flat_map entryLines entries ->
    Forall (entryOk o) entries ->
    length entries <= fuel ->
    exists its,
      while fuel (inRange lines) (listBody lines o) (acc, length pre)
      = Ok (acc ++ its, length lines) /\
      Forall2 (itemOf o) entries its.
Proof.
  induction entries as [|[[l label] ns] es IH]; intros pre acc fuel Hlines Hes Hfuel.
  - exists []. split; [|constructor]. rewrite app_nil_r.
    simpl in Hlines. rewrite app_nil_r in Hlines. subst pre.
    apply while_done. unfold inRange. cbn [snd]. apply Nat.ltb_ge. lia.
  - apply Forall_cons_iff in Hes. destruct Hes as [[Hitem Hns] Hes].
    cbn [fst snd] in Hitem, Hns.
    cbn [flat_map entryLines fst snd app] in Hlines.
    assert (Hl : nth_error lines (length pre) = Some l)
      by (rewrite Hlines; apply nth_error_middle).
    pose proof (itemLine_exec o l label Hitem) as Hexec.
    destruct (parseInline_spec label) as [ch [Hch _]].
    destruct (nested_run lines o ns (pre ++ [l]) (flat_map entryLines es) []
                (length lines)) as [nested [Hinner Hnested]].
    { rewrite Hlines, <- !app_assoc. reflexivity. }
    { exact Hns. }
    { destruct es as [|[[l2 label2] ns2] es']; [left; reflexivity|].
      right. exists l2, label2, (map fst ns2 ++ flat_map entryLines es').
      apply Forall_cons_iff in Hes. destruct Hes as [[Hitem2 _] _].
      split; [reflexivity | exact Hitem2]. }
    { rewrite Hlines, !length_app. simpl. rewrite length_app, length_map. lia. }
    rewrite length_app in Hinner. simpl in Hinner.
    assert (Hbody : listBody lines o (acc, length pre)
              = Ok (Continue
                      (acc ++ [ListItem ch
                                 (if 0 <? length nested
                                  then Some (ListNode (negb o) nested) else None)],
                       length pre + 1 + length ns))).
    { unfold listBody. rewrite (get_Some _ _ _ Hl). cbn [bind].
      change (if o then PATTERNS.ordered else PATTERNS.unordered) with (mainPat o).
      change (if o then PATTERNS.unordered else PATTERNS.ordered) with (nestedPat o).
      rewrite Hexec. unfold cap. cbn [group setCapture Nat.eqb bind].
      rewrite Hch. cbn [bind]. rewrite Hinner. reflexivity. }
    destruct fuel as [|fuel]; [simpl in Hfuel; lia|].
    assert (Hcond : inRange lines (acc, length pre) = true)
      by (apply (ltb_lines _ _ _ Hl)).
    rewrite (while_continue _ _ _ _ _ Hcond Hbody).
    destruct (IH (pre ++ l :: map fst ns)
                (acc ++ [ListItem ch
                           (if 0 <? length nested
                            then Some (ListNode (negb o) nested) else None)]) fuel)
      as [its [Hrun Hall]];
      [ rewrite Hlines, <- app_assoc; reflexivity | exact Hes
      | simpl in Hfuel; lia | ].
    eexists (_ :: its). split.
    + rewrite length_app in Hrun. simpl in Hrun. rewrite length_map in Hrun.
      replace (length pre + 1 + length ns) with (length pre + S (length ns)) by lia.
      rewrite Hrun. rewrite <- app_assoc. reflexivity.
    + constructor; [|exact Hall]. split; [exact Hch|]. cbn [fst snd nestedList].
      destruct Hnested as [|n nit ns' nested' Hn Hrest].
      * reflexivity.
      * cbn [length Nat.ltb Nat.leb]. exists (nit :: nested').
        split; [reflexivity|]. constructor; assumption.
Qed.

(** X15. A list written on two levels is read back as it is written. When
    every entry is an item line with flag [o] followed by nested lines with
    the opposite flag (each line a marker, white space and a label), the
    lines of the entries give one list with flag [o] that takes all the
    lines: one item for each entry, with the inline nodes of its label as
    children, no nested list for an entry without nested lines, and
    otherwise a nested list with the opposite flag and one item for each
    nested line. *)
Theorem list_round_trip (o : bool) (entries : list entry) :
  entries <> [] -> Forall (entryOk o) entries ->
  exists its,
    parseLine (flat_map entryLines entries) 0
    = Ok (Some (BList (ListNode o its)), length (flat_map entryLines entries)) /\
    Forall2 (itemOf o) entries its.
Proof.
  intros Hne Hes. set (lines := flat_map entryLines entries).
  destruct (list_run lines o entries [] [] (length lines))
    as [its [Hrun Hall]];
    [reflexivity | exact Hes | apply entryLines_length |].
  exists its. split; [|exact Hall].
  change (length (@nil jsstring)) with 0 in Hrun.
  change ([] ++ its) with its in Hrun.
  destruct entries as [|[[l label] ns] es]; [congruence|].
  apply Forall_cons_iff in Hes. destruct Hes as [[Hitem _] _]. cbn [fst snd] in Hitem.
  assert (Hl : nth_error lines 0 = Some l) by reflexivity.
  pose proof (itemLine_exec o l label Hitem) as Hexec.
  pose proof (exec_test _ _ _ Hexec) as Htest.
  assert (Hline : listLine l = true).
  { unfold listLine. destruct o; simpl in Htest; rewrite Htest;
      [reflexivity | apply orb_true_r]. }
  rewrite (parseLine_at_marker lines 0 l Hl Hline).
  unfold parseList. rewrite (get_Some _ _ _ Hl). cbn [bind].
  rewrite (marker_flag o _ Htest). rewrite Hrun. reflexivity.
Qed.

Lemma list_round_trip_witness :
  exists its,
    parseLine
      (flat_map entryLines
         [((str "- a", str "a"), []);
          ((str "- b", str "b"), [(str "  1. x", str "x"); (str "  2. *y*", str "*y*")]);
          ((str "- c", str "c"), [])]) 0
    = Ok (Some (BList (ListNode false its)),
          length (flat_map entryLines
                    [((str "- a", str "a"), []);
                     ((str "- b", str "b"),
                      [(str "  1. x", str "x"); (str "  2. *y*", str "*y*")]);
                     ((str "- c", str "c"), [])])) /\
    Forall2 (itemOf false)
      [((str "- a", str "a"), []);
       ((str "- b", str "b"), [(str "  1. x", str "x"); (str "  2. *y*", str "*y*")]);
       ((str "- c", str "c"), [])] its.
Proof.
  apply (list_round_trip false
           [((str "- a", str "a"), []);
            ((str "- b", str "b"),
             [(str "  1. x", str "x"); (str "  2. *y*", str "*y*")]);
            ((str "- c", str "c"), [])]);
    [discriminate|].
  repeat first
    [ apply Forall_cons
    | apply Forall_nil
    | (exists (str "-"), (str " "); split; reflexivity)
    | (exists (str "1"), (str " "); split; reflexivity)
    | (exists (str "2"), (str " "); split; reflexivity)
    | split ].
Defined.

(** ** Runs of a loop without fuel *)

Lemma while_Runs {S : Type} (cond : S -> bool) (body : S -> result (flow S)) :
  forall fuel s r, while fuel cond body s = Ok r -> Runs cond body s r.
Proof.
  induction fuel as [|fuel IH]; intros s r H; simpl in H.
  - destruct (cond s) eqn:Hc; [discriminate H|]. injection H as <-.
    apply RunsDone. exact Hc.
  - destruct (cond s) eqn:Hc.
    + destruct (body s) as [[s'|s']|e] eqn:Hb; simpl in H; [| |discriminate H].
      * apply (RunsStep _ _ _ s'); [exact Hc | exact Hb | apply IH; exact H].
      * injection H as <-. apply RunsBreak; assumption.
    + injection H as <-. apply RunsDone. exact Hc.
Qed.

Lemma Runs_det {S : Type} (cond : S -> bool) (body : S -> result (flow S)) s r :
  Runs cond body s r -> forall r', Runs cond body s r' -> r = r'.
Proof.
  induction 1 as [s Hc|s r Hc Hb|s s' r Hc Hb _ IH]; intros r' H';
    inversion H' as [x Hc'|x y Hc' Hb'|x y z Hc' Hb' Hrest]; subst;
    try congruence.
  apply IH. rewrite Hb in Hb'. injection Hb' as <-. exact Hrest.
Qed.

Lemma Steps_Runs {S : Type} (cond : S -> bool) (body : S -> result (flow S)) s s' r :
  Steps cond body s s' -> Runs cond body s' r -> Runs cond body s r.
Proof.
  induction 1 as [s|s x s' Hc Hb _ IH]; intros Hr; [exact Hr|].
  apply (RunsStep _ _ _ x); [exact Hc | exact Hb | apply IH; exact Hr].
Qed.

Lemma Steps_trans {S : Type} (cond : S -> bool) (body : S -> result (flow S)) s s' r :
  Steps cond body s s' -> Steps cond body s' r -> Steps cond body s r.
Proof.
  induction 1 as [s|s x s' Hc Hb _ IH]; intros Hr; [exact Hr|].
  apply (StepsStep _ _ _ x); [exact Hc | exact Hb | apply IH; exact Hr].
Qed.

(** Two loops that have returned have returned the same, when a run of the
    one is a run of the other. *)
Lemma while_same {S : Type} (cond cond' : S -> bool)
    (body body' : S -> result (flow S)) fuel fuel' s r r' :
  while fuel cond body s = Ok r -> while fuel' cond' body' s = Ok r' ->
  (Runs cond body s r -> Runs cond' body' s r) ->
  while fuel cond body s = while fuel' cond' body' s.
Proof.
  intros H H' Hmove. rewrite H, H'. f_equal.
  apply (Runs_det cond' body' s); [apply Hmove|]; eapply while_Runs; eassumption.
Qed.

(** Cutting the lines after the first [n]: a loop over the lines whose body
    does the same below [n], does not step beyond [n], and breaks at [n],
    runs as the loop over the first [n] lines does. *)
Lemma Runs_cut {A : Type} (n : nat) (linesA linesC : list jsstring)
    (bodyA bodyC : A * nat -> result (flow (A * nat))) :
  length linesA = n -> n < length linesC ->
  (forall acc i, i < n -> bodyC (acc, i) = bodyA (acc, i)) ->
  (forall acc i acc' j, i < n -> bodyA (acc, i) = Ok (Continue (acc', j)) -> j <= n) ->
  (forall acc i acc' j, i < n -> bodyA (acc, i) = Ok (Break (acc', j)) -> j <= n) ->
  (forall acc, bodyC (acc, n) = Ok (Break (acc, n))) ->
  forall s r,
    Runs (inRange linesA) bodyA s r -> snd s <= n ->
    Runs (inRange linesC) bodyC s r /\ snd r <= n.
Proof.
  intros HlenA HlenC Hsame Hcont Hbreak Hstop s r Hrun.
  induction Hrun as [[acc i] Hc|[acc i] [acc' j] Hc Hb|[acc i] [acc' j] r Hc Hb _ IH];
    intros Hi; unfold inRange in Hc; cbn [snd] in *.
  - apply Nat.ltb_ge in Hc. assert (i = n) by lia. subst i. split; [|lia].
    apply RunsBreak; [apply Nat.ltb_lt; cbn [snd]; lia | apply Hstop].
  - apply Nat.ltb_lt in Hc. rewrite HlenA in Hc. split.
    + apply RunsBreak; [apply Nat.ltb_lt; cbn [snd]; lia|].
      rewrite (Hsame acc i Hc). exact Hb.
    + apply (Hbreak acc i acc' j Hc Hb).
  - apply Nat.ltb_lt in Hc. rewrite HlenA in Hc.
    pose proof (Hcont acc i acc' j Hc Hb) as Hj.
    destruct (IH Hj) as [Hr Hn]. split; [|exact Hn].
    apply (RunsStep _ _ _ (acc', j)); [apply Nat.ltb_lt; cbn [snd]; lia | | exact Hr].
    rewrite (Hsame acc i Hc). exact Hb.
Qed.

(** The same for a loop whose body never breaks: it steps to [n]. *)
Lemma Steps_cut {A : Type} (n : nat) (linesA linesC : list jsstring)
    (bodyA bodyC : A * nat -> result (flow (A * nat))) :
  length linesA = n -> n < length linesC ->
  (forall acc i, i < n -> bodyC (acc, i) = bodyA (acc, i)) ->
  (forall acc i acc' j, i < n -> bodyA (acc, i) = Ok (Continue (acc', j)) -> j <= n) ->
  (forall s r, bodyA s <> Ok (Break r)) ->
  forall s r,
    Runs (inRange linesA) bodyA s r -> snd s <= n ->
    Steps (inRange linesC) bodyC s r /\ snd r = n.
Proof.
  intros HlenA HlenC Hsame Hcont Hnever s r Hrun.
  induction Hrun as [[acc i] Hc|[acc i] [acc' j] Hc Hb|[acc i] [acc' j] r Hc Hb _ IH];
    intros Hi; unfold inRange in Hc; cbn [snd] in *.
  - apply Nat.ltb_ge in Hc. split; [apply StepsRefl | lia].
  - destruct (Hnever _ _ Hb).
  - apply Nat.ltb_lt in Hc. rewrite HlenA in Hc.
    pose proof (Hcont acc i acc' j Hc Hb) as Hj.
    destruct (IH Hj) as [Hr Hn]. split; [|exact Hn].
    apply (StepsStep _ _ _ (acc', j)); [apply Nat.ltb_lt; cbn [snd]; lia | | exact Hr].
    rewrite (Hsame acc i Hc). exact Hb.
Qed.

(** Putting [n] lines in front: a loop whose body does at [n + i] what the
    other does at [i] runs as the other does, [n] lines further. *)
Lemma Runs_shift {A : Type} (f : A -> A) (n : nat)
    (condB condC : A * nat -> bool)
    (bodyB bodyC : A * nat -> result (flow (A * nat))) :
  (forall s, condC (shiftSt f n s) = condB s) ->
  (forall s, condB s = true -> bodyC (shiftSt f n s) = shiftFlow f n (bodyB s)) ->
  forall s r,
    Runs condB bodyB s r -> Runs condC bodyC (shiftSt f n s) (shiftSt f n r).
Proof.
  intros Hcond Hbody s r Hrun.
  induction Hrun as [s Hc|s r Hc Hb|s s' r Hc Hb _ IH].
  - apply RunsDone. rewrite Hcond. exact Hc.
  - apply RunsBreak; [rewrite Hcond; exact Hc|].
    rewrite (Hbody s Hc), Hb. reflexivity.
  - apply (RunsStep _ _ _ (shiftSt f n s')); [rewrite Hcond; exact Hc | | exact IH].
    rewrite (Hbody s Hc), Hb. reflexivity.
Qed.

(** ** Two blank lines end every block but a code block *)

Lemma quoteBody_index lines acc i f :
  quoteBody lines (acc, i) = Ok f ->
  match f with
  | Continue s => snd s = i + 1
  | Break s => s = (acc, i)
  end.
Proof.
  unfold quoteBody. intros H.
  destruct (get lines i) as [l|e]; cbn [bind] in H; [|discriminate H].
  destruct (startsWith (str ">") (trim l)); [injection H as <-; reflexivity|].
  destruct (isEmpty (trim l) && (i + 1 <? length lines));
    [|injection H as <-; reflexivity].
  destruct (get lines (i + 1)) as [l'|e]; cbn [bind] in H; [|discriminate H].
  destruct (startsWith (str ">") (trim l')); injection H as <-; reflexivity.
Qed.

Lemma nestedBody_index lines np mp acc i f :
  nestedBody lines np mp (acc, i) = Ok f ->
  match f with
  | Continue s => snd s = i + 1
  | Break s => s = (acc, i)
  end.
Proof.
  unfold nestedBody. intros H.
  destruct (get lines i) as [l|e]; cbn [bind] in H; [|discriminate H].
  destruct (exec np (trim l)) as [m|].
  - run_binds H; try discriminate H. injection H as <-. reflexivity.
  - destruct (isEmpty (trim l)); [|injection H as <-; reflexivity].
    rewrite peekNextNonEmpty_peek in H. cbn [bind] in H.
    destruct (peek lines i [np; mp]); injection H as <-; reflexivity.
Qed.

Lemma listBody_index lines o acc i f :
  i < length lines -> listBody lines o (acc, i) = Ok f ->
  match f with
  | Continue s => snd s <= length lines
  | Break s => s = (acc, i)
  end.
Proof.
  intros Hlt H. destruct (nth_error_lt lines i Hlt) as [l Hl].
  destruct (exec (mainPat o) (trim l)) as [m|] eqn:E.
  - destruct (listBody_item lines o acc i l m Hl E)
      as [label [ch [nestedItems [j [_ [_ [_ [Hbody [_ [_ [Hj _]]]]]]]]]]].
    rewrite Hbody in H. injection H as <-. cbn [snd]. lia.
  - unfold listBody in H. rewrite (get_Some _ _ _ Hl) in H. cbn [bind] in H.
    change (if o then PATTERNS.ordered else PATTERNS.unordered)
      with (mainPat o) in H.
    rewrite E in H.
    destruct (isEmpty (trim l)); [|injection H as <-; reflexivity].
    rewrite peekNextNonEmpty_peek in H. cbn [bind] in H.
    destruct (peek lines i [mainPat o]); injection H as <-;
      [cbn [snd]; lia | reflexivity].
Qed.

Lemma documentBody_continues lines s r : documentBody lines s <> Ok (Break r).
Proof.
  destruct s as [nodes i]. unfold documentBody.
  destruct (parseLine lines i) as [[node next]|e]; cbn [bind]; discriminate.
Qed.

(** A block that is not a code block ends within the lines. *)
Lemma parseLine_bound lines i l node j :
  nth_error lines i = Some l -> isFence l = false ->
  parseLine lines i = Ok (node, j) -> j <= length lines.
Proof.
  intros Hl Hfence H.
  assert (Hlt : i < length lines) by (apply nth_error_Some; congruence).
  unfold parseLine in H. rewrite (get_Some _ _ _ Hl) in H. cbn [bind] in H.
  destruct (isEmpty (trim l)); [injection H as _ <-; lia|].
  unfold isFence in Hfence. rewrite Hfence in H.
  destruct (exec PATTERNS.heading (trim l)).
  { run_binds H; try discriminate H. injection H as _ <-. lia. }
  destruct (test PATTERNS.hr (trim l)); [injection H as _ <-; lia|].
  destruct (startsWith (str ">") (trim l)) eqn:Hq.
  { destruct (parseBlockquote_spec lines i l Hl Hq) as [ch [j' [Hrun [Hj _]]]].
    rewrite Hrun in H. injection H as _ <-. lia. }
  destruct (test PATTERNS.ordered (trim l) || test PATTERNS.unordered (trim l)) eqn:Hlist.
  { destruct (parseList_spec lines i l Hl Hlist) as [its [j' [Hrun [Hj _]]]].
    rewrite Hrun in H. injection H as _ <-. lia. }
  run_binds H; try discriminate H. injection H as _ <-. lia.
Qed.

Section Cut.

Variables la lb : list jsstring.

Local Abbreviation L := (la ++ [] :: [] :: lb).

Lemma cut_length : length la < length L.
Proof. rewrite length_app. simpl. lia. Qed.

Lemma cut_nth (i : nat) : i < length la -> nth_error L i = nth_error la i.
Proof. intros H. apply nth_error_app1. exact H. Qed.

Lemma cut_get (i : nat) : i < length la -> get L i = get la i.
Proof. intros H. unfold get. rewrite (cut_nth i H). reflexivity. Qed.

Lemma cut_blank : nth_error L (length la) = Some [].
Proof. apply nth_error_middle. Qed.

Lemma cut_blank2 : nth_error L (length la + 1) = Some [].
Proof.
  rewrite nth_error_app2 by lia.
  replace (length la + 1 - length la) with 1 by lia. reflexivity.
Qed.

Lemma cut_peek (i : nat) (ps : list regex) :
  i < length la -> Forall (fun p => test p [] = false) ps ->
  peek L i ps = peek la i ps.
Proof.
  intros Hi Hps. unfold peek.
  destruct (Nat.lt_ge_cases (i + 1) (length la)) as [Hlt|Hge].
  - rewrite (cut_nth (i + 1) Hlt). reflexivity.
  - assert (i + 1 = length la) by lia.
    replace (nth_error la (i + 1)) with (@None jsstring)
      by (symmetry; apply nth_error_None; lia).
    rewrite H, cut_blank. change (trim []) with (@nil N).
    induction Hps as [|p ps Hp _ IH]; [reflexivity|].
    simpl. rewrite Hp. exact IH.
Qed.

Lemma cut_peek_blank (ps : list regex) :
  Forall (fun p => test p [] = false) ps -> peek L (length la) ps = false.
Proof.
  intros Hps. unfold peek. rewrite cut_blank2. change (trim []) with (@nil N).
  induction Hps as [|p ps Hp _ IH]; [reflexivity|].
  simpl. rewrite Hp. exact IH.
Qed.

Lemma marker_patterns (o : bool) :
  Forall (fun p => test p [] = false) [nestedPat o; mainPat o] /\
  Forall (fun p => test p [] = false) [mainPat o].
Proof. destruct o; repeat constructor. Qed.

(** *** Quotations *)

Lemma cut_quoteBody acc i :
  i < length la -> quoteBody L (acc, i) = quoteBody la (acc, i).
Proof.
  intros Hi. unfold quoteBody. rewrite (cut_get i Hi).
  destruct (get la i) as [l|e]; cbn [bind]; [|reflexivity].
  destruct (startsWith (str ">") (trim l)); [reflexivity|].
  destruct (isEmpty (trim l)); cbn [andb]; [|reflexivity].
  destruct (Nat.lt_ge_cases (i + 1) (length la)) as [Hlt|Hge].
  - rewrite (proj2 (Nat.ltb_lt _ _) Hlt).
    assert (Hlt' : i + 1 < length L) by (pose proof cut_length; lia).
    rewrite (proj2 (Nat.ltb_lt _ _) Hlt'), (cut_get (i + 1) Hlt). reflexivity.
  - rewrite (proj2 (Nat.ltb_ge _ _) Hge).
    assert (E : i + 1 = length la) by lia.
    assert (Hlt' : i + 1 < length L) by (pose proof cut_length; lia).
    rewrite (proj2 (Nat.ltb_lt _ _) Hlt').
    rewrite E, (get_Some _ _ _ cut_blank). reflexivity.
Qed.

Lemma cut_quoteBody_blank acc :
  quoteBody L (acc, length la) = Ok (Break (acc, length la)).
Proof.
  unfold quoteBody. rewrite (get_Some _ _ _ cut_blank). cbn [bind].
  change (trim []) with (@nil N). cbn [startsWith str isEmpty andb].
  destruct (length la + 1 <? length L); [|reflexivity].
  rewrite (get_Some _ _ _ cut_blank2). reflexivity.
Qed.

Lemma cut_quoteLoop i :
  i <= length la ->
  while (length L) (inRange L) (quoteBody L) ([], i)
  = while (length la) (inRange la) (quoteBody la) ([], i).
Proof.
  intros Hi.
  destruct (quoteLoop_spec L i) as [j [Hrun _]]; [pose proof cut_length; lia|].
  destruct (quoteLoop_spec la i Hi) as [j' [Hrun' _]].
  symmetry. eapply while_same; [exact Hrun' | exact Hrun |].
  intros HR.
  apply (Runs_cut (length la) la L (quoteBody la) (quoteBody L) eq_refl cut_length);
    [ intros; apply cut_quoteBody; assumption
    | intros acc k acc' j0 Hk Hb; apply quoteBody_index in Hb; cbn [snd] in Hb; lia
    | intros acc k acc' j0 Hk Hb; apply quoteBody_index in Hb;
      injection Hb as _ ->; lia
    | apply cut_quoteBody_blank
    | exact HR
    | exact Hi ].
Qed.

Lemma cut_parseBlockquote i :
  i <= length la -> parseBlockquote L i = parseBlockquote la i.
Proof.
  intros Hi. unfold parseBlockquote. rewrite (cut_quoteLoop i Hi). reflexivity.
Qed.

(** *** Lists *)

Lemma cut_nestedBody o acc i :
  i < length la ->
  nestedBody L (nestedPat o) (mainPat o) (acc, i)
  = nestedBody la (nestedPat o) (mainPat o) (acc, i).
Proof.
  intros Hi. unfold nestedBody. rewrite (cut_get i Hi).
  destruct (get la i) as [l|e]; cbn [bind]; [|reflexivity].
  destruct (exec (nestedPat o) (trim l)); [reflexivity|].
  destruct (isEmpty (trim l)); [|reflexivity].
  rewrite !peekNextNonEmpty_peek.
  rewrite (cut_peek i _ Hi (proj1 (marker_patterns o))). reflexivity.
Qed.

Lemma cut_nestedBody_blank o acc :
  nestedBody L (nestedPat o) (mainPat o) (acc, length la)
  = Ok (Break (acc, length la)).
Proof.
  unfold nestedBody. rewrite (get_Some _ _ _ cut_blank). cbn [bind].
  change (trim []) with (@nil N).
  assert (E : exec (nestedPat o) [] = None) by (destruct o; reflexivity).
  rewrite E. cbn [isEmpty]. rewrite peekNextNonEmpty_peek.
  rewrite (cut_peek_blank _ (proj1 (marker_patterns o))). reflexivity.
Qed.

Lemma cut_nestedLoop o i :
  i <= length la ->
  while (length L) (inRange L) (nestedBody L (nestedPat o) (mainPat o)) ([], i)
  = while (length la) (inRange la) (nestedBody la (nestedPat o) (mainPat o)) ([], i).
Proof.
  intros Hi.
  destruct (nestedLoop_spec L o (length L) [] i) as [more [j [Hrun _]]];
    [pose proof cut_length; lia | lia |].
  destruct (nestedLoop_spec la o (length la) [] i) as [more' [j' [Hrun' _]]];
    [lia | lia |].
  symmetry. eapply while_same; [exact Hrun' | exact Hrun |].
  intros HR.
  apply (Runs_cut (length la) la L
           (nestedBody la (nestedPat o) (mainPat o))
           (nestedBody L (nestedPat o) (mainPat o)) eq_refl cut_length);
    [ intros; apply cut_nestedBody; assumption
    | intros acc k acc' j0 Hk Hb; apply nestedBody_index in Hb; cbn [snd] in Hb; lia
    | intros acc k acc' j0 Hk Hb; apply nestedBody_index in Hb;
      injection Hb as _ ->; lia
    | apply cut_nestedBody_blank
    | exact HR
    | exact Hi ].
Qed.

Lemma cut_listBody o acc i :
  i < length la -> listBody L o (acc, i) = listBody la o (acc, i).
Proof.
  intros Hi. unfold listBody. rewrite (cut_get i Hi).
  destruct (get la i) as [l|e]; cbn [bind]; [|reflexivity].
  change (if o then PATTERNS.ordered else PATTERNS.unordered) with (mainPat o).
  change (if o then PATTERNS.unordered else PATTERNS.ordered) with (nestedPat o).
  destruct (exec (mainPat o) (trim l)).
  - destruct (cap m 1) as [label|e]; cbn [bind]; [|reflexivity].
    destruct (parseInline label) as [ch|e]; cbn [bind]; [|reflexivity].
    rewrite (cut_nestedLoop o (i + 1)) by lia. reflexivity.
  - destruct (isEmpty (trim l)); [|reflexivity].
    rewrite !peekNextNonEmpty_peek.
    rewrite (cut_peek i _ Hi (proj2 (marker_patterns o))). reflexivity.
Qed.

Lemma cut_listBody_blank o acc :
  listBody L o (acc, length la) = Ok (Break (acc, length la)).
Proof.
  unfold listBody. rewrite (get_Some _ _ _ cut_blank). cbn [bind].
  change (if o then PATTERNS.ordered else PATTERNS.unordered) with (mainPat o).
  change (trim []) with (@nil N).
  assert (E : exec (mainPat o) [] = None) by (destruct o; reflexivity).
  rewrite E. cbn [isEmpty]. rewrite peekNextNonEmpty_peek.
  rewrite (cut_peek_blank _ (proj2 (marker_patterns o))). reflexivity.
Qed.

Lemma cut_listLoop o i :
  i < length la -> mainLine la o i = true ->
  while (length L) (inRange L) (listBody L o) ([], i)
  = while (length la) (inRange la) (listBody la o) ([], i).
Proof.
  intros Hi Hmain.
  assert (Hmain' : mainLine L o i = true).
  { unfold mainLine in *. rewrite (cut_nth i Hi). exact Hmain. }
  destruct (listLoop_spec L o (length L) [] i) as [more [j [Hrun _]]];
    [pose proof cut_length; lia | left; exact Hmain' | lia |].
  destruct (listLoop_spec la o (length la) [] i) as [more' [j' [Hrun' _]]];
    [lia | left; exact Hmain | lia |].
  symmetry. eapply while_same; [exact Hrun' | exact Hrun |].
  intros HR.
  apply (Runs_cut (length la) la L (listBody la o) (listBody L o) eq_refl cut_length);
    [ intros; apply cut_listBody; assumption
    | intros acc k acc' j0 Hk Hb;
      apply (listBody_index la o acc k _ Hk) in Hb; exact Hb
    | intros acc k acc' j0 Hk Hb;
      apply (listBody_index la o acc k _ Hk) in Hb; injection Hb as _ ->; lia
    | apply cut_listBody_blank
    | exact HR
    | cbn [snd]; lia ].
Qed.

Lemma cut_parseList i l :
  nth_error la i = Some l -> listLine l = true ->
  parseList L i = parseList la i.
Proof.
  intros Hl Hline.
  assert (Hi : i < length la) by (apply nth_error_Some; congruence).
  unfold parseList. rewrite (cut_get i Hi), (get_Some _ _ _ Hl). cbn [bind].
  rewrite (cut_listLoop _ i Hi); [reflexivity|].
  unfold mainLine. rewrite Hl. unfold listLine in Hline.
  destruct (test PATTERNS.ordered (trim l)) eqn:E; simpl; [exact E | exact Hline].
Qed.

(** *** Lines and documents *)

Lemma cut_parseLine i l :
  nth_error la i = Some l -> isFence l = false ->
  parseLine L i = parseLine la i.
Proof.
  intros Hl Hfence.
  assert (Hi : i < length la) by (apply nth_error_Some; congruence).
  unfold parseLine. rewrite (cut_get i Hi), (get_Some _ _ _ Hl). cbn [bind].
  destruct (isEmpty (trim l)); [reflexivity|].
  unfold isFence in Hfence. rewrite Hfence.
  destruct (exec PATTERNS.heading (trim l)); [reflexivity|].
  destruct (test PATTERNS.hr (trim l)); [reflexivity|].
  destruct (startsWith (str ">") (trim l)).
  { apply cut_parseBlockquote. lia. }
  destruct (test PATTERNS.ordered (trim l) || test PATTERNS.unordered (trim l)) eqn:Hlist.
  { apply (cut_parseList i l Hl Hlist). }
  reflexivity.
Qed.

Lemma cut_document r :
  Forall (fun l => isFence l = false) la ->
  while (length la) (inRange la) (documentBody la) ([], 0) = Ok r ->
  Steps (inRange L) (documentBody L) ([], 0) r /\ snd r = length la.
Proof.
  intros Hfence Hrun. apply while_Runs in Hrun.
  assert (Hline : forall i, i < length la ->
            exists l, nth_error la i = Some l /\ isFence l = false).
  { intros i Hi. destruct (nth_error_lt la i Hi) as [l Hl]. exists l.
    split; [exact Hl|]. rewrite Forall_forall in Hfence. apply Hfence.
    apply (nth_error_In _ _ Hl). }
  apply (Steps_cut (length la) la L (documentBody la) (documentBody L)
           eq_refl cut_length);
    [ | | apply documentBody_continues | exact Hrun | cbn [snd]; lia ].
  - intros acc i Hi. destruct (Hline i Hi) as [l [Hl Hf]].
    unfold documentBody. rewrite (cut_parseLine i l Hl Hf). reflexivity.
  - intros acc i acc' j Hi Hb. destruct (Hline i Hi) as [l [Hl Hf]].
    unfold documentBody in Hb.
    destruct (parseLine la i) as [[node next]|e] eqn:E; cbn [bind] in Hb;
      [|discriminate Hb].
    injection Hb as _ <-. apply (parseLine_bound la i l node next Hl Hf E).
Qed.

Lemma cut_blank_steps acc :
  Steps (inRange L) (documentBody L) (acc, length la) (acc, length la + 1 + 1).
Proof.
  assert (Hlen : length L = length la + 2 + length lb).
  { rewrite length_app. simpl. lia. }
  apply (StepsStep _ _ _ (acc, length la + 1)).
  - apply Nat.ltb_lt. cbn [snd]. lia.
  - unfold documentBody, parseLine. rewrite (get_Some _ _ _ cut_blank). reflexivity.
  - apply (StepsStep _ _ _ (acc, length la + 1 + 1)).
    + apply Nat.ltb_lt. cbn [snd]. lia.
    + unfold documentBody, parseLine. rewrite (get_Some _ _ _ cut_blank2). reflexivity.
    + apply StepsRefl.
Qed.

End Cut.

(** ** Lines in front of the lines *)

(** Two loops that have returned, the one [n] lines further than the other. *)
Lemma while_shift {A : Type} (f : A -> A) (n : nat)
    (condB condC : A * nat -> bool)
    (bodyB bodyC : A * nat -> result (flow (A * nat))) fuelB fuelC s r r' :
  (forall s, condC (shiftSt f n s) = condB s) ->
  (forall s, condB s = true -> bodyC (shiftSt f n s) = shiftFlow f n (bodyB s)) ->
  while fuelB condB bodyB s = Ok r ->
  while fuelC condC bodyC (shiftSt f n s) = Ok r' ->
  r' = shiftSt f n r.
Proof.
  intros Hcond Hbody HB HC. apply while_Runs in HB, HC.
  apply (Runs_det condC bodyC (shiftSt f n s)); [exact HC|].
  apply (Runs_shift f n condB condC bodyB bodyC Hcond Hbody _ _ HB).
Qed.

Section Shift.

Variables pre lb : list jsstring.

Local Abbreviation L := (pre ++ lb).
Local Abbreviation same := (fun x : list jsstring => x).
Local Abbreviation sameItems := (fun x : list listItem => x).

Lemma shift_nth (i : nat) : nth_error L (length pre + i) = nth_error lb i.
Proof.
  rewrite nth_error_app2 by lia. f_equal. lia.
Qed.

Lemma shift_get (i : nat) : get L (length pre + i) = get lb i.
Proof. unfold get. rewrite shift_nth. reflexivity. Qed.

Lemma shift_ltb (i : nat) : (length pre + i <? length L) = (i <? length lb).
Proof.
  rewrite length_app.
  destruct (Nat.ltb_spec i (length lb)) as [H|H].
  - apply Nat.ltb_lt. lia.
  - apply Nat.ltb_ge. lia.
Qed.

Lemma shift_inRange {A : Type} (f : A -> A) (s : A * nat) :
  inRange L (shiftSt f (length pre) s) = inRange lb s.
Proof. unfold inRange, shiftSt. cbn [snd]. apply shift_ltb. Qed.

Lemma shift_peek (i : nat) (ps : list regex) :
  peek L (length pre + i) ps = peek lb i ps.
Proof.
  unfold peek. replace (length pre + i + 1) with (length pre + (i + 1)) by lia.
  rewrite shift_nth. reflexivity.
Qed.

(** *** Quotations *)

Lemma shift_quoteBody s :
  quoteBody L (shiftSt same (length pre) s) = shiftFlow same (length pre) (quoteBody lb s).
Proof.
  destruct s as [q i]. unfold shiftSt. cbn [fst snd]. unfold quoteBody.
  replace (length pre + i + 1) with (length pre + (i + 1)) by lia.
  rewrite shift_get, shift_ltb.
  destruct (get lb i) as [l|e]; cbn [bind]; [|reflexivity].
  destruct (startsWith (str ">") (trim l)); [reflexivity|].
  destruct (isEmpty (trim l) && (i + 1 <? length lb)); [|reflexivity].
  rewrite shift_get.
  destruct (get lb (i + 1)) as [l'|e]; cbn [bind]; [|reflexivity].
  destruct (startsWith (str ">") (trim l')); reflexivity.
Qed.

Lemma shift_parseBlockquote i :
  i <= length lb ->
  parseBlockquote L (length pre + i) = shiftOut (length pre) (parseBlockquote lb i).
Proof.
  intros Hi.
  destruct (quoteLoop_spec L (length pre + i)) as [j [Hrun _]];
    [rewrite length_app; lia|].
  destruct (quoteLoop_spec lb i Hi) as [j' [Hrun' _]].
  pose proof (while_shift same (length pre) (inRange lb) (inRange L)
                (quoteBody lb) (quoteBody L) _ _ ([], i) _ _
                (shift_inRange same) (fun s _ => shift_quoteBody s) Hrun' Hrun) as E.
  unfold parseBlockquote. rewrite Hrun, Hrun', E. cbn [bind shiftSt fst snd].
  destruct (parseInline _); reflexivity.
Qed.

(** *** Code blocks *)

Lemma shift_codeCond s : codeCond L (shiftSt same (length pre) s) = codeCond lb s.
Proof.
  destruct s as [c i]. unfold shiftSt, codeCond. cbn [fst snd].
  rewrite shift_nth. reflexivity.
Qed.

Lemma shift_codeBody s :
  codeBody L (shiftSt same (length pre) s) = shiftFlow same (length pre) (codeBody lb s).
Proof.
  destruct s as [c i]. unfold shiftSt. cbn [fst snd]. unfold codeBody.
  replace (length pre + i + 1) with (length pre + (i + 1)) by lia.
  rewrite shift_get. destruct (get lb i); reflexivity.
Qed.

Lemma shift_parseCodeBlock i :
  i < length lb ->
  parseCodeBlock L (length pre + i) = shiftOut (length pre) (parseCodeBlock lb i).
Proof.
  intros Hi.
  destruct (codeLoop_spec L (length L) [] (length pre + (i + 1))) as [j [Hrun _]];
    [rewrite length_app; lia | lia |].
  destruct (codeLoop_spec lb (length lb) [] (i + 1)) as [j' [Hrun' _]]; [lia | lia |].
  pose proof (while_shift same (length pre) (codeCond lb) (codeCond L)
                (codeBody lb) (codeBody L) _ _ ([], i + 1) _ _
                shift_codeCond (fun s _ => shift_codeBody s) Hrun' Hrun) as E.
  unfold parseCodeBlock. rewrite shift_get.
  destruct (get lb i) as [first|e]; cbn [bind]; [|reflexivity].
  replace (length pre + i + 1) with (length pre + (i + 1)) by lia.
  rewrite Hrun, Hrun'. cbn [bind]. injection E as E1 E2.
  cbn [fst snd app] in E1, E2. rewrite E1, E2. cbn [shiftOut].
  do 2 f_equal. lia.
Qed.

(** *** Lists *)

Lemma shift_nestedBody np mp s :
  nestedBody L np mp (shiftSt sameItems (length pre) s)
  = shiftFlow sameItems (length pre) (nestedBody lb np mp s).
Proof.
  destruct s as [its i]. unfold shiftSt. cbn [fst snd]. unfold nestedBody.
  replace (length pre + i + 1) with (length pre + (i + 1)) by lia.
  rewrite shift_get.
  destruct (get lb i) as [l|e]; cbn [bind]; [|reflexivity].
  destruct (exec np (trim l)) as [m|].
  - destruct (cap m 1) as [label|e]; cbn [bind]; [|reflexivity].
    destruct (parseInline label); reflexivity.
  - destruct (isEmpty (trim l)); [|reflexivity].
    rewrite !peekNextNonEmpty_peek, shift_peek. cbn [bind].
    destruct (peek lb i [np; mp]); reflexivity.
Qed.

Lemma shift_nestedLoop o i :
  i <= length lb ->
  while (length L) (inRange L) (nestedBody L (nestedPat o) (mainPat o))
    ([], length pre + i)
  = match while (length lb) (inRange lb) (nestedBody lb (nestedPat o) (mainPat o))
            ([], i) with
    | Ok s => Ok (shiftSt sameItems (length pre) s)
    | Err e => Err e
    end.
Proof.
  intros Hi.
  destruct (nestedLoop_spec L o (length L) [] (length pre + i)) as [more [j [Hrun _]]];
    [rewrite length_app; lia | lia |].
  destruct (nestedLoop_spec lb o (length lb) [] i) as [more' [j' [Hrun' _]]];
    [lia | lia |].
  pose proof (while_shift sameItems (length pre) (inRange lb) (inRange L)
                (nestedBody lb (nestedPat o) (mainPat o))
                (nestedBody L (nestedPat o) (mainPat o)) _ _ ([], i) _ _
                (shift_inRange sameItems)
                (fun s _ => shift_nestedBody _ _ s) Hrun' Hrun) as E.
  rewrite Hrun, Hrun', E. reflexivity.
Qed.

Lemma shift_listBody o s :
  inRange lb s = true ->
  listBody L o (shiftSt sameItems (length pre) s)
  = shiftFlow sameItems (length pre) (listBody lb o s).
Proof.
  destruct s as [its i]. intros Hi. unfold inRange in Hi. cbn [snd] in Hi.
  apply Nat.ltb_lt in Hi.
  unfold shiftSt. cbn [fst snd]. unfold listBody.
  replace (length pre + i + 1) with (length pre + (i + 1)) by lia.
  rewrite shift_get.
  destruct (get lb i) as [l|e]; cbn [bind]; [|reflexivity].
  change (if o then PATTERNS.ordered else PATTERNS.unordered) with (mainPat o).
  change (if o then PATTERNS.unordered else PATTERNS.ordered) with (nestedPat o).
  destruct (exec (mainPat o) (trim l)) as [m|].
  - destruct (cap m 1) as [label|e]; cbn [bind]; [|reflexivity].
    destruct (parseInline label) as [ch|e]; cbn [bind]; [|reflexivity].
    rewrite (shift_nestedLoop o (i + 1)) by lia.
    destruct (while (length lb) _ _ _) as [[nested j]|e]; reflexivity.
  - destruct (isEmpty (trim l)); [|reflexivity].
    rewrite !peekNextNonEmpty_peek, shift_peek. cbn [bind].
    destruct (peek lb i [mainPat o]); reflexivity.
Qed.

Lemma shift_parseList i l :
  nth_error lb i = Some l -> listLine l = true ->
  parseList L (length pre + i) = shiftOut (length pre) (parseList lb i).
Proof.
  intros Hl Hline.
  assert (Hi : i < length lb) by (apply nth_error_Some; congruence).
  set (o := test PATTERNS.ordered (trim l)).
  assert (Hmain : mainLine lb o i = true).
  { unfold mainLine. rewrite Hl. unfold listLine in Hline. subst o.
    destruct (test PATTERNS.ordered (trim l)) eqn:E; simpl; [exact E | exact Hline]. }
  assert (Hmain' : mainLine L o (length pre + i) = true).
  { unfold mainLine in *. rewrite shift_nth. exact Hmain. }
  destruct (listLoop_spec L o (length L) [] (length pre + i)) as [more [j [Hrun _]]];
    [rewrite length_app; lia | left; exact Hmain' | lia |].
  destruct (listLoop_spec lb o (length lb) [] i) as [more' [j' [Hrun' _]]];
    [lia | left; exact Hmain | lia |].
  pose proof (while_shift sameItems (length pre) (inRange lb) (inRange L)
                (listBody lb o) (listBody L o) _ _ ([], i) _ _
                (shift_inRange sameItems) (shift_listBody o) Hrun' Hrun) as E.
  unfold parseList. rewrite shift_get, (get_Some _ _ _ Hl). cbn [bind]. fold o.
  rewrite Hrun, Hrun', E. reflexivity.
Qed.

(** *** Lines and documents *)

Lemma shift_parseLine i :
  i < length lb ->
  parseLine L (length pre + i) = shiftOut (length pre) (parseLine lb i).
Proof.
  intros Hi. destruct (nth_error_lt lb i Hi) as [l Hl].
  unfold parseLine. rewrite shift_get, (get_Some _ _ _ Hl). cbn [bind].
  replace (length pre + i + 1) with (length pre + (i + 1)) by lia.
  destruct (isEmpty (trim l)); [reflexivity|].
  destruct (test PATTERNS.codeBlockStart (trim l)).
  { apply shift_parseCodeBlock. exact Hi. }
  destruct (exec PATTERNS.heading (trim l)) as [m|].
  { destruct (cap m 1); cbn [bind]; [|reflexivity].
    destruct (cap m 2); cbn [bind]; [|reflexivity].
    destruct (parseInline _); reflexivity. }
  destruct (test PATTERNS.hr (trim l)); [reflexivity|].
  destruct (startsWith (str ">") (trim l)).
  { apply shift_parseBlockquote. lia. }
  destruct (test PATTERNS.ordered (trim l) || test PATTERNS.unordered (trim l)) eqn:Hlist.
  { apply (shift_parseList i l Hl Hlist). }
  destruct (parseInline _); reflexivity.
Qed.

Lemma shift_documentBody (na : list block) s :
  inRange lb s = true ->
  documentBody L (shiftSt (app na) (length pre) s)
  = shiftFlow (app na) (length pre) (documentBody lb s).
Proof.
  destruct s as [nodes i]. intros Hi. unfold inRange in Hi. cbn [snd] in Hi.
  apply Nat.ltb_lt in Hi.
  unfold shiftSt. cbn [fst snd]. unfold documentBody.
  rewrite (shift_parseLine i Hi).
  destruct (parseLine lb i) as [[node next]|e]; cbn [shiftOut bind]; [|reflexivity].
  destruct node as [b|]; cbn [shiftFlow]; unfold shiftSt; cbn [fst snd];
    [|reflexivity].
  rewrite app_assoc. reflexivity.
Qed.

Lemma shift_document (na : list block) r :
  while (length lb) (inRange lb) (documentBody lb) ([], 0) = Ok r ->
  Runs (inRange L) (documentBody L) (na, length pre) (na ++ fst r, length pre + snd r).
Proof.
  intros Hrun. apply while_Runs in Hrun.
  pose proof (Runs_shift (app na) (length pre) (inRange lb) (inRange L)
                (documentBody lb) (documentBody L)
                (shift_inRange (app na)) (shift_documentBody na) _ _ Hrun) as HR.
  unfold shiftSt in HR. cbn [fst snd] in HR.
  rewrite app_nil_r, Nat.add_0_r in HR. exact HR.
Qed.

End Shift.

(** ** Texts with two blank lines between them *)

Lemma document_returns (text : jsstring) :
  exists nodes j,
    while (length (split LF text)) (inRange (split LF text))
      (documentBody (split LF text)) ([], 0) = Ok (nodes, j) /\
    parseMarkdown text = Ok nodes.
Proof.
  destruct (parseMarkdown_spec text) as [nodes [H _]].
  unfold parseMarkdown in H |- *.
  destruct (while _ _ _ _) as [[nodes' j]|e]; cbn [bind] in H |- *;
    [|discriminate H].
  exists nodes', j. split; reflexivity.
Qed.

Lemma split_three (a b : jsstring) :
  split LF (a ++ LF :: LF :: LF :: b) = split LF a ++ [] :: [] :: split LF b.
Proof. rewrite split_app. reflexivity. Qed.

(** X16. Two blank lines end every block but a code block, and no block
    looks at the lines before it: when no line of [a] is a fence line, the
    text made of [a], two blank lines and [b] is parsed to the blocks of
    [a] followed by the blocks of [b]. *)
Theorem blank_lines_separate (a b : jsstring) :
  Forall (fun l => isFence l = false) (split LF a) ->
  exists na nb,
    parseMarkdown a = Ok na /\ parseMarkdown b = Ok nb /\
    parseMarkdown (a ++ LF :: LF :: LF :: b) = Ok (na ++ nb).
Proof.
  intros Hfence.
  destruct (document_returns a) as [na [ja [Ha Hna]]].
  destruct (document_returns b) as [nb [jb [Hb Hnb]]].
  destruct (document_returns (a ++ LF :: LF :: LF :: b)) as [nc [jc [Hc Hnc]]].
  exists na, nb. split; [exact Hna|]. split; [exact Hnb|].
  rewrite Hnc. f_equal.
  rewrite split_three in Hc.
  set (la := split LF a) in *. set (lb := split LF b) in *.
  destruct (cut_document la lb (na, ja) Hfence Ha) as [Hsteps Hja].
  cbn [snd] in Hja. subst ja.
  pose proof (cut_blank_steps la lb na) as Hblank.
  pose proof (shift_document (la ++ [[]; []]) lb na (nb, jb) Hb) as Hrest.
  cbn [fst snd] in Hrest.
  replace ((la ++ [[]; []]) ++ lb) with (la ++ [] :: [] :: lb) in Hrest
    by (rewrite <- app_assoc; reflexivity).
  replace (length (la ++ [[]; []])) with (length la + 1 + 1) in Hrest
    by (rewrite length_app; simpl; lia).
  pose proof (Steps_Runs _ _ _ _ _ (Steps_trans _ _ _ _ _ Hsteps Hblank) Hrest) as Hall.
  apply while_Runs in Hc.
  pose proof (Runs_det _ _ _ _ Hc _ Hall) as E. injection E as E _. exact E.
Qed.

Lemma blank_lines_separate_witness :
  exists na nb,
    parseMarkdown (doc ["- x"; ""; "- y"; "> q"]%string) = Ok na /\
    parseMarkdown (doc ["> r"; "- z"; "```"; "c"]%string) = Ok nb /\
    parseMarkdown (doc ["- x"; ""; "- y"; "> q"]%string ++ LF :: LF :: LF ::
                   doc ["> r"; "- z"; "```"; "c"]%string) = Ok (na ++ nb).
Proof.
  apply (blank_lines_separate (doc ["- x"; ""; "- y"; "> q"]%string)
           (doc ["> r"; "- z"; "```"; "c"]%string)).
  repeat constructor.
Defined.
